(** * dbrouter: read/write routing over one primary and several replicas

    A shallow embedding of the Go package [dbrouter] (files db.go,
    resolver.go, the statement facade and the fan-out helper) together with
    the properties its design document states about it.

    Modelling conventions.
    - [*sql.DB] and [*sql.Stmt] are opaque driver handles; a handle is the
      natural number that identifies it and [0] is the nil pointer.
    - [*DBImplementation] is an address into a store of connection sets, so
      that a statement and its owning connection set share one counter.
    - The driver ([database/sql]) is an oracle: the reply to a call is a
      function of the calls made so far and of the call itself.  Every call
      is appended to a chronological log together with its reply.
    - Go's [int] is a [Z]; [uint64] is a [Z] reduced modulo [2^64].
    - A Go run-time panic is the outcome [Panic]. *)

From Stdlib Require Import ZArith Lia Ascii String.
From stdpp Require Import gmap strings list fin_maps.

Local Open Scope Z_scope.

(** ** Machine integers *)

Definition uint64_modulus : Z := 2 ^ 64.
Definition max_int : Z := 2 ^ 63 - 1.

(** The conversion [uint64(n)] of an [int]. *)
Definition uint64_of_int (n : Z) : Z := n mod uint64_modulus.

(** The conversion [int(x)] of a [uint64]. *)
Definition int_of_uint64 (x : Z) : Z :=
  if x <? 2 ^ 63 then x else x - uint64_modulus.

(** [atomic.AddUint64(&c, delta)]: the new value, wrapped to 64 bits. *)
Definition AddUint64 (c delta : Z) : Z := (c + delta) mod uint64_modulus.

(** [len(l)] as a Go [int]. *)
Definition len {A} (l : list A) : Z := Z.of_nat (length l).

(** ** Outcomes and the state-and-panic monad *)

Inductive Res (S A : Type) : Type :=
| Ok (a : A) (s : S)
| Panic (msg : string).
Arguments Ok {S A} a s.
Arguments Panic {S A} msg.

Definition M (S A : Type) : Type := S -> Res S A.

Definition ret {S A} (a : A) : M S A := fun s => Ok a s.

Definition bind {S A B} (m : M S A) (k : A -> M S B) : M S B :=
  fun s => match m s with
           | Ok a s' => k a s'
           | Panic msg => Panic msg
           end.

Definition panic {S A} (msg : string) : M S A := fun _ => Panic msg.

Notation "x <- m ;; k" := (bind m (fun x => k))
  (at level 100, m at next level, right associativity).
Notation "m ;;; k" := (bind m (fun _ => k))
  (at level 100, right associativity).

(** Go's bounds check on [l[i]]. *)
Definition in_range {A} (l : list A) (i : Z) : bool :=
  (0 <=? i) && (i <? len l).

(** [l[i]]. *)
Definition index {S A} (l : list A) (i : Z) : M S A :=
  if in_range l i
  then match l !! Z.to_nat i with
       | Some x => ret x
       | None => panic "index out of range"
       end
  else panic "index out of range".

(** [l[i] = x]; the updated slice is returned. *)
Definition set_index {S A} (l : list A) (i : Z) (x : A) : M S (list A) :=
  if in_range l i
  then ret (<[Z.to_nat i := x]> l)
  else panic "index out of range".

(** ** Oracle handles, calls and the log *)

Definition SqlDB := nat.
Definition SqlStmt := nat.
Definition nil_handle : nat := 0%nat.

Definition Err := string.

Inductive Value : Type :=
| VInt (n : Z)
| VStr (s : string).

Definition Ctx := nat.
Definition TxOptions := nat.
Definition Duration := Z.

(** Methods of [*sql.DB] that the package calls. *)
Inductive DBOp : Type :=
| OpClose
| OpDriver
| OpBegin
| OpBeginTx (ctx : Ctx) (opts : TxOptions)
| OpExec (query : string) (args : list Value)
| OpExecContext (ctx : Ctx) (query : string) (args : list Value)
| OpPing
| OpPingContext (ctx : Ctx)
| OpPrepare (query : string)
| OpPrepareContext (ctx : Ctx) (query : string)
| OpQuery (query : string) (args : list Value)
| OpQueryContext (ctx : Ctx) (query : string) (args : list Value)
| OpQueryRow (query : string) (args : list Value)
| OpQueryRowContext (ctx : Ctx) (query : string) (args : list Value)
| OpSetMaxIdleConns (n : Z)
| OpSetMaxOpenConns (n : Z)
| OpSetConnMaxLifetime (d : Duration)
| OpSetConnMaxIdleTime (d : Duration).

(** Methods of [*sql.Stmt] that the package calls. *)
Inductive StmtOp : Type :=
| OpStmtClose
| OpStmtExec (args : list Value)
| OpStmtExecContext (ctx : Ctx) (args : list Value)
| OpStmtQuery (args : list Value)
| OpStmtQueryContext (ctx : Ctx) (args : list Value)
| OpStmtQueryRow (args : list Value)
| OpStmtQueryRowContext (ctx : Ctx) (args : list Value).

Inductive Call : Type :=
| OpenCall (driverName dataSourceName : string)
| DBCall (h : SqlDB) (op : DBOp)
| StmtCall (h : SqlStmt) (op : StmtOp).

(** What the driver answers: an error, or a value (a fresh handle for
    [sql.Open] and [Prepare], an opaque result otherwise). *)
Inductive Reply : Type :=
| Fail (e : Err)
| Done (v : nat).

Record Event : Type := { ev_call : Call; ev_reply : Reply }.

(** The driver: its reply to a call, given the events so far. *)
Definition Oracle : Type := list Event -> Call -> Reply.

(** The [error] component of a reply. *)
Definition reply_err (r : Reply) : option Err :=
  match r with
  | Fail e => Some e
  | Done _ => None
  end.

(** The pointer component of a reply: nil on failure. *)
Definition reply_handle (r : Reply) : nat :=
  match r with
  | Fail _ => nil_handle
  | Done v => v
  end.

Definition reply_failed (r : Reply) : Prop := exists e, r = Fail e.

(** ** Connection sets and the store *)

Record DBImplementation : Type := {
  readWriteDB : SqlDB;
  readOnlyDBs : list SqlDB;
  totalConnections : Z;
  readOnlyCount : Z
}.

Definition set_readOnlyCount (c : Z) (d : DBImplementation) : DBImplementation :=
  {| readWriteDB := readWriteDB d;
     readOnlyDBs := readOnlyDBs d;
     totalConnections := totalConnections d;
     readOnlyCount := c |}.

Definition set_readWriteDB (h : SqlDB) (d : DBImplementation) : DBImplementation :=
  {| readWriteDB := h;
     readOnlyDBs := readOnlyDBs d;
     totalConnections := totalConnections d;
     readOnlyCount := readOnlyCount d |}.

Definition set_readOnlyDBs (l : list SqlDB) (d : DBImplementation) : DBImplementation :=
  {| readWriteDB := readWriteDB d;
     readOnlyDBs := l;
     totalConnections := totalConnections d;
     readOnlyCount := readOnlyCount d |}.

Record World : Type := {
  heap : gmap nat DBImplementation;
  log : list Event
}.

Definition load (p : nat) : M World DBImplementation :=
  fun w => match heap w !! p with
           | Some d => Ok d w
           | None => Panic "invalid memory address or nil pointer dereference"
           end.

Definition store (p : nat) (d : DBImplementation) : M World unit :=
  fun w => Ok tt {| heap := <[p := d]> (heap w); log := log w |}.

Definition alloc (d : DBImplementation) : M World nat :=
  fun w => let p := fresh (dom (heap w)) in
           Ok p {| heap := <[p := d]> (heap w); log := log w |}.

(** ** The fan-out executor

    [doConcurrent] starts one goroutine per index; goroutine [i] evaluates
    [fn(i)] and sends the result on a channel buffered for [n] values, and
    the caller then receives [n] values.  The scheduler is an oracle with
    two lists of decisions: [launch] orders the evaluations of [fn] and
    [deliver] orders the arrivals on the channel.  Each decision picks one
    of the goroutines still pending, so every oracle is a legal schedule.
    One evaluation of [fn] is one step. *)

Record Sched : Type := { launch : list nat; deliver : list nat }.

Fixpoint pick_order {A} (choices : list nat) (pending : list A) : list A :=
  match choices with
  | [] => pending
  | c :: cs =>
      let k := (c mod length pending)%nat in
      match pending !! k with
      | None => []
      | Some x => x :: pick_order cs (delete k pending)
      end
  end.

Fixpoint run_goroutines {S} (fn : Z -> M S (option Err)) (order : list nat)
  : M S (list (option Err)) :=
  match order with
  | [] => ret []
  | i :: rest =>
      e <- fn (Z.of_nat i) ;;
      es <- run_goroutines fn rest ;;
      ret (e :: es)
  end.

(** The collecting loop: [if e := <-errors; e != nil { err = e }]. *)
Definition collect (received : list (option Err)) : option Err :=
  fold_left (fun err e => match e with Some _ => e | None => err end)
            received None.

Definition doConcurrent {S} (sch : Sched) (n : Z) (fn : Z -> M S (option Err))
  : M S (option Err) :=
  if n <? 0 then panic "makechan: size out of range"
  else
    sent <- run_goroutines fn (pick_order (launch sch) (seq 0 (Z.to_nat n))) ;;
    ret (collect (pick_order (deliver sch) sent)).

(** ** Library functions used by the package *)

(** [strings.Split(s, sep)] for a one-byte separator, after the Go
    documentation: the substrings between the separators, one more than
    there are separators. *)
Fixpoint strings_Split (s : string) (sep : ascii) : list string :=
  match s with
  | EmptyString => [EmptyString]
  | String c rest =>
      if Ascii.eqb c sep then EmptyString :: strings_Split rest sep
      else match strings_Split rest sep with
           | [] => [String c EmptyString]
           | piece :: pieces => String c piece :: pieces
           end
  end.

(** [make([]T, n)]: [n] zero values; a negative length panics. *)
Definition make_slice {S A} (n : Z) (zero : A) : M S (list A) :=
  if n <? 0 then panic "makeslice: len out of range"
  else ret (replicate (Z.to_nat n) zero).

(** [for _, x := range l { body(x) }]. *)
Fixpoint for_each {S A} (l : list A) (body : A -> M S unit) : M S unit :=
  match l with
  | [] => ret tt
  | x :: rest => body x ;;; for_each rest body
  end.

(** ** Local variables captured by a closure *)

Definition lift_world {L A} (m : M World A) : M (L * World) A :=
  fun s => match m (snd s) with
           | Ok a w => Ok a (fst s, w)
           | Panic msg => Panic msg
           end.

Definition get_local {L} : M (L * World) L := fun s => Ok (fst s) s.

Definition put_local {L} (l : L) : M (L * World) unit :=
  fun s => Ok tt (l, snd s).

Definition with_local {L A} (l : L) (m : M (L * World) A) : M World (A * L) :=
  fun w => match m (l, w) with
           | Ok a s => Ok (a, fst s) (snd s)
           | Panic msg => Panic msg
           end.

(** ** Prepared statements *)

(** The struct [stmt]; [db] is the pointer to the owning connection set. *)
Record stmt : Type := {
  db : nat;
  rwstmt : SqlStmt;
  rostmts : list SqlStmt
}.

(** The variables [stmt.rwstmt] and [roStmts] that the closure of
    [Prepare] assigns. *)
Record PrepareFrame : Type := {
  fr_rwstmt : SqlStmt;
  fr_roStmts : list SqlStmt
}.

Section Router.

Variable drv : Oracle.

(** One call into [database/sql], logged with its reply. *)
Definition call (c : Call) : M World Reply :=
  fun w => let r := drv (log w) c in
           Ok r {| heap := heap w;
                   log := log w ++ [{| ev_call := c; ev_reply := r |}] |}.

(** A call whose Go result is [(pointer, error)]. *)
Definition call_handle (c : Call) : M World (nat * option Err) :=
  r <- call c ;; ret (reply_handle r, reply_err r).

(** A call whose Go result is [error]. *)
Definition call_error (c : Call) : M World (option Err) :=
  r <- call c ;; ret (reply_err r).

(** A call whose Go result is dropped. *)
Definition call_void (c : Call) : M World unit :=
  call c ;;; ret tt.

(** *** resolver.go *)

Definition WrapDBs (dbs : list SqlDB) : M World nat :=
  if len dbs =? 0 then panic "at least one RW connection is required"
  else
    first <- index dbs 0 ;;
    alloc {| readWriteDB := first;
             readOnlyDBs := drop 1 dbs;
             totalConnections := len dbs;
             readOnlyCount := 0 |}.

(** *** db.go *)

Definition openConnections (p : nat) (sch : Sched) (driverName : string)
    (conns : list string) : M World (option Err) :=
  d <- load p ;;
  doConcurrent sch (totalConnections d) (fun i =>
    if i =? 0 then
      dsn <- index conns i ;;
      r <- call_handle (OpenCall driverName dsn) ;;
      d0 <- load p ;;
      store p (set_readWriteDB (fst r) d0) ;;;
      ret (snd r)
    else
      dsn <- index conns i ;;
      r <- call_handle (OpenCall driverName dsn) ;;
      d0 <- load p ;;
      ros <- set_index (readOnlyDBs d0) (i - 1) (fst r) ;;
      store p (set_readOnlyDBs ros d0) ;;;
      ret (snd r)).

Definition Open (sch : Sched) (driverName dataSourceName : string)
  : M World (option nat * option Err) :=
  let conns := strings_Split dataSourceName ";" in
  ros <- make_slice (len conns - 1) nil_handle ;;
  p <- alloc {| readWriteDB := nil_handle;
                readOnlyDBs := ros;
                totalConnections := len conns;
                readOnlyCount := 0 |} ;;
  err <- openConnections p sch driverName conns ;;
  match err with
  | Some e => ret (None, Some e)
  | None => ret (Some p, None)
  end.

Definition Close (p : nat) (sch : Sched) : M World (option Err) :=
  d <- load p ;;
  doConcurrent sch (totalConnections d) (fun i =>
    if i =? 0 then
      d0 <- load p ;; call_error (DBCall (readWriteDB d0) OpClose)
    else
      d0 <- load p ;;
      h <- index (readOnlyDBs d0) (i - 1) ;;
      call_error (DBCall h OpClose)).

Definition Driver (p : nat) : M World Reply :=
  d <- load p ;; call (DBCall (readWriteDB d) OpDriver).

Definition ReadWrite (p : nat) : M World SqlDB :=
  d <- load p ;; ret (readWriteDB d).

Definition roundRobin (p : nat) (n : Z) : M World Z :=
  d <- load p ;;
  let c := AddUint64 (readOnlyCount d) 1 in
  store p (set_readOnlyCount c d) ;;;
  if uint64_of_int n =? 0 then panic "integer divide by zero"
  else ret (int_of_uint64 (c mod uint64_of_int n)).

Definition ReadOnly (p : nat) : M World SqlDB :=
  d <- load p ;;
  if totalConnections d =? 1 then ret (readWriteDB d)
  else
    i <- roundRobin p (len (readOnlyDBs d)) ;;
    index (readOnlyDBs d) i.

Definition Begin (p : nat) : M World Reply :=
  h <- ReadWrite p ;; call (DBCall h OpBegin).

Definition BeginTx (p : nat) (ctx : Ctx) (opts : TxOptions) : M World Reply :=
  h <- ReadWrite p ;; call (DBCall h (OpBeginTx ctx opts)).

Definition Exec (p : nat) (query : string) (args : list Value) : M World Reply :=
  h <- ReadWrite p ;; call (DBCall h (OpExec query args)).

Definition ExecContext (p : nat) (ctx : Ctx) (query : string)
    (args : list Value) : M World Reply :=
  h <- ReadWrite p ;; call (DBCall h (OpExecContext ctx query args)).

Definition Ping (p : nat) (sch : Sched) : M World (option Err) :=
  d <- load p ;;
  doConcurrent sch (totalConnections d) (fun i =>
    if i =? 0 then
      d0 <- load p ;; call_error (DBCall (readWriteDB d0) OpPing)
    else
      d0 <- load p ;;
      h <- index (readOnlyDBs d0) (i - 1) ;;
      call_error (DBCall h OpPing)).

Definition PingContext (p : nat) (sch : Sched) (ctx : Ctx) : M World (option Err) :=
  d <- load p ;;
  doConcurrent sch (totalConnections d) (fun i =>
    if i =? 0 then
      d0 <- load p ;; call_error (DBCall (readWriteDB d0) (OpPingContext ctx))
    else
      d0 <- load p ;;
      h <- index (readOnlyDBs d0) (i - 1) ;;
      call_error (DBCall h (OpPingContext ctx))).

(** The closure shared by [Prepare] and [PrepareContext], which differ
    only in the driver method [op] that they call. *)
Definition prepare_on (p : nat) (op : DBOp) (i : Z)
  : M (PrepareFrame * World) (option Err) :=
  if i =? 0 then
    d0 <- lift_world (load p) ;;
    r <- lift_world (call_handle (DBCall (readWriteDB d0) op)) ;;
    fr <- get_local ;;
    put_local {| fr_rwstmt := fst r; fr_roStmts := fr_roStmts fr |} ;;;
    ret (snd r)
  else
    d0 <- lift_world (load p) ;;
    h <- index (readOnlyDBs d0) (i - 1) ;;
    r <- lift_world (call_handle (DBCall h op)) ;;
    fr <- get_local ;;
    ros <- set_index (fr_roStmts fr) (i - 1) (fst r) ;;
    put_local {| fr_rwstmt := fr_rwstmt fr; fr_roStmts := ros |} ;;;
    ret (snd r).

Definition prepare_all (p : nat) (sch : Sched) (op : DBOp)
  : M World (option stmt * option Err) :=
  d <- load p ;;
  roStmts <- make_slice (len (readOnlyDBs d)) nil_handle ;;
  r <- with_local {| fr_rwstmt := nil_handle; fr_roStmts := roStmts |}
         (doConcurrent sch (totalConnections d) (prepare_on p op)) ;;
  match fst r with
  | Some e => ret (None, Some e)
  | None =>
      ret (Some {| db := p;
                   rwstmt := fr_rwstmt (snd r);
                   rostmts := fr_roStmts (snd r) |}, None)
  end.

Definition Prepare (p : nat) (sch : Sched) (query : string)
  : M World (option stmt * option Err) :=
  prepare_all p sch (OpPrepare query).

Definition PrepareContext (p : nat) (sch : Sched) (ctx : Ctx) (query : string)
  : M World (option stmt * option Err) :=
  prepare_all p sch (OpPrepareContext ctx query).

Definition Query (p : nat) (query : string) (args : list Value) : M World Reply :=
  h <- ReadOnly p ;; call (DBCall h (OpQuery query args)).

Definition QueryContext (p : nat) (ctx : Ctx) (query : string)
    (args : list Value) : M World Reply :=
  h <- ReadOnly p ;; call (DBCall h (OpQueryContext ctx query args)).

Definition QueryRow (p : nat) (query : string) (args : list Value) : M World Reply :=
  h <- ReadOnly p ;; call (DBCall h (OpQueryRow query args)).

Definition QueryRowContext (p : nat) (ctx : Ctx) (query : string)
    (args : list Value) : M World Reply :=
  h <- ReadOnly p ;; call (DBCall h (OpQueryRowContext ctx query args)).

Definition SetMaxIdleConns (p : nat) (n : Z) : M World unit :=
  d <- load p ;;
  call_void (DBCall (readWriteDB d) (OpSetMaxIdleConns n)) ;;;
  d1 <- load p ;;
  for_each (readOnlyDBs d1)
    (fun roDB => call_void (DBCall roDB (OpSetMaxIdleConns n))).

Definition SetMaxOpenConns (p : nat) (n : Z) : M World unit :=
  d <- load p ;;
  call_void (DBCall (readWriteDB d) (OpSetMaxOpenConns n)) ;;;
  d1 <- load p ;;
  for_each (readOnlyDBs d1)
    (fun roDB => call_void (DBCall roDB (OpSetMaxOpenConns n))).

Definition SetConnMaxLifetime (p : nat) (t : Duration) : M World unit :=
  d <- load p ;;
  call_void (DBCall (readWriteDB d) (OpSetConnMaxLifetime t)) ;;;
  d1 <- load p ;;
  for_each (readOnlyDBs d1)
    (fun roDB => call_void (DBCall roDB (OpSetConnMaxLifetime t))).

(** This one ranges over the indices and reads the slice at each turn. *)
Definition SetConnMaxIdleTime (p : nat) (t : Duration) : M World unit :=
  d <- load p ;;
  call_void (DBCall (readWriteDB d) (OpSetConnMaxIdleTime t)) ;;;
  d1 <- load p ;;
  for_each (seq 0 (length (readOnlyDBs d1)))
    (fun i =>
       d2 <- load p ;;
       h <- index (readOnlyDBs d2) (Z.of_nat i) ;;
       call_void (DBCall h (OpSetConnMaxIdleTime t))).

(** *** The statement facade *)

Definition stmt_Close (s : stmt) (sch : Sched) : M World (option Err) :=
  d <- load (db s) ;;
  doConcurrent sch (totalConnections d) (fun i =>
    if i =? 0 then call_error (StmtCall (rwstmt s) OpStmtClose)
    else
      h <- index (rostmts s) (i - 1) ;;
      call_error (StmtCall h OpStmtClose)).

Definition RWStmt (s : stmt) : M World SqlStmt := ret (rwstmt s).

Definition ROStmt (s : stmt) : M World SqlStmt :=
  if len (rostmts s) =? 0 then ret (rwstmt s)
  else
    i <- roundRobin (db s) (len (rostmts s)) ;;
    index (rostmts s) i.

Definition stmt_Exec (s : stmt) (args : list Value) : M World Reply :=
  h <- RWStmt s ;; call (StmtCall h (OpStmtExec args)).

Definition stmt_ExecContext (s : stmt) (ctx : Ctx) (args : list Value)
  : M World Reply :=
  h <- RWStmt s ;; call (StmtCall h (OpStmtExecContext ctx args)).

Definition stmt_Query (s : stmt) (args : list Value) : M World Reply :=
  h <- ROStmt s ;; call (StmtCall h (OpStmtQuery args)).

Definition stmt_QueryContext (s : stmt) (ctx : Ctx) (args : list Value)
  : M World Reply :=
  h <- ROStmt s ;; call (StmtCall h (OpStmtQueryContext ctx args)).

Definition stmt_QueryRow (s : stmt) (args : list Value) : M World Reply :=
  h <- ROStmt s ;; call (StmtCall h (OpStmtQueryRow args)).

Definition stmt_QueryRowContext (s : stmt) (ctx : Ctx) (args : list Value)
  : M World Reply :=
  h <- ROStmt s ;; call (StmtCall h (OpStmtQueryRowContext ctx args)).

(** *** Every method of the two facades, as one type of requests *)

Inductive ApiCall : Type :=
| ApiClose (p : nat) (sch : Sched)
| ApiDriver (p : nat)
| ApiBegin (p : nat)
| ApiBeginTx (p : nat) (ctx : Ctx) (opts : TxOptions)
| ApiExec (p : nat) (query : string) (args : list Value)
| ApiExecContext (p : nat) (ctx : Ctx) (query : string) (args : list Value)
| ApiPing (p : nat) (sch : Sched)
| ApiPingContext (p : nat) (sch : Sched) (ctx : Ctx)
| ApiPrepare (p : nat) (sch : Sched) (query : string)
| ApiPrepareContext (p : nat) (sch : Sched) (ctx : Ctx) (query : string)
| ApiQuery (p : nat) (query : string) (args : list Value)
| ApiQueryContext (p : nat) (ctx : Ctx) (query : string) (args : list Value)
| ApiQueryRow (p : nat) (query : string) (args : list Value)
| ApiQueryRowContext (p : nat) (ctx : Ctx) (query : string) (args : list Value)
| ApiSetMaxIdleConns (p : nat) (n : Z)
| ApiSetMaxOpenConns (p : nat) (n : Z)
| ApiSetConnMaxLifetime (p : nat) (t : Duration)
| ApiSetConnMaxIdleTime (p : nat) (t : Duration)
| ApiReadOnly (p : nat)
| ApiReadWrite (p : nat)
| ApiStmtClose (s : stmt) (sch : Sched)
| ApiStmtExec (s : stmt) (args : list Value)
| ApiStmtExecContext (s : stmt) (ctx : Ctx) (args : list Value)
| ApiStmtQuery (s : stmt) (args : list Value)
| ApiStmtQueryContext (s : stmt) (ctx : Ctx) (args : list Value)
| ApiStmtQueryRow (s : stmt) (args : list Value)
| ApiStmtQueryRowContext (s : stmt) (ctx : Ctx) (args : list Value).

(** Run a computation for its effect. *)
Definition discard {S A} (m : M S A) : M S unit := m ;;; ret tt.

Definition run_api (a : ApiCall) : M World unit :=
  match a with
  | ApiClose p sch => discard (Close p sch)
  | ApiDriver p => discard (Driver p)
  | ApiBegin p => discard (Begin p)
  | ApiBeginTx p ctx opts => discard (BeginTx p ctx opts)
  | ApiExec p q args => discard (Exec p q args)
  | ApiExecContext p ctx q args => discard (ExecContext p ctx q args)
  | ApiPing p sch => discard (Ping p sch)
  | ApiPingContext p sch ctx => discard (PingContext p sch ctx)
  | ApiPrepare p sch q => discard (Prepare p sch q)
  | ApiPrepareContext p sch ctx q => discard (PrepareContext p sch ctx q)
  | ApiQuery p q args => discard (Query p q args)
  | ApiQueryContext p ctx q args => discard (QueryContext p ctx q args)
  | ApiQueryRow p q args => discard (QueryRow p q args)
  | ApiQueryRowContext p ctx q args => discard (QueryRowContext p ctx q args)
  | ApiSetMaxIdleConns p n => SetMaxIdleConns p n
  | ApiSetMaxOpenConns p n => SetMaxOpenConns p n
  | ApiSetConnMaxLifetime p t => SetConnMaxLifetime p t
  | ApiSetConnMaxIdleTime p t => SetConnMaxIdleTime p t
  | ApiReadOnly p => discard (ReadOnly p)
  | ApiReadWrite p => discard (ReadWrite p)
  | ApiStmtClose s sch => discard (stmt_Close s sch)
  | ApiStmtExec s args => discard (stmt_Exec s args)
  | ApiStmtExecContext s ctx args => discard (stmt_ExecContext s ctx args)
  | ApiStmtQuery s args => discard (stmt_Query s args)
  | ApiStmtQueryContext s ctx args => discard (stmt_QueryContext s ctx args)
  | ApiStmtQueryRow s args => discard (stmt_QueryRow s args)
  | ApiStmtQueryRowContext s ctx args => discard (stmt_QueryRowContext s ctx args)
  end.

(** A client program: a sequence of requests. *)
Fixpoint run_apis (l : list ApiCall) : M World unit :=
  match l with
  | [] => ret tt
  | a :: rest => run_api a ;;; run_apis rest
  end.

End Router.

(** * Specification vocabulary *)

(** ** Weakest preconditions: total ([wp]) and up to panics ([wlp]) *)

Definition wp {S A} (m : M S A) (Q : A -> S -> Prop) (s : S) : Prop :=
  match m s with
  | Ok a s' => Q a s'
  | Panic _ => False
  end.

Definition wlp {S A} (m : M S A) (Q : A -> S -> Prop) (s : S) : Prop :=
  match m s with
  | Ok a s' => Q a s'
  | Panic _ => True
  end.

(** ** The fan-out executor under observation

    [observed fn] behaves as [fn] and moreover records, in evaluation
    order, each index at which it was called with the value returned. *)

Definition observed {S} (fn : Z -> M S (option Err)) (i : Z)
  : M (S * list (Z * option Err)) (option Err) :=
  fun st => match fn i (fst st) with
            | Ok e s' => Ok e (s', snd st ++ [(i, e)])
            | Panic msg => Panic msg
            end.

(** The last non-nil value of a sequence of received values. *)
Definition last_error (received : list (option Err)) : option Err :=
  last (omap id received).


(** ** Sample data used to exercise the statements *)

(** A driver that always succeeds and hands out the handle [7]. *)
Definition steady_driver : Oracle := fun _ _ => Done 7.

(** A driver that refuses every call on handle [12] and otherwise hands
    out a handle numbered after the length of the log. *)
Definition flaky_driver : Oracle :=
  fun past c =>
    match c with
    | DBCall 12%nat _ => Fail "replica down"
    | _ => Done (100 + length past)
    end.

Definition empty_world : World := {| heap := ∅; log := [] |}.

Definition sample_sched : Sched := {| launch := [2; 0; 5]%nat; deliver := [1; 1]%nat |}.

(** A per-index operation that fails at indices 1 and 2. *)
Definition sample_fn (i : Z) : M unit (option Err) :=
  if i =? 1 then ret (Some "one failed")
  else if i =? 2 then ret (Some "two failed")
  else ret None.

(** ** Invariants of connection sets and statements *)

(** The number of connections is one more than the number of replicas. *)
Definition conn_inv (d : DBImplementation) : Prop :=
  totalConnections d = 1 + len (readOnlyDBs d).

(** The counter is a [uint64]. *)
Definition count_inv (d : DBImplementation) : Prop :=
  0 <= readOnlyCount d < uint64_modulus.

(** [s] is a statement of the connection set [d] stored at [p]. *)
Definition stmt_inv (p : nat) (d : DBImplementation) (s : stmt) : Prop :=
  db s = p /\ length (rostmts s) = length (readOnlyDBs d).

(** The store after one more read was routed through [p]. *)
Definition counted (p : nat) (d : DBImplementation) (w : World) : World :=
  {| heap := <[p := set_readOnlyCount (AddUint64 (readOnlyCount d) 1) d]> (heap w);
     log := log w |}.

(** [k] consecutive evaluations of [m]. *)
Fixpoint repeat_call {S A} (k : nat) (m : M S A) : M S (list A) :=
  match k with
  | O => ret []
  | S k' => x <- m ;; xs <- repeat_call k' m ;; ret (x :: xs)
  end.

(** Three replicas and a counter about to wrap. *)
Definition wrap_db (c : Z) : DBImplementation :=
  {| readWriteDB := 10%nat;
     readOnlyDBs := [11; 12; 13]%nat;
     totalConnections := 4;
     readOnlyCount := c |}.

Definition wrap_world (c : Z) : World :=
  {| heap := {[ 0%nat := wrap_db c ]}; log := [] |}.

Definition wrap_stmt : stmt :=
  {| db := 0%nat; rwstmt := 20%nat; rostmts := [21; 22; 23]%nat |}.

(** A primary alone. *)
Definition solo_db : DBImplementation :=
  {| readWriteDB := 10%nat;
     readOnlyDBs := [];
     totalConnections := 1;
     readOnlyCount := 5 |}.

Definition solo_world : World :=
  {| heap := {[ 0%nat := solo_db ]}; log := [] |}.

Definition solo_stmt : stmt :=
  {| db := 0%nat; rwstmt := 20%nat; rostmts := [] |}.

(** ** How requests may change the store *)

(** [m] leaves the component [proj] of the state as it found it. *)
Definition steady_on {S H A} (proj : S -> H) (m : M S A) : Prop :=
  forall s, wlp m (fun _ s' => proj s' = proj s) s.

(** From [h] to [h'] every connection set kept its handles and its size,
    and its counter either stayed or advanced by one fetch-and-add. *)
Definition counter_step (h h' : gmap nat DBImplementation) : Prop :=
  forall p d, h !! p = Some d ->
    exists c, h' !! p = Some (set_readOnlyCount c d) /\
              (c = readOnlyCount d \/ c = AddUint64 (readOnlyCount d) 1).

(** From [h] to [h'] every connection set kept its handles and its size. *)
Definition same_conns (h h' : gmap nat DBImplementation) : Prop :=
  forall p d, h !! p = Some d ->
    exists c, h' !! p = Some (set_readOnlyCount c d).

(** [m] changes the store by at most one step of one counter. *)
Definition counting {A} (m : M World A) : Prop :=
  forall w, wlp m (fun _ w' => counter_step (heap w) (heap w')) w.

(** ** Calls and events of a fan-out *)

(** The connections of a set in index order: the primary, then the
    replicas. *)
Definition connections (d : DBImplementation) : list SqlDB :=
  readWriteDB d :: readOnlyDBs d.

(** The prepared handles of a statement in index order. *)
Definition handles (s : stmt) : list SqlStmt := rwstmt s :: rostmts s.

(** The shape shared by [Close], [Ping] and [PingContext]: the method
    [op] called once on every connection. *)
Definition each_connection (drv : Oracle) (p : nat) (sch : Sched) (op : DBOp)
  : M World (option Err) :=
  d <- load p ;;
  doConcurrent sch (totalConnections d) (fun i =>
    if i =? 0 then
      d0 <- load p ;; call_error drv (DBCall (readWriteDB d0) op)
    else
      d0 <- load p ;;
      h <- index (readOnlyDBs d0) (i - 1) ;;
      call_error drv (DBCall h op)).

(** The handle [h] is the primary of the connection set stored at [p]. *)
Definition primary_at (p : nat) (h : SqlDB) (w : World) : Prop :=
  exists d, heap w !! p = Some d /\ readWriteDB d = h.

(** The state in which a computation ends; the given state if it panics. *)
Definition final_state {S A} (m : M S A) (s : S) : S :=
  match m s with
  | Ok _ s' => s'
  | Panic _ => s
  end.

(** A short client program over the connection set at address [0]. *)
Definition sample_program : list ApiCall :=
  [ApiReadOnly 0; ApiExec 0 "UPDATE t SET x = 1" []; ApiQuery 0 "SELECT x FROM t" [];
   ApiStmtQuery wrap_stmt [VInt 1]; ApiSetMaxOpenConns 0 8;
   ApiPing 0 sample_sched].

(** What a run of [Prepare] or [PrepareContext] with the driver method
    [op] leaves behind: the store is as before, the log has grown by one
    call of [op] on every connection, and the result is either an error
    that some call was answered with, and no statement, or a statement
    that holds, position by position, the handles the calls returned. *)
Definition prepare_outcome (p : nat) (d : DBImplementation) (op : DBOp)
    (w : World) (res : option stmt * option Err) (w' : World) : Prop :=
  heap w' = heap w /\
  exists evs,
    log w' = log w ++ evs /\
    ev_call <$> evs ≡ₚ (fun h => DBCall h op) <$> connections d /\
    (is_Some (snd res) <-> exists ev, ev ∈ evs /\ reply_failed (ev_reply ev)) /\
    (forall e, snd res = Some e ->
       fst res = None /\ exists ev, ev ∈ evs /\ ev_reply ev = Fail e) /\
    (snd res = None ->
       exists s, fst res = Some s /\
                 db s = p /\
                 length (rostmts s) = length (readOnlyDBs d) /\
                 evs ≡ₚ zip_with (fun h st => Build_Event (DBCall h op) (Done st))
                                 (connections d) (handles s)).

(** A connection set that breaks the invariant: three connections
    announced, one replica present. *)
Definition broken_db : DBImplementation :=
  {| readWriteDB := 10%nat;
     readOnlyDBs := [11%nat];
     totalConnections := 3;
     readOnlyCount := 0 |}.

Definition broken_world : World :=
  {| heap := {[ 0%nat := broken_db ]}; log := [] |}.

(** * Further specification vocabulary *)

(** What a fan-out of single calls leaves behind: the store is as before;
    the log has grown by one event per target, in some order; the result
    is nil exactly when no call failed, is otherwise the error of a failed
    call, and is in any case the last non-nil error in arrival order. *)
Definition fanout_outcome (targets : list Call) (sch : Sched) (w : World)
    (res : option Err) (w' : World) : Prop :=
  heap w' = heap w /\
  exists evs,
    log w' = log w ++ evs /\
    ev_call <$> evs ≡ₚ targets /\
    (res = None <-> Forall (fun ev => reply_err (ev_reply ev) = None) evs) /\
    (forall e, res = Some e -> exists ev, ev ∈ evs /\ ev_reply ev = Fail e) /\
    res = last_error (pick_order (deliver sch) (reply_err <$> (ev_reply <$> evs))).

(** The same world with another log. *)
Definition with_log (lg : list Event) (w : World) : World :=
  {| heap := heap w; log := lg |}.

(** The requests that route a read. *)
Definition is_read (a : ApiCall) : bool :=
  match a with
  | ApiQuery _ _ _ | ApiQueryContext _ _ _ _
  | ApiQueryRow _ _ _ | ApiQueryRowContext _ _ _ _
  | ApiReadOnly _
  | ApiStmtQuery _ _ | ApiStmtQueryContext _ _ _
  | ApiStmtQueryRow _ _ | ApiStmtQueryRowContext _ _ _ => true
  | _ => false
  end.

(** The requests that take a turn of the rotation of the connection set
    at [p]: a read of that set, or a read of a statement that points to it
    and has replica handles. *)
Definition takes_turn (p : nat) (a : ApiCall) : bool :=
  match a with
  | ApiQuery q _ _ | ApiQueryContext q _ _ _
  | ApiQueryRow q _ _ | ApiQueryRowContext q _ _ _
  | ApiReadOnly q => bool_decide (q = p)
  | ApiStmtQuery s _ | ApiStmtQueryContext s _ _
  | ApiStmtQueryRow s _ | ApiStmtQueryRowContext s _ _ =>
      bool_decide (db s = p) && negb (len (rostmts s) =? 0)
  | _ => false
  end.

(** How many requests of a program take a turn at [p]. *)
Definition turns (p : nat) (l : list ApiCall) : nat :=
  length (filter (fun a => takes_turn p a = true) l).

(** The number of occurrences of a character in a string. *)
Fixpoint count_char (c : ascii) (s : string) : nat :=
  match s with
  | EmptyString => 0
  | String c' rest =>
      ((if Ascii.eqb c' c then 1 else 0) + count_char c rest)%nat
  end.

(** [strings.Join(l, sep)] for a one-byte separator. *)
Fixpoint strings_Join (l : list string) (sep : ascii) : string :=
  match l with
  | [] => EmptyString
  | [piece] => piece
  | piece :: rest => (piece ++ String sep (strings_Join rest sep))%string
  end.

(** The handle that an event handed out. *)
Definition ev_handle (ev : Event) : nat := reply_handle (ev_reply ev).

(** The zero value of the struct, stored at address [0]. *)
Definition zero_db : DBImplementation :=
  {| readWriteDB := nil_handle;
     readOnlyDBs := [];
     totalConnections := 0;
     readOnlyCount := 0 |}.

Definition zero_world : World :=
  {| heap := {[ 0%nat := zero_db ]}; log := [] |}.

(** ** The earlier [Open]

    The file of the package that holds only [Open], [Close] and [Driver]
    has an [Open] of its own.  Its closure leaves the replica's place
    alone when [sql.Open] fails, and the function returns the connection
    set together with the error. *)

Module Part001.
Section Opening.

Variable drv : Oracle.

Definition Open (sch : Sched) (driverName dataSourceName : string)
  : M World (option nat * option Err) :=
  let conns := strings_Split dataSourceName ";" in
  ros <- make_slice (len conns - 1) nil_handle ;;
  p <- alloc {| readWriteDB := nil_handle;
                readOnlyDBs := ros;
                totalConnections := len conns;
                readOnlyCount := 0 |} ;;
  d <- load p ;;
  err <- doConcurrent sch (totalConnections d) (fun i =>
    if i =? 0 then
      dsn <- index conns i ;;
      r <- call_handle drv (OpenCall driverName dsn) ;;
      d0 <- load p ;;
      store p (set_readWriteDB (fst r) d0) ;;;
      ret (snd r)
    else
      dsn <- index conns i ;;
      r <- call_handle drv (OpenCall driverName dsn) ;;
      match snd r with
      | Some e => ret (Some e)
      | None =>
          d0 <- load p ;;
          ros <- set_index (readOnlyDBs d0) (i - 1) (fst r) ;;
          store p (set_readOnlyDBs ros d0) ;;;
          ret (snd r)
      end) ;;
  ret (Some p, err).

End Opening.
End Part001.

(** What [Part001.Open] returns where [Open] returns [res]: the same
    error, with the connection set in any case. *)
Definition with_the_set (p : nat) (res : option nat * option Err)
  : option nat * option Err :=
  (Some p, snd res).

(** The places of the goroutines still to run are nil. *)
Definition places_pending (p : nat) (n : nat) (rest : list nat) (w : World) : Prop :=
  exists d,
    heap w !! p = Some d /\
    length (readOnlyDBs d) = (n - 1)%nat /\
    forall j, Datatypes.S j ∈ rest ->
              (Datatypes.S j < n)%nat /\ readOnlyDBs d !! j = Some nil_handle.


(** * Reasoning principles *)

Lemma wp_ok {S A} (m : M S A) Q s :
  wp m Q s <-> exists a s', m s = Ok a s' /\ Q a s'.
Proof.
  unfold wp. destruct (m s) as [a s'|msg]; split.
  - eauto.
  - intros (a0 & s0 & Heq & HQ). by inversion Heq; subst.
  - done.
  - intros (a0 & s0 & Heq & _). discriminate.
Qed.

Lemma wlp_ok {S A} (m : M S A) Q s :
  wlp m Q s <-> forall a s', m s = Ok a s' -> Q a s'.
Proof.
  unfold wlp. destruct (m s) as [a s'|msg]; split; try done.
  - intros HQ a0 s0 Heq. by inversion Heq; subst.
  - intros H. by apply H.
Qed.

Lemma wp_wlp {S A} (m : M S A) Q s : wp m Q s -> wlp m Q s.
Proof. unfold wp, wlp. by destruct (m s). Qed.

Lemma wp_ret {S A} (a : A) (Q : A -> S -> Prop) s : Q a s -> wp (ret a) Q s.
Proof. done. Qed.

Lemma wp_bind {S A B} (m : M S A) (k : A -> M S B) Q s :
  wp m (fun a s' => wp (k a) Q s') s -> wp (bind m k) Q s.
Proof. unfold wp, bind. by destruct (m s). Qed.

Lemma wp_mono {S A} (m : M S A) (Q Q' : A -> S -> Prop) s :
  wp m Q s -> (forall a s', Q a s' -> Q' a s') -> wp m Q' s.
Proof. unfold wp. destruct (m s); [|done]. intros HQ HQQ. by apply HQQ. Qed.

Lemma wlp_ret {S A} (a : A) (Q : A -> S -> Prop) s : Q a s -> wlp (ret a) Q s.
Proof. done. Qed.

Lemma wlp_panic {S A} msg (Q : A -> S -> Prop) s : wlp (panic msg) Q s.
Proof. done. Qed.

Lemma wlp_bind {S A B} (m : M S A) (k : A -> M S B) Q s :
  wlp m (fun a s' => wlp (k a) Q s') s -> wlp (bind m k) Q s.
Proof. unfold wlp, bind. by destruct (m s). Qed.

Lemma wlp_mono {S A} (m : M S A) (Q Q' : A -> S -> Prop) s :
  wlp m Q s -> (forall a s', Q a s' -> Q' a s') -> wlp m Q' s.
Proof. unfold wlp. destruct (m s); [|done]. intros HQ HQQ. by apply HQQ. Qed.

Lemma bind_Ok {S A B} (m : M S A) (k : A -> M S B) s b s2 :
  bind m k s = Ok b s2 <-> exists a s1, m s = Ok a s1 /\ k a s1 = Ok b s2.
Proof.
  unfold bind. destruct (m s) as [a s1|msg]; split.
  - eauto.
  - intros (a0 & s0 & Heq & Hk). by inversion Heq; subst.
  - done.
  - intros (a0 & s0 & Heq & _). discriminate.
Qed.

(** ** Lists, bounds and schedules *)

Lemma len_nonneg {A} (l : list A) : 0 <= len l.
Proof. unfold len. lia. Qed.

Lemma in_range_spec {A} (l : list A) i :
  in_range l i = true <-> 0 <= i < len l.
Proof. unfold in_range. rewrite andb_true_iff, Z.leb_le, Z.ltb_lt. done. Qed.

Lemma index_Ok {S A} (l : list A) i x (s : S) :
  0 <= i -> l !! Z.to_nat i = Some x -> index l i s = Ok x s.
Proof.
  intros Hi Hx. unfold index.
  assert (in_range l i = true) as ->.
  { apply in_range_spec. apply lookup_lt_Some in Hx. unfold len. lia. }
  by rewrite Hx.
Qed.

Lemma index_inv {S A} (l : list A) i x (s s' : S) :
  index l i s = Ok x s' -> s' = s /\ 0 <= i < len l /\ l !! Z.to_nat i = Some x.
Proof.
  unfold index. destruct (in_range l i) eqn:Hr; [|done].
  apply in_range_spec in Hr.
  destruct (l !! Z.to_nat i) eqn:Hx; [|done].
  intros Heq. by inversion Heq; subst.
Qed.

Lemma set_index_Ok {S A} (l : list A) i x (s : S) :
  0 <= i < len l -> set_index l i x s = Ok (<[Z.to_nat i := x]> l) s.
Proof.
  intros Hi. unfold set_index.
  by assert (in_range l i = true) as -> by by apply in_range_spec.
Qed.

Lemma pick_order_perm {A} (choices : list nat) (pending : list A) :
  pick_order choices pending ≡ₚ pending.
Proof.
  revert pending. induction choices as [|c cs IH]; intros pending; simpl.
  - done.
  - destruct (pending !! (c mod length pending)%nat) as [x|] eqn:Hx.
    + rewrite IH. symmetry. by apply delete_Permutation.
    + destruct pending as [|y pending]; [done|].
      apply lookup_ge_None in Hx.
      pose proof (Nat.mod_upper_bound c (length (y :: pending))) as Hlt.
      simpl in *. lia.
Qed.

(** The collecting loop returns the last non-nil value it received. *)
Lemma collect_last (received : list (option Err)) :
  collect received = last (omap id received).
Proof.
  unfold collect.
  enough (forall acc,
    fold_left (fun err e => match e with Some _ => e | None => err end)
              received acc
    = match last (omap id received) with Some e => Some e | None => acc end)
    as H.
  { rewrite H. by destruct (last _). }
  induction received as [|e rest IH]; intros acc; simpl; [done|].
  rewrite IH. destruct e as [e|]; simpl; [|done].
  change (list_omap _ _ id rest) with (omap id rest).
  rewrite last_cons. by destruct (last (omap id rest)).
Qed.

Lemma collect_None (received : list (option Err)) :
  collect received = None <-> Forall (fun e => e = None) received.
Proof.
  rewrite collect_last, last_None.
  induction received as [|e rest IH]; simpl.
  - split; [by constructor|done].
  - destruct e as [e|]; simpl.
    + split; [done|]. intros H. by inversion H.
    + rewrite IH. split; [by constructor|]. intros H. by inversion H.
Qed.

Lemma collect_Some (received : list (option Err)) e :
  collect received = Some e -> Some e ∈ received.
Proof.
  rewrite collect_last, last_Some. intros [l' Hl'].
  assert (e ∈ omap id received) as Hin.
  { rewrite Hl'. apply elem_of_app. right. by apply list_elem_of_singleton. }
  apply list_elem_of_omap in Hin as (o & Ho & Hid). simpl in Hid. by subst.
Qed.

(** ** Rules for the fan-out executor *)

(** A fan-out keeps every property that each evaluation of [fn] keeps. *)
Lemma run_goroutines_wlp {S} (fn : Z -> M S (option Err)) (P : S -> Prop)
    order s :
  P s ->
  (forall i s0, P s0 -> wlp (fn i) (fun _ s' => P s') s0) ->
  wlp (run_goroutines fn order) (fun _ s' => P s') s.
Proof.
  intros HP Hfn. revert s HP.
  induction order as [|i rest IH]; intros s HP; simpl.
  - by apply wlp_ret.
  - apply wlp_bind. eapply wlp_mono; [by apply Hfn|].
    intros e s1 HP1. apply wlp_bind.
    eapply wlp_mono; [by apply IH|].
    intros es s2 HP2. by apply wlp_ret.
Qed.

Lemma doConcurrent_wlp {S} sch n (fn : Z -> M S (option Err)) (P : S -> Prop) s :
  P s ->
  (forall i s0, P s0 -> wlp (fn i) (fun _ s' => P s') s0) ->
  wlp (doConcurrent sch n fn) (fun _ s' => P s') s.
Proof.
  intros HP Hfn. unfold doConcurrent.
  destruct (n <? 0); [apply wlp_panic|].
  apply wlp_bind. eapply wlp_mono; [by apply run_goroutines_wlp|].
  intros sent s1 HP1. by apply wlp_ret.
Qed.

(** The invariant rule: [I done sent s] relates the goroutines that have
    run, the values they sent and the state. *)
Lemma run_goroutines_wp_from {S} (fn : Z -> M S (option Err))
    (I : list nat -> list (option Err) -> S -> Prop) done sent0 rest s :
  NoDup (done ++ rest) ->
  I done sent0 s ->
  (forall done sent i s0,
      i ∈ rest -> i ∉ done -> I done sent s0 ->
      wp (fn (Z.of_nat i)) (fun e s' => I (done ++ [i]) (sent ++ [e]) s') s0) ->
  wp (run_goroutines fn rest)
     (fun sent s' => I (done ++ rest) (sent0 ++ sent) s') s.
Proof.
  revert done sent0 s.
  induction rest as [|i rest IH]; intros done sent0 s Hnd HI Hstep; simpl.
  - apply wp_ret. by rewrite !app_nil_r.
  - apply wp_bind.
    assert (i ∉ done) as Hi.
    { apply NoDup_app in Hnd as (_ & Hdis & _). intros Hin.
      apply (Hdis i Hin). by left. }
    eapply wp_mono; [apply (Hstep done sent0 i s); [by left|done|done]|].
    intros e s1 HI1. apply wp_bind.
    eapply wp_mono.
    { apply (IH (done ++ [i]) (sent0 ++ [e]) s1).
      - by rewrite <- app_assoc.
      - done.
      - intros done' sent' j s0 Hj. apply Hstep. by right. }
    intros es s2 HI2. apply wp_ret. simpl.
    by rewrite <- !app_assoc in HI2.
Qed.

Lemma doConcurrent_wp {S} sch n (fn : Z -> M S (option Err))
    (I : list nat -> list (option Err) -> S -> Prop) s :
  0 <= n ->
  I [] [] s ->
  (forall done sent i s0,
      (i < Z.to_nat n)%nat -> i ∉ done -> I done sent s0 ->
      wp (fn (Z.of_nat i)) (fun e s' => I (done ++ [i]) (sent ++ [e]) s') s0) ->
  wp (doConcurrent sch n fn)
     (fun r s' => exists order sent,
          order ≡ₚ seq 0 (Z.to_nat n) /\ I order sent s' /\
          r = collect (pick_order (deliver sch) sent)) s.
Proof.
  intros Hn HI Hstep. unfold doConcurrent.
  assert ((n <? 0) = false) as -> by lia.
  set (order := pick_order (launch sch) (seq 0 (Z.to_nat n))).
  assert (order ≡ₚ seq 0 (Z.to_nat n)) as Hperm by apply pick_order_perm.
  apply wp_bind. eapply wp_mono.
  { apply (run_goroutines_wp_from fn I [] [] order s).
    - simpl. rewrite Hperm. apply NoDup_seq.
    - done.
    - intros done sent i s0 Hi. apply Hstep.
      rewrite Hperm in Hi. apply elem_of_seq in Hi. lia. }
  intros sent s1 HI1. apply wp_ret. exists order, sent. done.
Qed.

Lemma run_goroutines_observed {S} (fn : Z -> M S (option Err)) order :
  (forall i s, i ∈ order -> exists e s', fn (Z.of_nat i) s = Ok e s') ->
  forall s tr, exists sent s',
    run_goroutines fn order s = Ok sent s' /\
    run_goroutines (observed fn) order (s, tr)
      = Ok sent (s', tr ++ zip (Z.of_nat <$> order) sent) /\
    length sent = length order.
Proof.
  induction order as [|i rest IH]; intros Htot s tr; simpl.
  - exists [], s. by rewrite app_nil_r.
  - destruct (Htot i s) as (e & s1 & He); [by left|].
    destruct (IH (fun j s0 Hj => Htot j s0 (list_elem_of_further _ _ _ Hj))
                 s1 (tr ++ [(Z.of_nat i, e)])) as (es & s2 & Hrun & Hobs & Hlen).
    exists (e :: es), s2. unfold bind, observed at 1. simpl.
    rewrite He, Hrun, Hobs. simpl. rewrite <- app_assoc. simpl.
    by rewrite Hlen.
Qed.

(** [lia] up to the names of the handle types. *)
Ltac handle_lia := try unfold SqlStmt in *; try unfold SqlDB in *; lia.

(** ** Machine integers *)

Lemma uint64_of_int_small n : 0 <= n < uint64_modulus -> uint64_of_int n = n.
Proof. intros Hn. unfold uint64_of_int. by apply Z.mod_small. Qed.

Lemma int_of_uint64_small x : x < 2 ^ 63 -> int_of_uint64 x = x.
Proof. intros Hx. unfold int_of_uint64. by assert ((x <? 2 ^ 63) = true) as -> by lia. Qed.

Lemma AddUint64_range c : 0 <= AddUint64 c 1 < uint64_modulus.
Proof. unfold AddUint64. apply Z.mod_pos_bound. by compute. Qed.

Lemma AddUint64_small c : 0 <= c -> c + 1 < uint64_modulus -> AddUint64 c 1 = c + 1.
Proof. intros H0 H1. unfold AddUint64. apply Z.mod_small. lia. Qed.

Lemma max_int_lt_modulus : max_int < uint64_modulus.
Proof. by compute. Qed.

(** ** The round-robin selection *)

Lemma roundRobin_Ok p d w n :
  heap w !! p = Some d -> 1 <= n <= max_int ->
  roundRobin p n w = Ok (AddUint64 (readOnlyCount d) 1 mod n) (counted p d w).
Proof.
  intros Hp Hn. unfold roundRobin, bind, load, store. rewrite Hp. simpl.
  pose proof max_int_lt_modulus as Hmax.
  rewrite uint64_of_int_small by lia.
  assert ((n =? 0) = false) as -> by lia.
  unfold ret. f_equal.
  apply int_of_uint64_small.
  pose proof (Z.mod_pos_bound (AddUint64 (readOnlyCount d) 1) n).
  unfold max_int in *. lia.
Qed.

Lemma counted_lookup p d w :
  heap (counted p d w) !! p
  = Some (set_readOnlyCount (AddUint64 (readOnlyCount d) 1) d).
Proof. unfold counted. simpl. apply lookup_insert_eq. Qed.

Lemma lookup_mod_Some {A} (l : list A) (x : Z) :
  1 <= len l -> is_Some (l !! Z.to_nat (x mod len l)).
Proof.
  intros Hl. apply lookup_lt_is_Some.
  pose proof (Z.mod_pos_bound x (len l)). unfold len in *. lia.
Qed.

Lemma ReadOnly_Ok p d w :
  heap w !! p = Some d -> conn_inv d -> 1 <= len (readOnlyDBs d) <= max_int ->
  exists h,
    readOnlyDBs d
      !! Z.to_nat (AddUint64 (readOnlyCount d) 1 mod len (readOnlyDBs d)) = Some h /\
    ReadOnly p w = Ok h (counted p d w).
Proof.
  intros Hp Hinv HR.
  destruct (lookup_mod_Some (readOnlyDBs d) (AddUint64 (readOnlyCount d) 1))
    as [h Hh]; [lia|].
  exists h. split; [done|].
  unfold ReadOnly, bind. unfold load at 1. rewrite Hp.
  red in Hinv. assert ((totalConnections d =? 1) = false) as -> by lia.
  rewrite (roundRobin_Ok p d w) by done.
  apply index_Ok; [|done].
  pose proof (Z.mod_pos_bound (AddUint64 (readOnlyCount d) 1) (len (readOnlyDBs d))).
  lia.
Qed.

Lemma ReadOnly_primary p d w :
  heap w !! p = Some d -> totalConnections d = 1 ->
  ReadOnly p w = Ok (readWriteDB d) w.
Proof.
  intros Hp Ht. unfold ReadOnly, bind, load. rewrite Hp.
  by assert ((totalConnections d =? 1) = true) as -> by lia.
Qed.

Lemma ROStmt_Ok p d s w :
  heap w !! p = Some d -> db s = p -> 1 <= len (rostmts s) <= max_int ->
  exists h,
    rostmts s
      !! Z.to_nat (AddUint64 (readOnlyCount d) 1 mod len (rostmts s)) = Some h /\
    ROStmt s w = Ok h (counted p d w).
Proof.
  intros Hp Hdb HR.
  destruct (lookup_mod_Some (rostmts s) (AddUint64 (readOnlyCount d) 1))
    as [h Hh]; [lia|].
  exists h. split; [done|].
  unfold ROStmt, bind.
  assert ((len (rostmts s) =? 0) = false) as -> by lia.
  rewrite Hdb, (roundRobin_Ok p d w) by done.
  apply index_Ok; [|done].
  pose proof (Z.mod_pos_bound (AddUint64 (readOnlyCount d) 1) (len (rostmts s))).
  lia.
Qed.

Lemma ROStmt_primary s w :
  rostmts s = [] -> ROStmt s w = Ok (rwstmt s) w.
Proof. intros Hs. unfold ROStmt. by rewrite Hs. Qed.

(** Adding the positions of a window to a base value and reducing modulo
    the length of the window enumerates every residue once. *)
Lemma rotation_Permutation (a : Z) (k : nat) :
  (fun j : nat => Z.to_nat ((a + Z.of_nat j) mod Z.of_nat k)) <$> seq 0 k
  ≡ₚ seq 0 k.
Proof.
  destruct k as [|k]; [done|].
  set (R := Z.of_nat (S k)). assert (0 < R) as HR by (unfold R; lia).
  apply NoDup_Permutation.
  - apply NoDup_fmap_2_strong; [|apply NoDup_seq].
    intros x y Hx Hy Heq.
    apply elem_of_seq in Hx. apply elem_of_seq in Hy.
    pose proof (Z.mod_pos_bound (a + Z.of_nat x) R HR) as Hbx.
    pose proof (Z.mod_pos_bound (a + Z.of_nat y) R HR) as Hby.
    apply Z2Nat.inj in Heq; [|lia|lia].
    pose proof (Z.div_mod (a + Z.of_nat x) R) as Hdx.
    pose proof (Z.div_mod (a + Z.of_nat y) R) as Hdy.
    rewrite Heq in Hdx.
    assert (Z.of_nat x - Z.of_nat y
            = R * ((a + Z.of_nat x) / R - (a + Z.of_nat y) / R)) as Hdiff by lia.
    assert ((a + Z.of_nat x) / R - (a + Z.of_nat y) / R = 0) by (unfold R in *; nia).
    lia.
  - apply NoDup_seq.
  - intros x. rewrite list_elem_of_fmap, elem_of_seq. split.
    + intros (j & -> & _).
      pose proof (Z.mod_pos_bound (a + Z.of_nat j) R HR). unfold R in *. lia.
    + intros Hx. exists (Z.to_nat ((Z.of_nat x - a) mod R)).
      pose proof (Z.mod_pos_bound (Z.of_nat x - a) R HR) as Hb.
      split.
      * rewrite Z2Nat.id by lia. fold R.
        rewrite Zplus_mod_idemp_r.
        replace (a + (Z.of_nat x - a)) with (Z.of_nat x) by lia.
        rewrite Z.mod_small by (unfold R; lia). lia.
      * apply elem_of_seq. unfold R in *. lia.
Qed.

Lemma lookup_total_fmap_seq {T} `{!Inhabited T} (l : list T) :
  (fun i => l !!! i) <$> seq 0 (length l) = l.
Proof.
  apply list_eq. intros i. rewrite list_lookup_fmap.
  destruct (decide (i < length l)%nat) as [Hi|Hi].
  - rewrite lookup_seq_lt by done. simpl. symmetry.
    by apply list_lookup_lookup_total_lt.
  - rewrite lookup_seq_ge by lia. simpl. symmetry.
    apply lookup_ge_None_2. lia.
Qed.

Lemma set_readOnlyCount_twice c1 c2 d :
  set_readOnlyCount c2 (set_readOnlyCount c1 d) = set_readOnlyCount c2 d.
Proof. done. Qed.

Lemma set_readOnlyCount_same d : set_readOnlyCount (readOnlyCount d) d = d.
Proof. by destruct d. Qed.

(** [k] consecutive reads from counter value [c], none of which wraps. *)
Lemma ReadOnly_repeat (k : nat) : forall p d w,
  heap w !! p = Some d -> conn_inv d -> 1 <= len (readOnlyDBs d) <= max_int ->
  0 <= readOnlyCount d -> readOnlyCount d + Z.of_nat k < uint64_modulus ->
  exists hs w',
    repeat_call k (ReadOnly p) w = Ok hs w' /\
    length hs = k /\
    (forall j, (j < k)%nat ->
       hs !! j = readOnlyDBs d
                   !! Z.to_nat ((readOnlyCount d + 1 + Z.of_nat j)
                                  mod len (readOnlyDBs d))) /\
    heap w' = <[p := set_readOnlyCount (readOnlyCount d + Z.of_nat k) d]> (heap w) /\
    log w' = log w.
Proof.
  induction k as [|k IH]; intros p d w Hp Hinv HR Hc0 Hck; simpl.
  - exists [], w. split; [done|]. split; [done|]. split; [lia|].
    split; [|done]. by rewrite Z.add_0_r, set_readOnlyCount_same, insert_id.
  - destruct (ReadOnly_Ok p d w Hp Hinv HR) as (h & Hh & Hread).
    rewrite AddUint64_small in Hh by lia.
    destruct (IH p (set_readOnlyCount (AddUint64 (readOnlyCount d) 1) d)
                 (counted p d w)) as (hs & w' & Hrun & Hlen & Hsel & Hheap & Hlog).
    { apply counted_lookup. }
    { done. }
    { done. }
    { simpl. pose proof (AddUint64_range (readOnlyCount d)). lia. }
    { simpl. rewrite AddUint64_small by lia. lia. }
    simpl in Hsel, Hheap. rewrite AddUint64_small in Hsel, Hheap by lia.
    exists (h :: hs), w'. unfold bind. rewrite Hread, Hrun. simpl.
    split; [done|]. split; [by rewrite Hlen|]. split; [|split].
    + intros [|j] Hj; simpl.
      * by rewrite Z.add_0_r.
      * rewrite Hsel by lia. do 3 f_equal. lia.
    + rewrite Hheap, set_readOnlyCount_twice. cbn [heap counted].
      rewrite insert_insert_eq. do 2 f_equal. lia.
    + done.
Qed.

(** ** Computations that leave the store alone *)

Section Steady.
Context {S H : Type} (proj : S -> H).

Lemma steady_ret {A} (a : A) : steady_on proj (ret a).
Proof. intros s. by apply wlp_ret. Qed.

Lemma steady_panic {A} msg : steady_on proj (@panic S A msg).
Proof. intros s. apply wlp_panic. Qed.

Lemma steady_bind {A B} (m : M S A) (k : A -> M S B) :
  steady_on proj m -> (forall a, steady_on proj (k a)) ->
  steady_on proj (bind m k).
Proof.
  intros Hm Hk s. apply wlp_bind. eapply wlp_mono; [apply Hm|].
  intros a s1 H1. simpl in H1. eapply wlp_mono; [apply Hk|].
  intros b s2 H2. simpl in H2. congruence.
Qed.

Lemma steady_index {A} (l : list A) i : steady_on proj (@index S A l i).
Proof.
  unfold index. destruct (in_range l i); [|apply steady_panic].
  destruct (l !! Z.to_nat i); [apply steady_ret|apply steady_panic].
Qed.

Lemma steady_set_index {A} (l : list A) i x :
  steady_on proj (@set_index S A l i x).
Proof.
  unfold set_index.
  destruct (in_range l i); [apply steady_ret|apply steady_panic].
Qed.

Lemma steady_make_slice {A} n (zero : A) :
  steady_on proj (@make_slice S A n zero).
Proof.
  unfold make_slice. destruct (n <? 0); [apply steady_panic|apply steady_ret].
Qed.

Lemma steady_discard {A} (m : M S A) :
  steady_on proj m -> steady_on proj (discard m).
Proof. intros Hm. apply steady_bind; [done|]. intros _. apply steady_ret. Qed.

Lemma steady_for_each {A} (l : list A) (body : A -> M S unit) :
  (forall x, steady_on proj (body x)) -> steady_on proj (for_each l body).
Proof.
  intros Hbody. induction l as [|x rest IH]; simpl.
  - apply steady_ret.
  - apply steady_bind; [apply Hbody|]. by intros _.
Qed.

Lemma steady_doConcurrent sch n (fn : Z -> M S (option Err)) :
  (forall i, steady_on proj (fn i)) -> steady_on proj (doConcurrent sch n fn).
Proof.
  intros Hfn s.
  apply (doConcurrent_wlp sch n fn (fun s' => proj s' = proj s)); [done|].
  intros i s0 H0. eapply wlp_mono; [apply Hfn|].
  intros e s1 H1. simpl in H1. congruence.
Qed.
End Steady.

Lemma steady_load p : steady_on heap (load p).
Proof. intros w. unfold wlp, load. by destruct (heap w !! p). Qed.

Lemma steady_call drv c : steady_on heap (call drv c).
Proof. by intros w. Qed.

Lemma steady_call_handle drv c : steady_on heap (call_handle drv c).
Proof. by intros w. Qed.

Lemma steady_call_error drv c : steady_on heap (call_error drv c).
Proof. by intros w. Qed.

Lemma steady_call_void drv c : steady_on heap (call_void drv c).
Proof. by intros w. Qed.

Lemma steady_lift_world {L A} (m : M World A) :
  steady_on heap m -> steady_on (fun s : L * World => heap (snd s)) (lift_world m).
Proof.
  intros Hm [l w]. specialize (Hm w). unfold wlp, lift_world in *. simpl.
  by destruct (m w).
Qed.

Lemma steady_get_local {L} :
  steady_on (fun s : L * World => heap (snd s)) get_local.
Proof. by intros s. Qed.

Lemma steady_put_local {L} (l : L) :
  steady_on (fun s : L * World => heap (snd s)) (put_local l).
Proof. by intros s. Qed.

Lemma steady_with_local {L A} (l : L) (m : M (L * World) A) :
  steady_on (fun s : L * World => heap (snd s)) m ->
  steady_on heap (with_local l m).
Proof.
  intros Hm w. specialize (Hm (l, w)). unfold wlp, with_local in *.
  by destruct (m (l, w)).
Qed.

(** One tactic for the routine cases: split binds, branch on tests, and
    close the leaves with the rules above. *)
Ltac steady :=
  repeat first
    [ apply steady_ret | apply steady_panic | apply steady_load
    | apply steady_call | apply steady_call_handle | apply steady_call_error
    | apply steady_call_void | apply steady_index | apply steady_set_index
    | apply steady_make_slice | apply steady_get_local | apply steady_put_local
    | apply steady_bind; [|intros ?]
    | apply steady_discard
    | apply steady_for_each; intros ?
    | apply steady_doConcurrent; intros ?
    | apply steady_lift_world
    | apply steady_with_local
    | match goal with
      | |- steady_on _ (if ?b then _ else _) => destruct b
      | |- steady_on _ (match ?x with Some _ => _ | None => _ end) => destruct x
      end ].

Section SteadyRouter.
Variable drv : Oracle.

Lemma steady_Close p sch : steady_on heap (Close drv p sch).
Proof. unfold Close. steady. Qed.

Lemma steady_Ping p sch : steady_on heap (Ping drv p sch).
Proof. unfold Ping. steady. Qed.

Lemma steady_PingContext p sch ctx : steady_on heap (PingContext drv p sch ctx).
Proof. unfold PingContext. steady. Qed.

Lemma steady_Driver p : steady_on heap (Driver drv p).
Proof. unfold Driver. steady. Qed.

Lemma steady_ReadWrite p : steady_on heap (ReadWrite p).
Proof. unfold ReadWrite. steady. Qed.

Lemma steady_prepare_all p sch op : steady_on heap (prepare_all drv p sch op).
Proof. unfold prepare_all, prepare_on. steady. Qed.

Lemma steady_SetMaxIdleConns p n : steady_on heap (SetMaxIdleConns drv p n).
Proof. unfold SetMaxIdleConns. steady. Qed.

Lemma steady_SetMaxOpenConns p n : steady_on heap (SetMaxOpenConns drv p n).
Proof. unfold SetMaxOpenConns. steady. Qed.

Lemma steady_SetConnMaxLifetime p t : steady_on heap (SetConnMaxLifetime drv p t).
Proof. unfold SetConnMaxLifetime. steady. Qed.

Lemma steady_SetConnMaxIdleTime p t : steady_on heap (SetConnMaxIdleTime drv p t).
Proof. unfold SetConnMaxIdleTime. steady. Qed.

Lemma steady_stmt_Close s sch : steady_on heap (stmt_Close drv s sch).
Proof. unfold stmt_Close. steady. Qed.
End SteadyRouter.

(** ** Computations that advance a counter at most once *)

Lemma counter_step_refl h : counter_step h h.
Proof.
  intros p d Hp. exists (readOnlyCount d).
  rewrite set_readOnlyCount_same. auto.
Qed.

Lemma counter_step_same_conns h h' : counter_step h h' -> same_conns h h'.
Proof. intros Hstep p d Hp. destruct (Hstep p d Hp) as (c & Hc & _). eauto. Qed.

Lemma same_conns_refl h : same_conns h h.
Proof. apply counter_step_same_conns, counter_step_refl. Qed.

Lemma same_conns_trans h1 h2 h3 :
  same_conns h1 h2 -> same_conns h2 h3 -> same_conns h1 h3.
Proof.
  intros H12 H23 p d Hp.
  destruct (H12 p d Hp) as (c & Hc). destruct (H23 p _ Hc) as (c' & Hc').
  exists c'. by rewrite Hc', set_readOnlyCount_twice.
Qed.

Lemma steady_counting {A} (m : M World A) : steady_on heap m -> counting m.
Proof.
  intros Hm w. eapply wlp_mono; [apply Hm|].
  intros a w' Hw. simpl in Hw. rewrite Hw. apply counter_step_refl.
Qed.

Lemma counting_bind_steady {A B} (m : M World A) (k : A -> M World B) :
  counting m -> (forall a, steady_on heap (k a)) -> counting (bind m k).
Proof.
  intros Hm Hk w. apply wlp_bind. eapply wlp_mono; [apply Hm|].
  intros a w1 H1. simpl in H1. eapply wlp_mono; [apply Hk|].
  intros b w2 H2. simpl in H2. by rewrite H2.
Qed.

Lemma steady_bind_counting {A B} (m : M World A) (k : A -> M World B) :
  steady_on heap m -> (forall a, counting (k a)) -> counting (bind m k).
Proof.
  intros Hm Hk w. apply wlp_bind. eapply wlp_mono; [apply Hm|].
  intros a w1 H1. simpl in H1. eapply wlp_mono; [apply Hk|].
  intros b w2 H2. simpl in H2. by rewrite <- H1.
Qed.

Lemma counting_roundRobin p n : counting (roundRobin p n).
Proof.
  intros w. unfold wlp, roundRobin, bind, load, store.
  destruct (heap w !! p) as [d|] eqn:Hp; [|done]. simpl.
  destruct (uint64_of_int n =? 0); [done|]. simpl.
  intros q dq Hq. destruct (decide (q = p)) as [->|Hne].
  - rewrite Hp in Hq. inversion Hq; subst dq.
    exists (AddUint64 (readOnlyCount d) 1). rewrite lookup_insert_eq. auto.
  - exists (readOnlyCount dq). rewrite lookup_insert_ne by done.
    rewrite set_readOnlyCount_same. auto.
Qed.

Lemma counting_ReadOnly p : counting (ReadOnly p).
Proof.
  unfold ReadOnly. apply steady_bind_counting; [apply steady_load|].
  intros d. destruct (totalConnections d =? 1).
  - apply steady_counting, steady_ret.
  - apply counting_bind_steady; [apply counting_roundRobin|].
    intros i. apply steady_index.
Qed.

Lemma counting_ROStmt s : counting (ROStmt s).
Proof.
  unfold ROStmt. destruct (len (rostmts s) =? 0).
  - apply steady_counting, steady_ret.
  - apply counting_bind_steady; [apply counting_roundRobin|].
    intros i. apply steady_index.
Qed.

Lemma counting_run_api drv a : counting (run_api drv a).
Proof.
  destruct a; simpl;
    try (apply steady_counting;
         first [ apply steady_discard | idtac ];
         first [ apply steady_Close | apply steady_Ping | apply steady_PingContext
               | apply steady_Driver | apply steady_ReadWrite
               | apply steady_prepare_all | apply steady_SetMaxIdleConns
               | apply steady_SetMaxOpenConns | apply steady_SetConnMaxLifetime
               | apply steady_SetConnMaxIdleTime | apply steady_stmt_Close
               | (unfold Begin, BeginTx, Exec, ExecContext, stmt_Exec,
                    stmt_ExecContext, RWStmt;
                  apply steady_bind; [first [apply steady_ReadWrite|apply steady_ret]|];
                  intros ?; apply steady_call) ]);
    unfold discard, Query, QueryContext, QueryRow, QueryRowContext,
      stmt_Query, stmt_QueryContext, stmt_QueryRow, stmt_QueryRowContext;
    repeat (apply counting_bind_steady;
            [|intros ?; first [apply steady_ret|apply steady_call]]);
    first [apply counting_ReadOnly|apply counting_ROStmt].
Qed.

Lemma run_apis_same_conns drv l w w' :
  run_apis drv l w = Ok tt w' -> same_conns (heap w) (heap w').
Proof.
  revert w. induction l as [|a rest IH]; intros w; simpl.
  - intros Heq. inversion Heq; subst. apply same_conns_refl.
  - intros Hrun. apply bind_Ok in Hrun as ([] & w1 & Ha & Hrest).
    eapply same_conns_trans; [|by apply IH].
    apply counter_step_same_conns.
    pose proof (counting_run_api drv a w) as Hc.
    unfold wlp in Hc. by rewrite Ha in Hc.
Qed.

(** ** Fan-outs that make one driver call per index

    The shape shared by [Open], [Close], [Ping], [Prepare] and the
    statement's [Close]: goroutine [i] makes the call [callof i], returns
    the error of the reply and may store the handle of the reply in a place
    of its own.  [Slot i r s] says that in state [s] the place of index [i]
    holds the reply [r]; [K] is what every goroutine relies on and keeps. *)

Section FanOutCalls.
Context {S : Type}.
Variable logS : S -> list Event.
Variable callof : nat -> Call.
Variable Slot : nat -> Reply -> S -> Prop.
Variable K : S -> Prop.
Variable n : nat.
Variable fn : Z -> M S (option Err).

Hypothesis fn_step : forall i s, (i < n)%nat -> K s ->
  wp (fn (Z.of_nat i))
     (fun e s' => exists r,
          e = reply_err r /\
          logS s' = logS s ++ [Build_Event (callof i) r] /\
          Slot i r s' /\
          (forall j r', j <> i -> Slot j r' s -> Slot j r' s') /\
          K s') s.

Lemma fanout_calls sch s :
  K s ->
  wp (doConcurrent sch (Z.of_nat n) fn)
     (fun res s' => exists order rs,
          order ≡ₚ seq 0 n /\
          length rs = length order /\
          logS s' = logS s ++ zip_with Build_Event (callof <$> order) rs /\
          res = collect (pick_order (deliver sch) (reply_err <$> rs)) /\
          (forall k i r, order !! k = Some i -> rs !! k = Some r -> Slot i r s') /\
          K s') s.
Proof.
  intros HK.
  eapply wp_mono.
  { apply (doConcurrent_wp sch (Z.of_nat n) fn
             (fun done sent s' =>
                K s' /\
                exists rs,
                  length rs = length done /\
                  sent = reply_err <$> rs /\
                  logS s' = logS s ++ zip_with Build_Event (callof <$> done) rs /\
                  (forall k i r, done !! k = Some i -> rs !! k = Some r ->
                                 Slot i r s'))).
    - lia.
    - split; [done|]. exists []. simpl. rewrite app_nil_r.
      repeat split; done.
    - intros done sent i s0 Hi Hnew (HK0 & rs & Hlen & Hsent & Hlog & Hslots).
      rewrite Nat2Z.id in Hi.
      eapply wp_mono; [by apply fn_step|].
      intros e s1 (r & He & Hlog1 & Hslot & Hkeep & HK1).
      split; [done|]. exists (rs ++ [r]).
      split; [by rewrite !length_app, Hlen|].
      split; [by rewrite fmap_app, Hsent, He|].
      split.
      + rewrite Hlog1, Hlog, fmap_app, <- app_assoc. f_equal.
        rewrite zip_with_app by by rewrite length_fmap. done.
      + intros k j r' Hk Hr'.
        destruct (decide (k < length done)%nat) as [Hlt|Hge].
        * rewrite lookup_app_l in Hk by done.
          rewrite lookup_app_l in Hr' by lia.
          apply Hkeep; [|by eapply Hslots].
          intros ->. apply Hnew. by eapply list_elem_of_lookup_2.
        * rewrite lookup_app_r in Hk by lia.
          rewrite lookup_app_r in Hr' by lia.
          rewrite Hlen in Hr'.
          destruct (k - length done)%nat; simpl in *; [|done].
          inversion Hk; inversion Hr'; by subst. }
  intros res s' (order & sent & Hperm & (HK' & rs & Hlen & Hsent & Hlog & Hslots) & Hres).
  rewrite Nat2Z.id in Hperm.
  exists order, rs. rewrite Hres, Hsent. done.
Qed.
End FanOutCalls.

(** ** Single steps *)

Lemma wp_load p d (Q : DBImplementation -> World -> Prop) w :
  heap w !! p = Some d -> Q d w -> wp (load p) Q w.
Proof. intros Hp HQ. unfold wp, load. by rewrite Hp. Qed.

Lemma wp_index {S A} (l : list A) i x (Q : A -> S -> Prop) s :
  0 <= i -> l !! Z.to_nat i = Some x -> Q x s -> wp (index l i) Q s.
Proof. intros Hi Hx HQ. unfold wp. by rewrite (index_Ok l i x s). Qed.

Lemma wp_set_index {S A} (l : list A) i x (Q : list A -> S -> Prop) s :
  0 <= i < len l -> Q (<[Z.to_nat i := x]> l) s -> wp (set_index l i x) Q s.
Proof. intros Hi HQ. unfold wp. by rewrite set_index_Ok. Qed.

Lemma wp_lift_world {L A} (m : M World A) (Q : A -> L * World -> Prop) l w :
  wp m (fun a w' => Q a (l, w')) w -> wp (lift_world m) Q (l, w).
Proof. unfold wp, lift_world. simpl. by destruct (m w). Qed.

Lemma wp_with_local {L A} (l : L) (m : M (L * World) A)
    (Q : A * L -> World -> Prop) w :
  wp m (fun a s => Q (a, fst s) (snd s)) (l, w) -> wp (with_local l m) Q w.
Proof. unfold wp, with_local. by destruct (m (l, w)). Qed.

Lemma index_pred {S} (l : list nat) (j : nat) (s : S) :
  (j < length l)%nat -> index l (Z.of_nat (Datatypes.S j) - 1) s = Ok (l !!! j) s.
Proof.
  intros Hj. apply index_Ok; [lia|].
  replace (Z.to_nat (Z.of_nat (Datatypes.S j) - 1)) with j by lia.
  by apply list_lookup_lookup_total_lt.
Qed.

Lemma set_index_pred {S} (l : list nat) (j : nat) x (s : S) :
  (j < length l)%nat ->
  set_index l (Z.of_nat (Datatypes.S j) - 1) x s = Ok (<[j := x]> l) s.
Proof.
  intros Hj. rewrite set_index_Ok by (unfold len; lia).
  by replace (Z.to_nat (Z.of_nat (Datatypes.S j) - 1)) with j by lia.
Qed.

Lemma succ_not_zero (j : nat) : (Z.of_nat (Datatypes.S j) =? 0) = false.
Proof. apply Z.eqb_neq. lia. Qed.

Lemma fmap_lookup_total_seq {T B} `{!Inhabited T} (f : T -> B) (l : list T) :
  (fun i => f (l !!! i)) <$> seq 0 (length l) = f <$> l.
Proof.
  transitivity (f <$> ((fun i => l !!! i) <$> seq 0 (length l))).
  - by rewrite <- list_fmap_compose.
  - by rewrite lookup_total_fmap_seq.
Qed.

Lemma ev_call_zip (cs : list Call) (rs : list Reply) :
  length rs = length cs -> ev_call <$> zip_with Build_Event cs rs = cs.
Proof.
  revert rs. induction cs as [|c cs IH]; intros [|r rs] Hlen; simpl in *;
    try done.
  f_equal. apply IH. lia.
Qed.

Lemma ev_reply_zip (cs : list Call) (rs : list Reply) :
  length rs = length cs -> ev_reply <$> zip_with Build_Event cs rs = rs.
Proof.
  revert rs. induction cs as [|c cs IH]; intros [|r rs] Hlen; simpl in *;
    try done.
  f_equal. apply IH. lia.
Qed.

(** The calls of a fan-out over the indices of [l], in any order, are the
    calls on the elements of [l], each once. *)
Lemma fanout_calls_Permutation {T} `{!Inhabited T} (f : T -> Call)
    (l : list T) (order : list nat) :
  order ≡ₚ seq 0 (length l) ->
  (fun i => f (l !!! i)) <$> order ≡ₚ f <$> l.
Proof. intros Hperm. by rewrite Hperm, fmap_lookup_total_seq. Qed.

Section FanOutSpecs.
Variable drv : Oracle.

Lemma Close_unfold p sch : Close drv p sch = each_connection drv p sch OpClose.
Proof. done. Qed.

Lemma Ping_unfold p sch : Ping drv p sch = each_connection drv p sch OpPing.
Proof. done. Qed.

Lemma PingContext_unfold p sch ctx :
  PingContext drv p sch ctx = each_connection drv p sch (OpPingContext ctx).
Proof. done. Qed.

(** Under the invariant the fan-out over the connections returns, leaves
    the store alone and calls [op] once on every connection. *)
Lemma each_connection_spec p d sch op w :
  heap w !! p = Some d -> conn_inv d ->
  wp (each_connection drv p sch op)
     (fun res w' =>
        heap w' = heap w /\
        exists evs,
          log w' = log w ++ evs /\
          ev_call <$> evs ≡ₚ (fun h => DBCall h op) <$> connections d /\
          res = collect (pick_order (deliver sch) (reply_err <$> (ev_reply <$> evs)))) w.
Proof.
  intros Hp Hinv. unfold each_connection.
  apply wp_bind, (wp_load p d); [done|].
  red in Hinv. rewrite Hinv.
  replace (1 + len (readOnlyDBs d)) with (Z.of_nat (length (connections d)))
    by (unfold connections, len; simpl; lia).
  eapply wp_mono.
  { apply (fanout_calls log
             (fun i => DBCall (connections d !!! i) op)
             (fun _ _ _ => True)
             (fun w' => heap w' = heap w)); [|done].
    intros i s Hi HK. destruct i as [|j]; cbv beta.
    - change (Z.of_nat 0 =? 0) with true. cbv iota.
      apply wp_bind, (wp_load p d); [by rewrite HK|].
      exists (drv (log s) (DBCall (readWriteDB d) op)). done.
    - rewrite succ_not_zero.
      apply wp_bind, (wp_load p d); [by rewrite HK|].
      assert (j < length (readOnlyDBs d))%nat as Hj
        by (unfold connections in Hi; simpl in Hi; lia).
      apply wp_bind. unfold wp at 1. rewrite index_pred by done.
      exists (drv (log s) (DBCall (readOnlyDBs d !!! j) op)). done. }
  intros res w' (order & rs & Hperm & Hlen & Hlog & Hres & _ & Hheap).
  split; [done|].
  exists (zip_with Build_Event
            ((fun i => DBCall (connections d !!! i) op) <$> order) rs).
  split; [done|].
  rewrite ev_call_zip, ev_reply_zip by by rewrite length_fmap.
  split; [|done].
  by apply (fanout_calls_Permutation (fun h => DBCall h op)).
Qed.

(** The same for the prepared handles of a statement. *)
Lemma stmt_Close_spec p d s sch w :
  heap w !! p = Some d -> conn_inv d -> stmt_inv p d s ->
  wp (stmt_Close drv s sch)
     (fun res w' =>
        heap w' = heap w /\
        exists evs,
          log w' = log w ++ evs /\
          ev_call <$> evs ≡ₚ (fun h => StmtCall h OpStmtClose) <$> handles s /\
          res = collect (pick_order (deliver sch) (reply_err <$> (ev_reply <$> evs)))) w.
Proof.
  intros Hp Hinv [Hdb Hlen]. unfold stmt_Close. rewrite Hdb.
  apply wp_bind, (wp_load p d); [done|].
  red in Hinv. rewrite Hinv.
  replace (1 + len (readOnlyDBs d)) with (Z.of_nat (length (handles s)))
    by (unfold handles, len; simpl; lia).
  eapply wp_mono.
  { apply (fanout_calls log
             (fun i => StmtCall (handles s !!! i) OpStmtClose)
             (fun _ _ _ => True)
             (fun w' => heap w' = heap w)); [|done].
    intros i s0 Hi HK. destruct i as [|j]; cbv beta.
    - change (Z.of_nat 0 =? 0) with true. cbv iota.
      exists (drv (log s0) (StmtCall (rwstmt s) OpStmtClose)). done.
    - rewrite succ_not_zero.
      assert (j < length (rostmts s))%nat as Hj
        by (unfold handles in Hi; simpl in Hi; lia).
      apply wp_bind. unfold wp at 1. rewrite index_pred by done.
      exists (drv (log s0) (StmtCall (rostmts s !!! j) OpStmtClose)). done. }
  intros res w' (order & rs & Hperm & Hlen' & Hlog & Hres & _ & Hheap).
  split; [done|].
  exists (zip_with Build_Event
            ((fun i => StmtCall (handles s !!! i) OpStmtClose) <$> order) rs).
  split; [done|].
  rewrite ev_call_zip, ev_reply_zip by by rewrite length_fmap.
  split; [|done].
  by apply (fanout_calls_Permutation (fun h => StmtCall h OpStmtClose)).
Qed.
End FanOutSpecs.

Lemma reply_err_None r : reply_err r = None -> r = Done (reply_handle r).
Proof. by destruct r. Qed.

Lemma reply_err_Some r e : reply_err r = Some e -> r = Fail e.
Proof. destruct r; simpl; congruence. Qed.

(** When every reply is a success and the place of each index holds the
    handle of its reply, the events pair each target with its handle. *)
Lemma fanout_events_success {T} `{!Inhabited T} (mk : T -> Call)
    (targets : list T) (places order : list nat) (rs : list Reply) :
  order ≡ₚ seq 0 (length targets) ->
  length places = length targets ->
  length rs = length order ->
  Forall (fun e => e = None) (reply_err <$> rs) ->
  (forall k i r, order !! k = Some i -> rs !! k = Some r ->
                 places !! i = Some (reply_handle r)) ->
  zip_with Build_Event ((fun i => mk (targets !!! i)) <$> order) rs
  ≡ₚ zip_with (fun h st => Build_Event (mk h) (Done st)) targets places.
Proof.
  intros Hperm Hpl Hlen Hall Hslots.
  transitivity ((fun i => Build_Event (mk (targets !!! i)) (Done (places !!! i)))
                  <$> order).
  - match goal with |- ?a ≡ₚ ?b => enough (a = b) as -> by done end.
    apply list_eq. intros k.
    rewrite lookup_zip_with, !list_lookup_fmap.
    destruct (order !! k) as [i|] eqn:Hi; simpl; [|done].
    destruct (rs !! k) as [r|] eqn:Hr; simpl.
    + f_equal. f_equal.
      assert (reply_err r = None) as Hnone.
      { rewrite Forall_forall in Hall. apply Hall.
        apply list_elem_of_fmap. exists r. split; [done|].
        by eapply list_elem_of_lookup_2. }
      rewrite (reply_err_None r Hnone). f_equal.
      specialize (Hslots k i r Hi Hr).
      by apply list_lookup_total_correct in Hslots.
    + apply lookup_ge_None in Hr. apply lookup_lt_Some in Hi. lia.
  - rewrite Hperm.
    match goal with |- ?a ≡ₚ ?b => enough (a = b) as -> by done end.
    apply list_eq. intros i.
    rewrite lookup_zip_with, list_lookup_fmap.
    destruct (decide (i < length targets)%nat) as [Hlt|Hge].
    + rewrite lookup_seq_lt by done. simpl.
      rewrite (list_lookup_lookup_total_lt targets i) by done. simpl.
      rewrite (list_lookup_lookup_total_lt places i) by lia. done.
    + rewrite lookup_seq_ge by lia. simpl.
      by rewrite (lookup_ge_None_2 targets i) by lia.
Qed.

(** When the collected error is [e], some call was answered by [Fail e]. *)
Lemma fanout_events_failure (cs : list Call) (rs : list Reply) choices e :
  length rs = length cs ->
  collect (pick_order choices (reply_err <$> rs)) = Some e ->
  exists ev, ev ∈ zip_with Build_Event cs rs /\ ev_reply ev = Fail e.
Proof.
  intros Hlen Hcol. apply collect_Some in Hcol.
  rewrite pick_order_perm in Hcol.
  apply list_elem_of_fmap in Hcol as (r & Hr & Hin).
  symmetry in Hr. apply reply_err_Some in Hr. subst r.
  rewrite <- (ev_reply_zip cs rs Hlen) in Hin.
  apply list_elem_of_fmap in Hin as (ev & Hev & Hin). eauto.
Qed.

Section PrepareSpec.
Variable drv : Oracle.

Lemma prepare_all_spec p d sch op w :
  heap w !! p = Some d -> conn_inv d ->
  wp (prepare_all drv p sch op)
     (fun res w' =>
        heap w' = heap w /\
        exists evs,
          log w' = log w ++ evs /\
          ev_call <$> evs ≡ₚ (fun h => DBCall h op) <$> connections d /\
          ((exists e, res = (None, Some e) /\
                      exists ev, ev ∈ evs /\ ev_reply ev = Fail e) \/
           (exists s, res = (Some s, None) /\
                      stmt_inv p d s /\
                      evs ≡ₚ zip_with (fun h st => Build_Event (DBCall h op) (Done st))
                                      (connections d) (handles s)))) w.
Proof.
  intros Hp Hinv. unfold prepare_all.
  apply wp_bind, (wp_load p d); [done|].
  apply wp_bind. unfold make_slice.
  assert ((len (readOnlyDBs d) <? 0) = false) as ->
    by (pose proof (len_nonneg (readOnlyDBs d)); lia).
  apply wp_ret. apply wp_bind, wp_with_local.
  red in Hinv. rewrite Hinv.
  replace (1 + len (readOnlyDBs d)) with (Z.of_nat (length (connections d)))
    by (unfold connections, len; simpl; lia).
  eapply wp_mono.
  { apply (fanout_calls (fun s : PrepareFrame * World => log (snd s))
             (fun i => DBCall (connections d !!! i) op)
             (fun i r s => (fr_rwstmt (fst s) :: fr_roStmts (fst s)) !! i
                           = Some (reply_handle r))
             (fun s => heap (snd s) = heap w /\
                       length (fr_roStmts (fst s)) = length (readOnlyDBs d))).
    - intros i [fr w0] Hi [HK Hlen]. simpl in HK, Hlen.
      unfold prepare_on. destruct i as [|j].
      + change (Z.of_nat 0 =? 0) with true. cbv iota.
        unfold wp, bind, lift_world, load, call_handle, call, bind, ret,
          get_local, put_local. simpl. rewrite HK, Hp. simpl.
        exists (drv (log w0) (DBCall (readWriteDB d) op)).
        repeat split; try done. by intros [|j] r' Hj Hs.
      + rewrite succ_not_zero.
        assert (j < length (readOnlyDBs d))%nat as Hj
          by (unfold connections in Hi; simpl in Hi; lia).
        unfold wp, bind, lift_world, load, call_handle, call, bind, ret,
          get_local, put_local. simpl. rewrite HK, Hp.
        rewrite index_pred by done. simpl.
        rewrite set_index_pred by handle_lia. simpl.
        exists (drv (log w0) (DBCall (readOnlyDBs d !!! j) op)).
        split; [done|]. split; [done|]. split; [|split].
        * apply list_lookup_insert_eq. handle_lia.
        * intros [|k] r' Hk Hs; simpl in *; [done|].
          rewrite list_lookup_insert_ne by congruence. done.
        * by rewrite length_insert.
    - simpl. unfold len. by rewrite length_replicate, Nat2Z.id. }
  intros res [fr w'] (order & rs & Hperm & Hlen & Hlog & Hres & Hslots & HK & Hfr).
  cbn [fst snd] in *.
  set (cs := (fun i => DBCall (connections d !!! i) op) <$> order) in *.
  assert (length rs = length cs) as Hlen' by (unfold cs; by rewrite length_fmap).
  assert (ev_call <$> zip_with Build_Event cs rs
          ≡ₚ (fun h => DBCall h op) <$> connections d) as Hcalls.
  { rewrite ev_call_zip by done.
    by apply (fanout_calls_Permutation (fun h => DBCall h op)). }
  destruct res as [e|] eqn:Hr.
  - apply wp_ret. split; [done|]. eexists. split; [done|]. split; [done|].
    left. exists e. split; [done|].
    symmetry in Hres. by apply (fanout_events_failure cs rs) in Hres.
  - apply wp_ret. split; [done|]. eexists. split; [done|]. split; [done|].
    right. eexists. split; [done|]. split; [done|].
    symmetry in Hres. apply collect_None in Hres.
    rewrite pick_order_perm in Hres.
    apply (fanout_events_success (fun h => DBCall h op)); try done.
    unfold connections, handles. simpl. handle_lia.
Qed.
End PrepareSpec.

(** ** Construction *)

Lemma strings_Split_length s sep : (1 <= length (strings_Split s sep))%nat.
Proof.
  induction s as [|c rest IH]; simpl; [lia|].
  destruct (Ascii.eqb c sep); simpl; [lia|].
  destruct (strings_Split rest sep); simpl in *; lia.
Qed.

Lemma fresh_unused (w : World) : heap w !! fresh (dom (heap w)) = None.
Proof. apply not_elem_of_dom, is_fresh. Qed.

Lemma WrapDBs_nil w :
  WrapDBs [] w = Panic "at least one RW connection is required".
Proof. done. Qed.

Lemma WrapDBs_cons first rest w :
  WrapDBs (first :: rest) w
  = Ok (fresh (dom (heap w)))
       {| heap := <[fresh (dom (heap w)) :=
                     {| readWriteDB := first;
                        readOnlyDBs := rest;
                        totalConnections := len (first :: rest);
                        readOnlyCount := 0 |}]> (heap w);
          log := log w |}.
Proof.
  unfold WrapDBs.
  assert ((len (first :: rest) =? 0) = false) as ->.
  { apply Z.eqb_neq. unfold len. simpl. lia. }
  done.
Qed.

Section OpenSpec.
Variable drv : Oracle.

Lemma openConnections_spec p d0 sch driverName conns w :
  heap w !! p = Some d0 ->
  totalConnections d0 = len conns ->
  length (readOnlyDBs d0) = (length conns - 1)%nat ->
  (1 <= length conns)%nat ->
  wp (openConnections drv p sch driverName conns)
     (fun res w' =>
        exists d evs,
          heap w' = <[p := d]> (heap w) /\
          totalConnections d = totalConnections d0 /\
          readOnlyCount d = readOnlyCount d0 /\
          length (readOnlyDBs d) = length (readOnlyDBs d0) /\
          log w' = log w ++ evs /\
          ev_call <$> evs ≡ₚ OpenCall driverName <$> conns /\
          ((exists e, res = Some e /\
                      exists ev, ev ∈ evs /\ ev_reply ev = Fail e) \/
           (res = None /\
            evs ≡ₚ zip_with (fun seg h => Build_Event (OpenCall driverName seg) (Done h))
                            conns (connections d)))) w.
Proof.
  intros Hp Htot Hros Hne. unfold openConnections.
  apply wp_bind, (wp_load p d0); [done|].
  rewrite Htot. unfold len.
  eapply wp_mono.
  { apply (fanout_calls log
             (fun i => OpenCall driverName (conns !!! i))
             (fun i r w' => exists d, heap w' !! p = Some d /\
                                      connections d !! i = Some (reply_handle r))
             (fun w' => exists d,
                  heap w' = <[p := d]> (heap w) /\
                  totalConnections d = totalConnections d0 /\
                  readOnlyCount d = readOnlyCount d0 /\
                  length (readOnlyDBs d) = length (readOnlyDBs d0))).
    - intros i w0 Hi (d & Hheap & Ht & Hc & Hl).
      assert (heap w0 !! p = Some d) as Hp0 by (rewrite Hheap; apply lookup_insert_eq).
      assert (conns !! i = Some (conns !!! i)) as Hseg
        by by apply list_lookup_lookup_total_lt.
      destruct i as [|j].
      + change (Z.of_nat 0 =? 0) with true. cbv iota.
        unfold wp, bind. rewrite (index_Ok conns 0 (conns !!! 0%nat)) by done.
        unfold call_handle, call, bind, ret, load, store. simpl. rewrite Hp0.
        cbn [heap log fst snd].
        exists (drv (log w0) (OpenCall driverName (conns !!! 0%nat))).
        split; [done|]. split; [done|]. split; [|split].
        * eexists. rewrite lookup_insert_eq. done.
        * intros [|k] r' Hk (d' & Hd' & Hs); [done|].
          rewrite ?Hp0 in Hd'. inversion Hd'; subst d'.
          eexists. rewrite lookup_insert_eq. done.
        * eexists. rewrite Hheap, insert_insert_eq. done.
      + rewrite succ_not_zero.
        unfold wp, bind.
        rewrite (index_Ok conns (Z.of_nat (Datatypes.S j)) (conns !!! Datatypes.S j))
          by (rewrite ?Nat2Z.id; done || lia).
        unfold call_handle, call, bind, ret, load, store. simpl heap. simpl log.
        cbv beta iota. rewrite Hp0.
        rewrite set_index_pred by handle_lia.
        cbn [heap log fst snd].
        exists (drv (log w0) (OpenCall driverName (conns !!! Datatypes.S j))).
        split; [done|]. split; [done|]. split; [|split].
        * eexists. simpl heap. rewrite lookup_insert_eq. split; [done|].
          simpl. apply list_lookup_insert_eq. handle_lia.
        * intros [|k] r' Hk (d' & Hd' & Hs).
          -- rewrite ?Hp0 in Hd'. inversion Hd'; subst d'.
             eexists. simpl heap. rewrite lookup_insert_eq. done.
          -- rewrite ?Hp0 in Hd'. inversion Hd'; subst d'.
             eexists. simpl heap. rewrite lookup_insert_eq. split; [done|].
             simpl in *. rewrite list_lookup_insert_ne by congruence. done.
        * eexists. simpl heap. rewrite Hheap, insert_insert_eq.
          split; [done|]. simpl. by rewrite length_insert.
    - exists d0. rewrite insert_id by done. done. }
  intros res w' (order & rs & Hperm & Hlen & Hlog & Hres & Hslots & d & Hheap & Ht & Hc & Hl).
  set (cs := (fun i => OpenCall driverName (conns !!! i)) <$> order) in *.
  assert (length rs = length cs) as Hlen' by (unfold cs; by rewrite length_fmap).
  exists d, (zip_with Build_Event cs rs).
  split; [done|]. split; [by rewrite Ht, Htot|].
  repeat (split; [done|]).
  split.
  { rewrite ev_call_zip by done.
    by apply (fanout_calls_Permutation (OpenCall driverName)). }
  destruct res as [e|].
  - left. exists e. split; [done|].
    symmetry in Hres. by apply (fanout_events_failure cs rs) in Hres.
  - right. split; [done|].
    symmetry in Hres. apply collect_None in Hres.
    rewrite pick_order_perm in Hres.
    apply (fanout_events_success (OpenCall driverName)); try done.
    + unfold connections. simpl. handle_lia.
    + intros k i r Hk Hr. destruct (Hslots k i r Hk Hr) as (d' & Hd' & Hs).
      rewrite Hheap, lookup_insert_eq in Hd'. by inversion Hd'; subst.
Qed.

Lemma Open_spec sch driverName dataSourceName w :
  wp (Open drv sch driverName dataSourceName)
     (fun res w' =>
        exists d evs,
          heap w !! fresh (dom (heap w)) = None /\
          heap w' = <[fresh (dom (heap w)) := d]> (heap w) /\
          conn_inv d /\
          totalConnections d = len (strings_Split dataSourceName ";") /\
          readOnlyCount d = 0 /\
          log w' = log w ++ evs /\
          ev_call <$> evs
            ≡ₚ OpenCall driverName <$> strings_Split dataSourceName ";" /\
          ((exists e, res = (None, Some e) /\
                      exists ev, ev ∈ evs /\ ev_reply ev = Fail e) \/
           (res = (Some (fresh (dom (heap w))), None) /\
            evs ≡ₚ zip_with (fun seg h => Build_Event (OpenCall driverName seg) (Done h))
                            (strings_Split dataSourceName ";") (connections d)))) w.
Proof.
  unfold Open.
  set (conns := strings_Split dataSourceName ";").
  pose proof (strings_Split_length dataSourceName ";") as Hne. fold conns in Hne.
  apply wp_bind. unfold make_slice.
  assert ((len conns - 1 <? 0) = false) as -> by (unfold len; lia).
  apply wp_ret. apply wp_bind. unfold wp at 1, alloc.
  set (p := fresh (dom (heap w))).
  set (d0 := {| readWriteDB := nil_handle;
                readOnlyDBs := replicate (Z.to_nat (len conns - 1)) nil_handle;
                totalConnections := len conns;
                readOnlyCount := 0 |}).
  apply wp_bind. eapply wp_mono.
  { apply (openConnections_spec p d0).
    - simpl. apply lookup_insert_eq.
    - done.
    - simpl. rewrite length_replicate. unfold len. lia.
    - done. }
  intros res w' (d & evs & Hheap & Ht & Hc & Hl & Hlog & Hcalls & Hres).
  simpl in Hheap, Hlog, Ht, Hc, Hl. rewrite insert_insert_eq in Hheap.
  assert (conn_inv d) as Hinv.
  { red. rewrite Ht. rewrite length_replicate in Hl. unfold len in *. lia. }
  destruct Hres as [(e & -> & Hev)|[-> Hevs]]; apply wp_ret;
    exists d, evs; (split; [apply fresh_unused|]);
    repeat (split; [done|]); [left|right]; eauto.
Qed.
End OpenSpec.

(** ** Delegation and configuration *)

Lemma delegate_ReadWrite drv p d w (op : DBOp) :
  heap w !! p = Some d ->
  bind (ReadWrite p) (fun h => call drv (DBCall h op)) w
  = call drv (DBCall (readWriteDB d) op) w.
Proof. intros Hp. unfold bind, ReadWrite, load, bind. by rewrite Hp. Qed.

Lemma for_each_calls drv (mk : nat -> Call) (l : list nat) : forall w,
  exists w',
    for_each l (fun h => call_void drv (mk h)) w = Ok tt w' /\
    heap w' = heap w /\
    exists evs, log w' = log w ++ evs /\ ev_call <$> evs = mk <$> l.
Proof.
  induction l as [|h rest IH]; intros w; simpl.
  - exists w. split; [done|]. split; [done|]. exists []. by rewrite app_nil_r.
  - unfold bind at 1. unfold call_void at 1, bind, call, ret. cbn [heap log].
    destruct (IH {| heap := heap w;
                    log := log w ++ [Build_Event (mk h) (drv (log w) (mk h))] |})
      as (w' & Hrun & Hheap & evs & Hlog & Hcalls).
    exists w'. split; [done|]. split; [done|]. cbn [heap log] in *.
    exists (Build_Event (mk h) (drv (log w) (mk h)) :: evs).
    split; [by rewrite Hlog, <- app_assoc|]. by rewrite !fmap_cons, Hcalls.
Qed.

Lemma for_each_index_calls drv p d (mk : nat -> Call) (k : nat) : forall a w,
  heap w !! p = Some d -> (a + k <= length (readOnlyDBs d))%nat ->
  exists w',
    for_each (seq a k)
      (fun i => d2 <- load p ;; h <- index (readOnlyDBs d2) (Z.of_nat i) ;;
                call_void drv (mk h)) w = Ok tt w' /\
    heap w' = heap w /\
    exists evs, log w' = log w ++ evs /\
                ev_call <$> evs = mk <$> take k (drop a (readOnlyDBs d)).
Proof.
  induction k as [|k IH]; intros a w Hp Hak; simpl.
  - exists w. split; [done|]. split; [done|]. exists []. by rewrite app_nil_r.
  - assert (readOnlyDBs d !! a = Some (readOnlyDBs d !!! a)) as Ha
      by (apply list_lookup_lookup_total_lt; lia).
    unfold bind at 1. unfold bind at 1. unfold load at 1. rewrite Hp.
    unfold bind at 1.
    rewrite (index_Ok (readOnlyDBs d) (Z.of_nat a) (readOnlyDBs d !!! a))
      by (rewrite ?Nat2Z.id; done || lia).
    unfold call_void at 1, bind, call, ret. cbn [heap log].
    set (ev := Build_Event (mk (readOnlyDBs d !!! a))
                 (drv (log w) (mk (readOnlyDBs d !!! a)))).
    destruct (IH (Datatypes.S a) {| heap := heap w; log := log w ++ [ev] |})
      as (w' & Hrun & Hheap & evs & Hlog & Hcalls); [done|lia|].
    exists w'. split; [done|]. split; [done|]. cbn [heap log] in *.
    exists (ev :: evs). split; [by rewrite Hlog, <- app_assoc|].
    rewrite (drop_S _ _ _ Ha). cbn [take]. by rewrite !fmap_cons, Hcalls.
Qed.

Lemma prepare_all_outcome drv p d sch op w :
  heap w !! p = Some d -> conn_inv d ->
  exists res w',
    prepare_all drv p sch op w = Ok res w' /\ prepare_outcome p d op w res w'.
Proof.
  intros Hp Hinv.
  pose proof (prepare_all_spec drv p d sch op w Hp Hinv) as Hspec.
  apply wp_ok in Hspec as (res & w' & Hrun & Hheap & evs & Hlog & Hcalls & Hres).
  exists res, w'. split; [done|]. split; [done|].
  exists evs. split; [done|]. split; [done|].
  destruct Hres as [(e & -> & ev & Hev & Hfail)|(s & -> & [Hdb Hlen] & Hevs)];
    cbn [fst snd].
  - split; [|split].
    + split; [|by eexists]. intros _. exists ev. split; [done|]. by exists e.
    + intros e' He'. inversion He'; subst e'. split; [done|]. by exists ev.
    + done.
  - split; [|split].
    + split; [by intros [e He]|].
      intros (ev & Hev & e & Hfail). rewrite Hevs in Hev.
      apply elem_of_zip_with in Hev as (h & st & -> & _ & _). done.
    + done.
    + intros _. by exists s.
Qed.

Lemma no_panic_of_wp {S A} (m : M S A) Q s :
  wp m Q s -> exists a s', m s = Ok a s'.
Proof. intros (a & s' & Hrun & _)%wp_ok. eauto. Qed.

(** Every value of the counter is reached from a fresh connection set by
    a run of [ReadOnly] calls. *)
Lemma every_counter_value_is_reached (c : Z) :
  0 <= c < 2 ^ 64 ->
  exists hs, repeat_call (Z.to_nat c) (ReadOnly 0) (wrap_world 0)
             = Ok hs (wrap_world c).
Proof.
  intros Hc.
  destruct (ReadOnly_repeat (Z.to_nat c) 0%nat (wrap_db 0) (wrap_world 0))
    as (hs & w' & Hrun & _ & _ & Hheap & Hlog).
  - apply lookup_singleton_eq.
  - done.
  - by vm_compute.
  - done.
  - rewrite Z2Nat.id by lia. unfold uint64_modulus. cbn [readOnlyCount wrap_db]. lia.
  - exists hs. rewrite Hrun. f_equal. destruct w' as [hp lg].
    cbn [heap log] in *. subst hp lg. unfold wrap_world. f_equal.
    rewrite Z2Nat.id by lia. cbn [heap readOnlyCount wrap_db wrap_world].
    rewrite insert_singleton_eq. done.
Qed.

(** * Further lemmas *)

Lemma collect_outcome (choices : list nat) (evs : list Event) res :
  res = collect (pick_order choices (reply_err <$> (ev_reply <$> evs))) ->
  (res = None <-> Forall (fun ev => reply_err (ev_reply ev) = None) evs) /\
  (forall e, res = Some e -> exists ev, ev ∈ evs /\ ev_reply ev = Fail e) /\
  res = last_error (pick_order choices (reply_err <$> (ev_reply <$> evs))).
Proof.
  intros ->. split; [|split].
  - rewrite collect_None, pick_order_perm, !Forall_fmap. done.
  - intros e He. apply collect_Some in He. rewrite pick_order_perm in He.
    apply list_elem_of_fmap in He as (r & Hr & Hin).
    apply list_elem_of_fmap in Hin as (ev & -> & Hin).
    exists ev. split; [done|]. by apply reply_err_Some.
  - apply collect_last.
Qed.

Lemma fanout_outcome_intro targets sch w res w' :
  (heap w' = heap w /\
   exists evs,
     log w' = log w ++ evs /\
     ev_call <$> evs ≡ₚ targets /\
     res = collect (pick_order (deliver sch) (reply_err <$> (ev_reply <$> evs)))) ->
  fanout_outcome targets sch w res w'.
Proof.
  intros (Hheap & evs & Hlog & Hcalls & Hres).
  split; [done|]. exists evs. split; [done|]. split; [done|].
  by apply collect_outcome.
Qed.

Lemma each_connection_outcome drv p d sch op w :
  heap w !! p = Some d -> conn_inv d ->
  exists res w',
    each_connection drv p sch op w = Ok res w' /\
    fanout_outcome ((fun h => DBCall h op) <$> connections d) sch w res w'.
Proof.
  intros Hp Hinv.
  pose proof (each_connection_spec drv p d sch op w Hp Hinv) as Hspec.
  apply wp_ok in Hspec as (res & w' & Hrun & Hpost).
  exists res, w'. split; [done|]. by apply fanout_outcome_intro.
Qed.

(** [ReadOnly] looks at the store only. *)
Lemma ReadOnly_with_log p w lg :
  ReadOnly p (with_log lg w)
  = match ReadOnly p w with
    | Ok h w' => Ok h (with_log lg w')
    | Panic msg => Panic msg
    end.
Proof.
  unfold ReadOnly, bind, load, with_log. cbn [heap log].
  destruct (heap w !! p) as [d|]; [|done].
  destruct (totalConnections d =? 1); [done|].
  unfold roundRobin, bind, load, store. cbn [heap log].
  destruct (heap w !! p) as [d'|]; [|done]. cbn [heap log].
  destruct (uint64_of_int (len (readOnlyDBs d)) =? 0); [done|].
  unfold ret, index.
  destruct (in_range _ _); [|done]. by destruct (_ !! _).
Qed.

Lemma world_eta w : with_log (log w) w = w.
Proof. by destruct w. Qed.

Lemma same_heap_with_log w w' : heap w' = heap w -> w' = with_log (log w') w.
Proof. intros H. destruct w, w'. unfold with_log. simpl in *. by subst. Qed.

(** ** What each request does to the store *)

Lemma steady_run_api_non_read drv a :
  is_read a = false -> steady_on heap (run_api drv a).
Proof.
  destruct a; simpl; try discriminate; intros _;
    first [ apply steady_SetMaxIdleConns | apply steady_SetMaxOpenConns
          | apply steady_SetConnMaxLifetime | apply steady_SetConnMaxIdleTime
          | apply steady_discard ];
    first [ apply steady_Close | apply steady_Ping | apply steady_PingContext
          | apply steady_Driver | apply steady_ReadWrite
          | apply steady_prepare_all | apply steady_stmt_Close
          | (unfold Begin, BeginTx, Exec, ExecContext, stmt_Exec,
               stmt_ExecContext, RWStmt;
             apply steady_bind;
             [first [apply steady_ReadWrite|apply steady_ret]|];
             intros ?; apply steady_call) ].
Qed.

Lemma steady_Ok {A} (m : M World A) w a w' :
  steady_on heap m -> m w = Ok a w' -> heap w' = heap w.
Proof. intros Hm Hrun. specialize (Hm w). unfold wlp in Hm. by rewrite Hrun in Hm. Qed.

Lemma roundRobin_inv q n w i w' :
  roundRobin q n w = Ok i w' ->
  exists dq, heap w !! q = Some dq /\ w' = counted q dq w.
Proof.
  unfold roundRobin, bind, load, store.
  destruct (heap w !! q) as [dq|] eqn:Hq; [|done]. cbn [heap log].
  destruct (uint64_of_int n =? 0); [done|].
  intros Heq. inversion Heq; subst. by exists dq.
Qed.

Lemma ReadOnly_inv q w h w' :
  ReadOnly q w = Ok h w' ->
  exists dq, heap w !! q = Some dq /\
             ((totalConnections dq = 1 /\ w' = w) \/
              (totalConnections dq <> 1 /\ w' = counted q dq w)).
Proof.
  unfold ReadOnly. intros Hrun.
  apply bind_Ok in Hrun as (dq & w0 & Hload & Hrest).
  unfold load in Hload. destruct (heap w !! q) as [dq'|] eqn:Hq; [|done].
  inversion Hload; subst dq' w0. exists dq. split; [done|].
  destruct (totalConnections dq =? 1) eqn:Hone.
  - left. apply Z.eqb_eq in Hone. inversion Hrest. done.
  - right. apply Z.eqb_neq in Hone. split; [done|].
    apply bind_Ok in Hrest as (i & w1 & Hrr & Hidx).
    apply roundRobin_inv in Hrr as (dq' & Hq' & ->).
    rewrite Hq in Hq'. inversion Hq'; subst dq'.
    apply index_inv in Hidx as (-> & _). done.
Qed.

Lemma ROStmt_inv s w h w' :
  ROStmt s w = Ok h w' ->
  (len (rostmts s) = 0 /\ w' = w) \/
  (len (rostmts s) <> 0 /\
   exists dq, heap w !! db s = Some dq /\ w' = counted (db s) dq w).
Proof.
  unfold ROStmt. destruct (len (rostmts s) =? 0) eqn:Hzero.
  - apply Z.eqb_eq in Hzero. intros Heq. inversion Heq. by left.
  - apply Z.eqb_neq in Hzero. intros Hrun. right. split; [done|].
    apply bind_Ok in Hrun as (i & w1 & Hrr & Hidx).
    apply roundRobin_inv in Hrr as (dq & Hq & ->).
    apply index_inv in Hidx as (-> & _). by exists dq.
Qed.

Lemma call_heap drv c w r w' : call drv c w = Ok r w' -> heap w' = heap w.
Proof. unfold call. intros Heq. by inversion Heq. Qed.

(** The record at [p] after a read of the connection set at [q]. *)
Lemma db_read_turn drv p d q (op : DBOp) w r w' :
  heap w !! p = Some d -> totalConnections d <> 1 ->
  bind (ReadOnly q) (fun h => call drv (DBCall h op)) w = Ok r w' ->
  heap w' !! p
  = Some (if bool_decide (q = p)
          then set_readOnlyCount (AddUint64 (readOnlyCount d) 1) d else d).
Proof.
  intros Hp Hne Hrun.
  apply bind_Ok in Hrun as (h & w1 & Hread & Hcall).
  apply call_heap in Hcall. rewrite Hcall.
  apply ReadOnly_inv in Hread as (dq & Hq & [[Hone ->]|[_ ->]]).
  - case_bool_decide as Hqp; [|done].
    subst q. rewrite Hp in Hq. inversion Hq; subst dq. done.
  - case_bool_decide as Hqp.
    + subst q. rewrite Hp in Hq. inversion Hq; subst dq. apply counted_lookup.
    + unfold counted. cbn [heap]. by rewrite lookup_insert_ne.
Qed.

(** The record at [p] after a read of the statement [s]. *)
Lemma stmt_read_turn drv p d s (op : StmtOp) w r w' :
  heap w !! p = Some d ->
  bind (ROStmt s) (fun h => call drv (StmtCall h op)) w = Ok r w' ->
  heap w' !! p
  = Some (if bool_decide (db s = p) && negb (len (rostmts s) =? 0)
          then set_readOnlyCount (AddUint64 (readOnlyCount d) 1) d else d).
Proof.
  intros Hp Hrun.
  apply bind_Ok in Hrun as (h & w1 & Hread & Hcall).
  apply call_heap in Hcall. rewrite Hcall.
  apply ROStmt_inv in Hread as [[Hzero ->]|(Hnz & dq & Hq & ->)].
  - apply Z.eqb_eq in Hzero. rewrite Hzero, andb_false_r. done.
  - apply Z.eqb_neq in Hnz. rewrite Hnz, andb_true_r.
    case_bool_decide as Hsp.
    + rewrite Hsp, Hp in Hq. inversion Hq; subst dq.
      rewrite Hsp. apply counted_lookup.
    + unfold counted. cbn [heap]. by rewrite lookup_insert_ne.
Qed.

Lemma discard_Ok {S A} (m : M S A) s s' :
  discard m s = Ok tt s' -> exists a, m s = Ok a s'.
Proof.
  unfold discard. intros Hrun.
  apply bind_Ok in Hrun as (a & s1 & Hm & Hret). inversion Hret; subst. eauto.
Qed.

Lemma run_api_turn drv a p d w w' :
  heap w !! p = Some d -> totalConnections d <> 1 ->
  run_api drv a w = Ok tt w' ->
  heap w' !! p
  = Some (if takes_turn p a
          then set_readOnlyCount (AddUint64 (readOnlyCount d) 1) d else d).
Proof.
  intros Hp Hne Hrun.
  destruct (is_read a) eqn:Hread.
  - destruct a; try discriminate; simpl in Hrun |- *;
      apply discard_Ok in Hrun as (r & Hrun);
      first [ by eapply db_read_turn | by eapply stmt_read_turn | idtac ].
    (* [ReadOnly] itself: no driver call follows *)
    apply ReadOnly_inv in Hrun as (dq & Hq & [[Hone ->]|[_ ->]]).
    + case_bool_decide as Hqp; [|done].
      subst p0. rewrite Hp in Hq. inversion Hq; subst dq. done.
    + case_bool_decide as Hqp.
      * subst p0. rewrite Hp in Hq. inversion Hq; subst dq. apply counted_lookup.
      * unfold counted. cbn [heap]. by rewrite lookup_insert_ne.
  - assert (takes_turn p a = false) as -> by (by destruct a).
    rewrite (steady_Ok _ w tt w' (steady_run_api_non_read drv a Hread) Hrun). done.
Qed.

Lemma run_apis_non_read_heap drv l : forall w w',
  Forall (fun a => is_read a = false) l ->
  run_apis drv l w = Ok tt w' -> heap w' = heap w.
Proof.
  induction l as [|a rest IH]; intros w w' Hall Hrun; simpl in Hrun.
  - by inversion Hrun.
  - apply bind_Ok in Hrun as ([] & w1 & Ha & Hrest).
    inversion Hall as [|? ? Hna Hrest']; subst.
    rewrite (IH w1 w' Hrest' Hrest).
    exact (steady_Ok _ w tt w1 (steady_run_api_non_read drv a Hna) Ha).
Qed.

Lemma turns_cons p a l :
  turns p (a :: l) = ((if takes_turn p a then 1 else 0) + turns p l)%nat.
Proof.
  unfold turns. rewrite filter_cons.
  destruct (takes_turn p a) eqn:Ht.
  - rewrite decide_True by done. done.
  - rewrite decide_False by congruence. done.
Qed.

Lemma run_apis_turns drv l : forall p d w w',
  heap w !! p = Some d -> count_inv d -> totalConnections d <> 1 ->
  run_apis drv l w = Ok tt w' ->
  heap w' !! p
  = Some (set_readOnlyCount
            ((readOnlyCount d + Z.of_nat (turns p l)) mod 2 ^ 64) d).
Proof.
  induction l as [|a rest IH]; intros p d w w' Hp Hc Hne Hrun; simpl in Hrun.
  - inversion Hrun; subst. unfold turns. simpl. rewrite Z.add_0_r.
    red in Hc. unfold uint64_modulus in Hc.
    rewrite Z.mod_small by done. by rewrite set_readOnlyCount_same.
  - apply bind_Ok in Hrun as ([] & w1 & Ha & Hrest).
    pose proof (run_api_turn drv a p d w w1 Hp Hne Ha) as Hp1.
    rewrite turns_cons.
    destruct (takes_turn p a).
    + rewrite (IH p _ w1 w' Hp1); [| |done|done].
      * rewrite set_readOnlyCount_twice. cbn [readOnlyCount set_readOnlyCount].
        unfold AddUint64, uint64_modulus. rewrite Zplus_mod_idemp_l.
        do 3 f_equal. lia.
      * red. cbn [readOnlyCount set_readOnlyCount]. apply AddUint64_range.
    + rewrite (IH p d w1 w' Hp1 Hc Hne Hrest). do 3 f_equal.
Qed.

(** ** Segments of a data source name *)

Lemma strings_Split_count s sep :
  length (strings_Split s sep) = Datatypes.S (count_char sep s).
Proof.
  induction s as [|c rest IH]; simpl; [done|].
  destruct (Ascii.eqb c sep); simpl; [by rewrite IH|].
  destruct (strings_Split rest sep) as [|piece pieces]; simpl in *; lia.
Qed.

Lemma strings_Split_cons s sep :
  exists piece pieces, strings_Split s sep = piece :: pieces.
Proof.
  pose proof (strings_Split_length s sep) as Hlen.
  destruct (strings_Split s sep) as [|piece pieces]; simpl in Hlen; [lia|eauto].
Qed.

Lemma strings_Join_cons piece pieces sep :
  pieces <> [] ->
  strings_Join (piece :: pieces) sep
  = (piece ++ String sep (strings_Join pieces sep))%string.
Proof. by destruct pieces. Qed.

Lemma strings_Join_Split s sep : strings_Join (strings_Split s sep) sep = s.
Proof.
  induction s as [|c rest IH]; [done|].
  destruct (strings_Split_cons rest sep) as (piece & pieces & Hsplit).
  cbn [strings_Split]. rewrite Hsplit in IH |- *.
  destruct (Ascii.eqb c sep) eqn:Hc.
  - apply Ascii.eqb_eq in Hc. subst c.
    rewrite (strings_Join_cons EmptyString (piece :: pieces)) by done.
    by rewrite IH.
  - destruct pieces as [|next more].
    + cbn [strings_Join] in *. by rewrite IH.
    + rewrite (strings_Join_cons (String c piece)) by done.
      rewrite (strings_Join_cons piece) in IH by done.
      rewrite <- IH. reflexivity.
Qed.

Lemma strings_Split_no_sep s sep :
  Forall (fun piece => count_char sep piece = 0%nat) (strings_Split s sep).
Proof.
  induction s as [|c rest IH]; simpl.
  - by repeat constructor.
  - destruct (Ascii.eqb c sep) eqn:Hc.
    + constructor; [done|exact IH].
    + destruct (strings_Split rest sep) as [|piece pieces].
      * repeat constructor. simpl. by rewrite Hc.
      * inversion IH; subst. constructor; [|done]. simpl. by rewrite Hc.
Qed.

(** ** Handles handed out and handles used *)

Lemma ev_handle_zip {T} (mk : T -> Call) (xs : list T) (hs : list nat) :
  length xs = length hs ->
  ev_handle <$> zip_with (fun x h => Build_Event (mk x) (Done h)) xs hs = hs.
Proof.
  revert hs. induction xs as [|x xs IH]; intros [|h hs] Hlen; simpl in *;
    try done.
  f_equal. apply IH. lia.
Qed.

Lemma doConcurrent_zero {S} sch (fn : Z -> M S (option Err)) s :
  doConcurrent sch 0 fn s = Ok None s.
Proof.
  unfold doConcurrent. simpl.
  assert (pick_order (launch sch) (@nil nat) = []) as ->.
  { apply Permutation_nil_r. apply pick_order_perm. }
  simpl. unfold bind, ret.
  assert (pick_order (deliver sch) (@nil (option Err)) = []) as ->.
  { apply Permutation_nil_r. apply pick_order_perm. }
  done.
Qed.

Lemma doConcurrent_negative {S} sch n (fn : Z -> M S (option Err)) s :
  n < 0 -> doConcurrent sch n fn s = Panic "makechan: size out of range".
Proof.
  intros Hn. unfold doConcurrent. by assert ((n <? 0) = true) as -> by lia.
Qed.

Lemma last_error_all_equal (received : list (option Err)) e :
  Some e ∈ received ->
  (forall e', Some e' ∈ received -> e' = e) ->
  last_error received = Some e.
Proof.
  intros Hin Hall. unfold last_error.
  destruct (last (omap id received)) as [e'|] eqn:Hlast.
  - f_equal. apply Hall.
    apply last_Some in Hlast as [l' Hl'].
    assert (e' ∈ omap id received) as He'.
    { rewrite Hl'. apply elem_of_app. right. by apply list_elem_of_singleton. }
    apply list_elem_of_omap in He' as (o & Ho & Hid). simpl in Hid. by subst.
  - apply last_None in Hlast.
    assert (e ∈ omap id received) as He.
    { apply list_elem_of_omap. by exists (Some e). }
    rewrite Hlast in He. by apply not_elem_of_nil in He.
Qed.

(** ** The observed run of a fan-out *)

Lemma doConcurrent_observed_run {S} (sch : Sched) (n : Z)
    (fn : Z -> M S (option Err)) (s : S) :
  0 <= n ->
  (forall i s0, 0 <= i < n -> exists e s', fn i s0 = Ok e s') ->
  exists r s' calls,
    doConcurrent sch n fn s = Ok r s' /\
    doConcurrent sch n (observed fn) (s, []) = Ok r (s', calls) /\
    fst <$> calls ≡ₚ Z.of_nat <$> seq 0 (Z.to_nat n) /\
    r = last_error (pick_order (deliver sch) (snd <$> calls)).
Proof.
  intros Hn Htot. unfold doConcurrent.
  assert ((n <? 0) = false) as -> by lia.
  set (order := pick_order (launch sch) (seq 0 (Z.to_nat n))).
  assert (order ≡ₚ seq 0 (Z.to_nat n)) as Hperm by apply pick_order_perm.
  destruct (run_goroutines_observed fn order) with (s := s) (tr := @nil (Z * option Err))
    as (sent & s' & Hrun & Hobs & Hlen).
  { intros i s0 Hi. apply Htot. rewrite Hperm in Hi.
    apply elem_of_seq in Hi. lia. }
  simpl in Hobs.
  exists (collect (pick_order (deliver sch) sent)), s',
         (zip (Z.of_nat <$> order) sent).
  assert (snd <$> zip (Z.of_nat <$> order) sent = sent) as Hsnd
    by (apply snd_zip; rewrite length_fmap; lia).
  assert (fst <$> zip (Z.of_nat <$> order) sent = Z.of_nat <$> order) as Hfst
    by (apply fst_zip; rewrite length_fmap; lia).
  unfold bind. rewrite Hrun, Hobs. simpl.
  split; [done|]. split; [done|]. split; [by rewrite Hfst, Hperm|].
  rewrite Hsnd. apply collect_last.
Qed.

(** ** Two closures that agree along a run *)

Lemma run_goroutines_agree {S} (fn1 fn2 : Z -> M S (option Err))
    (J : list nat -> S -> Prop) :
  (forall i rest s,
      J (i :: rest) s -> i ∉ rest ->
      fn1 (Z.of_nat i) s = fn2 (Z.of_nat i) s /\
      forall e s', fn2 (Z.of_nat i) s = Ok e s' -> J rest s') ->
  forall rest s,
    NoDup rest -> J rest s ->
    run_goroutines fn1 rest s = run_goroutines fn2 rest s.
Proof.
  intros Hstep. induction rest as [|i rest IH]; intros s Hnd HJ; [done|].
  apply NoDup_cons in Hnd as [Hi Hnd].
  destruct (Hstep i rest s HJ Hi) as [Heq Hnext].
  simpl. unfold bind at 1 3. rewrite Heq.
  destruct (fn2 (Z.of_nat i) s) as [e s'|msg] eqn:Hfn; [|done].
  unfold bind. by rewrite (IH s' Hnd (Hnext e s' eq_refl)).
Qed.

Lemma store_same p d w :
  heap w !! p = Some d -> {| heap := <[p := d]> (heap w); log := log w |} = w.
Proof. intros Hp. destruct w as [hp lg]. simpl in *. by rewrite insert_id. Qed.

Lemma set_readOnlyDBs_same d : set_readOnlyDBs (readOnlyDBs d) d = d.
Proof. by destruct d. Qed.

Lemma Part001_closure_agrees drv p driverName (conns : list string) i rest w :
  places_pending p (length conns) (i :: rest) w -> i ∉ rest ->
  (if Z.of_nat i =? 0 then
     dsn <- index conns (Z.of_nat i) ;;
     r <- call_handle drv (OpenCall driverName dsn) ;;
     d0 <- load p ;;
     store p (set_readWriteDB (fst r) d0) ;;;
     ret (snd r)
   else
     dsn <- index conns (Z.of_nat i) ;;
     r <- call_handle drv (OpenCall driverName dsn) ;;
     match snd r with
     | Some e => ret (Some e)
     | None =>
         d0 <- load p ;;
         ros <- set_index (readOnlyDBs d0) (Z.of_nat i - 1) (fst r) ;;
         store p (set_readOnlyDBs ros d0) ;;;
         ret (snd r)
     end) w
  = (if Z.of_nat i =? 0 then
       dsn <- index conns (Z.of_nat i) ;;
       r <- call_handle drv (OpenCall driverName dsn) ;;
       d0 <- load p ;;
       store p (set_readWriteDB (fst r) d0) ;;;
       ret (snd r)
     else
       dsn <- index conns (Z.of_nat i) ;;
       r <- call_handle drv (OpenCall driverName dsn) ;;
       d0 <- load p ;;
       ros <- set_index (readOnlyDBs d0) (Z.of_nat i - 1) (fst r) ;;
       store p (set_readOnlyDBs ros d0) ;;;
       ret (snd r)) w /\
  forall e w',
    (if Z.of_nat i =? 0 then
       dsn <- index conns (Z.of_nat i) ;;
       r <- call_handle drv (OpenCall driverName dsn) ;;
       d0 <- load p ;;
       store p (set_readWriteDB (fst r) d0) ;;;
       ret (snd r)
     else
       dsn <- index conns (Z.of_nat i) ;;
       r <- call_handle drv (OpenCall driverName dsn) ;;
       d0 <- load p ;;
       ros <- set_index (readOnlyDBs d0) (Z.of_nat i - 1) (fst r) ;;
       store p (set_readOnlyDBs ros d0) ;;;
       ret (snd r)) w = Ok e w' ->
    places_pending p (length conns) rest w'.
Proof.
  intros (d & Hp & Hlen & Hnil) Hi.
  destruct i as [|j].
  - change (Z.of_nat 0 =? 0) with true. cbv iota. split; [done|].
    intros e w' Hrun.
    apply bind_Ok in Hrun as (dsn & w0 & Hidx & Hrun).
    apply index_inv in Hidx as (-> & _).
    unfold bind, call_handle, bind, call, ret, load, store in Hrun.
    cbn [heap log] in Hrun. rewrite Hp in Hrun. inversion Hrun; subst e w'.
    eexists. cbn [heap]. rewrite lookup_insert_eq. split; [done|].
    split; [done|]. intros k Hk. apply Hnil. by right.
  - rewrite succ_not_zero.
    destruct (Hnil j) as [Hj Hslot]; [by left|].
    assert (conns !! Datatypes.S j = Some (conns !!! Datatypes.S j)) as Hseg
      by by apply list_lookup_lookup_total_lt.
    unfold bind, call_handle, bind, call, ret.
    rewrite !(index_Ok conns (Z.of_nat (Datatypes.S j)) (conns !!! Datatypes.S j))
      by (rewrite ?Nat2Z.id; done || lia).
    cbn [fst snd heap log].
    destruct (drv (log w) (OpenCall driverName (conns !!! Datatypes.S j)))
      as [e|v] eqn:Hr; cbn [reply_err reply_handle];
      unfold load, store; cbn [heap log]; rewrite ?Hp;
      rewrite !set_index_pred by handle_lia; cbn [heap log].
    + split.
      * rewrite list_insert_id by done. rewrite set_readOnlyDBs_same.
        by rewrite insert_id.
      * intros e' w' Hrun. inversion Hrun; subst e' w'.
        eexists. cbn [heap]. rewrite lookup_insert_eq. split; [done|].
        cbn [readOnlyDBs set_readOnlyDBs]. rewrite length_insert.
        split; [done|]. intros k Hk.
        destruct (Hnil k) as [Hkn Hkslot]; [by right|].
        split; [done|].
        rewrite list_lookup_insert_ne; [done|].
        intros ->. by apply Hi.
    + split; [done|].
      intros e' w' Hrun. inversion Hrun; subst e' w'.
      eexists. cbn [heap]. rewrite lookup_insert_eq. split; [done|].
      cbn [readOnlyDBs set_readOnlyDBs]. rewrite length_insert.
      split; [done|]. intros k Hk.
      destruct (Hnil k) as [Hkn Hkslot]; [by right|].
      split; [done|].
      rewrite list_lookup_insert_ne; [done|].
      intros ->. by apply Hi.
Qed.

(** ** Stepping through binds *)

Lemma bind_step {S A B} (m : M S A) (k : A -> M S B) s a s' :
  m s = Ok a s' -> bind m k s = k a s'.
Proof. intros Hm. unfold bind. by rewrite Hm. Qed.

Lemma bind_assoc {S A B C} (m : M S A) (f : A -> M S B) (g : B -> M S C) s :
  bind (bind m f) g s = bind m (fun a => bind (f a) g) s.
Proof. unfold bind. by destruct (m s). Qed.

Lemma bind_cong {S A B} (m1 m2 : M S A) (k : A -> M S B) s :
  m1 s = m2 s -> bind m1 k s = bind m2 k s.
Proof. intros Hm. unfold bind. by rewrite Hm. Qed.

Lemma bind_post {S A B} (m : M S A) (k1 k2 : A -> M S B) (g : B -> B) s :
  (forall a s', k1 a s' = match k2 a s' with
                          | Ok res w' => Ok (g res) w'
                          | Panic msg => Panic msg
                          end) ->
  bind m k1 s = match bind m k2 s with
                | Ok res w' => Ok (g res) w'
                | Panic msg => Panic msg
                end.
Proof. intros Hk. unfold bind. destruct (m s); [apply Hk|done]. Qed.

Lemma doConcurrent_agree {S} sch n (fn1 fn2 : Z -> M S (option Err)) s :
  run_goroutines fn1 (pick_order (launch sch) (seq 0 (Z.to_nat n))) s
  = run_goroutines fn2 (pick_order (launch sch) (seq 0 (Z.to_nat n))) s ->
  doConcurrent sch n fn1 s = doConcurrent sch n fn2 s.
Proof.
  intros Hrun. unfold doConcurrent. destruct (n <? 0); [done|].
  by apply bind_cong.
Qed.

(** ** Requests return *)










(** * The fan-out executor *)

(** C4: for every [n >= 0] and every per-index operation that returns,
    [doConcurrent] returns; it evaluates the operation exactly once at each
    index [0 .. n-1], whatever the values returned (the record of the
    observed run is a permutation of the indices); it returns nil exactly
    when every evaluation returned nil, and otherwise the last non-nil
    value in the order in which the collecting loop received them. *)
Theorem doConcurrent_runs_all_keeps_last_error {S} (sch : Sched) (n : Z)
    (fn : Z -> M S (option Err)) (s : S) :
  0 <= n ->
  (forall i s0, 0 <= i < n -> exists e s', fn i s0 = Ok e s') ->
  exists r s' calls,
    doConcurrent sch n fn s = Ok r s' /\
    doConcurrent sch n (observed fn) (s, []) = Ok r (s', calls) /\
    fst <$> calls ≡ₚ Z.of_nat <$> seq 0 (Z.to_nat n) /\
    (r = None <-> Forall (fun c => snd c = None) calls) /\
    r = last_error (pick_order (deliver sch) (snd <$> calls)).
Proof.
  intros Hn Htot. unfold doConcurrent.
  assert ((n <? 0) = false) as -> by lia.
  set (order := pick_order (launch sch) (seq 0 (Z.to_nat n))).
  assert (order ≡ₚ seq 0 (Z.to_nat n)) as Hperm by apply pick_order_perm.
  destruct (run_goroutines_observed fn order) with (s := s) (tr := @nil (Z * option Err))
    as (sent & s' & Hrun & Hobs & Hlen).
  { intros i s0 Hi. apply Htot. rewrite Hperm in Hi.
    apply elem_of_seq in Hi. lia. }
  simpl in Hobs.
  exists (collect (pick_order (deliver sch) sent)), s',
         (zip (Z.of_nat <$> order) sent).
  assert (snd <$> zip (Z.of_nat <$> order) sent = sent) as Hsnd.
  { apply snd_zip. rewrite length_fmap. lia. }
  assert (fst <$> zip (Z.of_nat <$> order) sent = Z.of_nat <$> order) as Hfst.
  { apply fst_zip. rewrite length_fmap. lia. }
  unfold bind. rewrite Hrun, Hobs. simpl.
  split; [done|]. split; [done|]. split; [|split].
  - rewrite Hfst. by rewrite Hperm.
  - rewrite collect_None, pick_order_perm.
    rewrite <- Hsnd at 1. by rewrite Forall_fmap.
  - rewrite Hsnd. apply collect_last.
Qed.

Lemma doConcurrent_runs_all_keeps_last_error_witness :
  exists r s' calls,
    doConcurrent sample_sched 3 sample_fn tt = Ok r s' /\
    doConcurrent sample_sched 3 (observed sample_fn) (tt, []) = Ok r (s', calls) /\
    fst <$> calls ≡ₚ Z.of_nat <$> seq 0 (Z.to_nat 3) /\
    (r = None <-> Forall (fun c => snd c = None) calls) /\
    r = last_error (pick_order (deliver sample_sched) (snd <$> calls)).
Proof.
  apply (doConcurrent_runs_all_keeps_last_error sample_sched 3 sample_fn tt).
  - lia.
  - intros i s0 _. unfold sample_fn.
    destruct (i =? 1); [|destruct (i =? 2)]; eexists _, _; reflexivity.
Defined.

(** * Routing of reads *)

(** C1 (as amended): for every connection set with [R >= 1] replicas, the
    call of [ReadOnly] made when the counter holds [c] returns
    [replicas[((c+1) mod 2^64) mod R]], which is [replicas[(c+1) mod R]]
    whenever [c + 1 < 2^64]; and [R] consecutive calls that start at a
    counter value [c] with [c + R < 2^64] return the replicas in cyclic
    order, each of them exactly once. *)
Theorem ReadOnly_round_robin (p : nat) (d : DBImplementation) (w : World) :
  heap w !! p = Some d -> conn_inv d -> count_inv d ->
  1 <= len (readOnlyDBs d) <= max_int ->
  (exists h,
      readOnlyDBs d
        !! Z.to_nat (((readOnlyCount d + 1) mod 2 ^ 64) mod len (readOnlyDBs d))
      = Some h /\
      ReadOnly p w = Ok h (counted p d w)) /\
  (readOnlyCount d + 1 < 2 ^ 64 ->
     ((readOnlyCount d + 1) mod 2 ^ 64) mod len (readOnlyDBs d)
     = (readOnlyCount d + 1) mod len (readOnlyDBs d)) /\
  (readOnlyCount d + len (readOnlyDBs d) < 2 ^ 64 ->
     exists hs w',
       repeat_call (length (readOnlyDBs d)) (ReadOnly p) w = Ok hs w' /\
       (forall j, (j < length (readOnlyDBs d))%nat ->
          hs !! j = readOnlyDBs d
                      !! Z.to_nat ((readOnlyCount d + 1 + Z.of_nat j)
                                     mod len (readOnlyDBs d))) /\
       hs ≡ₚ readOnlyDBs d).
Proof.
  intros Hp Hinv Hc HR. red in Hc. split; [|split].
  - apply (ReadOnly_Ok p d w Hp Hinv HR).
  - intros Hsmall.
    rewrite (Z.mod_small (readOnlyCount d + 1) (2 ^ 64)); [done|lia].
  - intros Hwin.
    destruct (ReadOnly_repeat (length (readOnlyDBs d)) p d w Hp Hinv HR)
      as (hs & w' & Hrun & Hlen & Hsel & _ & _); [lia|done|].
    exists hs, w'. split; [done|]. split; [done|].
    set (ros := readOnlyDBs d) in *.
    set (idx := fun j : nat =>
           Z.to_nat ((readOnlyCount d + 1 + Z.of_nat j) mod Z.of_nat (length ros))).
    assert (hs = (fun i => ros !!! i) <$> (idx <$> seq 0 (length ros))) as ->.
    { apply list_eq. intros j. rewrite !list_lookup_fmap.
      destruct (decide (j < length ros)%nat) as [Hj|Hj].
      - rewrite Hsel, lookup_seq_lt by done. simpl.
        apply list_lookup_lookup_total_lt.
        pose proof (Z.mod_pos_bound (readOnlyCount d + 1 + Z.of_nat j) (len ros)).
        unfold idx, len in *. lia.
      - rewrite lookup_seq_ge by lia. simpl.
        apply lookup_ge_None_2. lia. }
    unfold idx. rewrite rotation_Permutation.
    by rewrite lookup_total_fmap_seq.
Qed.

Lemma ReadOnly_round_robin_witness :
  (exists h,
      readOnlyDBs (wrap_db 6)
        !! Z.to_nat (((readOnlyCount (wrap_db 6) + 1) mod 2 ^ 64)
                       mod len (readOnlyDBs (wrap_db 6)))
      = Some h /\
      ReadOnly 0 (wrap_world 6) = Ok h (counted 0 (wrap_db 6) (wrap_world 6))) /\
  (readOnlyCount (wrap_db 6) + 1 < 2 ^ 64 ->
     ((readOnlyCount (wrap_db 6) + 1) mod 2 ^ 64) mod len (readOnlyDBs (wrap_db 6))
     = (readOnlyCount (wrap_db 6) + 1) mod len (readOnlyDBs (wrap_db 6))) /\
  (readOnlyCount (wrap_db 6) + len (readOnlyDBs (wrap_db 6)) < 2 ^ 64 ->
     exists hs w',
       repeat_call (length (readOnlyDBs (wrap_db 6))) (ReadOnly 0) (wrap_world 6)
       = Ok hs w' /\
       (forall j, (j < length (readOnlyDBs (wrap_db 6)))%nat ->
          hs !! j = readOnlyDBs (wrap_db 6)
                      !! Z.to_nat ((readOnlyCount (wrap_db 6) + 1 + Z.of_nat j)
                                     mod len (readOnlyDBs (wrap_db 6)))) /\
       hs ≡ₚ readOnlyDBs (wrap_db 6)).
Proof.
  apply (ReadOnly_round_robin 0 (wrap_db 6) (wrap_world 6)).
  - reflexivity.
  - reflexivity.
  - by vm_compute.
  - by vm_compute.
Defined.

(** C1, as stated, fails where the 64-bit counter wraps.  With three
    replicas and the counter at [2^64 - 1] the call returns [replicas[0]]
    (handle 11) and not [replicas[(c+1) mod 3] = replicas[1]] (handle 12);
    and the three calls that start at [2^64 - 3] return [13; 11; 11], so
    the replica 12 is skipped and the replica 11 is selected twice. *)
Lemma ReadOnly_round_robin_counterexample :
  conn_inv (wrap_db (2 ^ 64 - 1)) /\
  ReadOnly 0 (wrap_world (2 ^ 64 - 1)) = Ok 11%nat (wrap_world 0) /\
  ~ (exists h w',
        ReadOnly 0 (wrap_world (2 ^ 64 - 1)) = Ok h w' /\
        readOnlyDBs (wrap_db (2 ^ 64 - 1))
          !! Z.to_nat ((readOnlyCount (wrap_db (2 ^ 64 - 1)) + 1)
                         mod len (readOnlyDBs (wrap_db (2 ^ 64 - 1))))
        = Some h) /\
  repeat_call 3 (ReadOnly 0) (wrap_world (2 ^ 64 - 3))
  = Ok [13; 11; 11]%nat (wrap_world 0) /\
  ~ ([13; 11; 11]%nat ≡ₚ readOnlyDBs (wrap_db (2 ^ 64 - 3))).
Proof.
  assert (ReadOnly 0 (wrap_world (2 ^ 64 - 1)) = Ok 11%nat (wrap_world 0)) as Hread
    by (vm_compute; reflexivity).
  split; [reflexivity|]. split; [exact Hread|]. split; [|split].
  - intros (h & w' & Hrun & Hclaim). rewrite Hread in Hrun.
    inversion Hrun; subst h. vm_compute in Hclaim. discriminate.
  - vm_compute. reflexivity.
  - intros Hperm.
    assert (12%nat ∈ [13; 11; 11]%nat) as Hin.
    { rewrite Hperm. simpl. apply list_elem_of_In. simpl. tauto. }
    apply list_elem_of_In in Hin. simpl in Hin. lia.
Qed.

(** C2: for every connection set with zero replicas, [ReadOnly] returns
    the primary handle and leaves the state as it was; and a statement
    without replica handles routes [Query], [QueryContext], [QueryRow] and
    [QueryRowContext] to its primary prepared handle. *)
Theorem zero_replicas_read_the_primary (drv : Oracle) (p : nat)
    (d : DBImplementation) (s : stmt) (w : World) :
  heap w !! p = Some d -> conn_inv d -> readOnlyDBs d = [] -> rostmts s = [] ->
  ReadOnly p w = Ok (readWriteDB d) w /\
  ROStmt s w = Ok (rwstmt s) w /\
  (forall args,
     stmt_Query drv s args w
     = call drv (StmtCall (rwstmt s) (OpStmtQuery args)) w) /\
  (forall ctx args,
     stmt_QueryContext drv s ctx args w
     = call drv (StmtCall (rwstmt s) (OpStmtQueryContext ctx args)) w) /\
  (forall args,
     stmt_QueryRow drv s args w
     = call drv (StmtCall (rwstmt s) (OpStmtQueryRow args)) w) /\
  (forall ctx args,
     stmt_QueryRowContext drv s ctx args w
     = call drv (StmtCall (rwstmt s) (OpStmtQueryRowContext ctx args)) w).
Proof.
  intros Hp Hinv Hros Hs.
  split.
  { apply ReadOnly_primary; [done|]. red in Hinv. by rewrite Hinv, Hros. }
  split; [by apply ROStmt_primary|].
  unfold stmt_Query, stmt_QueryContext, stmt_QueryRow, stmt_QueryRowContext, bind.
  rewrite (ROStmt_primary s w Hs). done.
Qed.

Lemma zero_replicas_read_the_primary_witness :
  ReadOnly 0 solo_world = Ok (readWriteDB solo_db) solo_world /\
  ROStmt solo_stmt solo_world = Ok (rwstmt solo_stmt) solo_world /\
  (forall args,
     stmt_Query steady_driver solo_stmt args solo_world
     = call steady_driver (StmtCall (rwstmt solo_stmt) (OpStmtQuery args)) solo_world) /\
  (forall ctx args,
     stmt_QueryContext steady_driver solo_stmt ctx args solo_world
     = call steady_driver
         (StmtCall (rwstmt solo_stmt) (OpStmtQueryContext ctx args)) solo_world) /\
  (forall args,
     stmt_QueryRow steady_driver solo_stmt args solo_world
     = call steady_driver (StmtCall (rwstmt solo_stmt) (OpStmtQueryRow args)) solo_world) /\
  (forall ctx args,
     stmt_QueryRowContext steady_driver solo_stmt ctx args solo_world
     = call steady_driver
         (StmtCall (rwstmt solo_stmt) (OpStmtQueryRowContext ctx args)) solo_world).
Proof.
  apply (zero_replicas_read_the_primary steady_driver 0 solo_db solo_stmt solo_world);
    reflexivity.
Defined.

(** * Routing of writes *)

(** C3: once a connection set has the primary [h], every later call of
    [ReadWrite], after any sequence of requests to any connection set or
    statement, returns [h], and [Exec], [ExecContext], [Begin] and
    [BeginTx] make exactly one driver call, on [h], and return its reply.
    [WrapDBs] makes the first handle supplied the primary; [Open] makes
    the primary the handle that the driver returned for segment 0. *)
Theorem ReadWrite_is_the_primary (drv : Oracle) :
  (forall first rest w,
      exists p w', WrapDBs (first :: rest) w = Ok p w' /\ primary_at p first w') /\
  (forall sch driverName dataSourceName w p w',
      Open drv sch driverName dataSourceName w = Ok (Some p, None) w' ->
      exists h replicas evs,
        primary_at p h w' /\
        log w' = log w ++ evs /\
        evs ≡ₚ zip_with (fun seg c => Build_Event (OpenCall driverName seg) (Done c))
                        (strings_Split dataSourceName ";") (h :: replicas)) /\
  (forall p h w l w',
      primary_at p h w ->
      run_apis drv l w = Ok tt w' ->
      primary_at p h w' /\
      ReadWrite p w' = Ok h w' /\
      (forall q args,
         Exec drv p q args w' = call drv (DBCall h (OpExec q args)) w') /\
      (forall ctx q args,
         ExecContext drv p ctx q args w'
         = call drv (DBCall h (OpExecContext ctx q args)) w') /\
      Begin drv p w' = call drv (DBCall h OpBegin) w' /\
      (forall ctx opts,
         BeginTx drv p ctx opts w' = call drv (DBCall h (OpBeginTx ctx opts)) w')).
Proof.
  split; [|split].
  - intros first rest w. eexists _, _. split; [apply WrapDBs_cons|].
    eexists. simpl. by rewrite lookup_insert_eq.
  - intros sch driverName dataSourceName w p w' Hopen.
    pose proof (Open_spec drv sch driverName dataSourceName w) as Hspec.
    unfold wp in Hspec. rewrite Hopen in Hspec.
    destruct Hspec as (d & evs & _ & Hheap & _ & _ & _ & Hlog & _ & Hres).
    destruct Hres as [(e & Hbad & _)|[Hgood Hevs]]; [done|].
    inversion Hgood; subst p.
    exists (readWriteDB d), (readOnlyDBs d), evs.
    split; [|done]. exists d. by rewrite Hheap, lookup_insert_eq.
  - intros p h w l w' (d & Hp & Hh) Hrun.
    destruct (run_apis_same_conns drv l w w' Hrun p d Hp) as (c & Hp').
    assert (readWriteDB (set_readOnlyCount c d) = h) as Hh' by done.
    split; [by eexists|].
    split; [unfold ReadWrite, bind, load; by rewrite Hp', Hh'|].
    unfold Exec, ExecContext, Begin, BeginTx.
    repeat split; intros; by rewrite (delegate_ReadWrite drv p _ w' _ Hp'), Hh'.
Qed.

Lemma ReadWrite_is_the_primary_witness :
  primary_at 0 10%nat
    (final_state (run_apis flaky_driver sample_program) (wrap_world 6)) /\
  ReadWrite 0 (final_state (run_apis flaky_driver sample_program) (wrap_world 6))
  = Ok 10%nat (final_state (run_apis flaky_driver sample_program) (wrap_world 6)).
Proof.
  destruct (ReadWrite_is_the_primary flaky_driver) as (_ & _ & Hfixed).
  destruct (Hfixed 0%nat 10%nat (wrap_world 6) sample_program
              (final_state (run_apis flaky_driver sample_program) (wrap_world 6)))
    as (Hprim & Hrw & _).
  - exists (wrap_db 6). split; reflexivity.
  - vm_compute. reflexivity.
  - split; [exact Hprim|exact Hrw].
Defined.

(** * The shared counter *)

(** C5 (as amended): a statement routes its reads through the counter of
    the connection set that owns it.  When the counter holds [c], a call of
    [ReadOnly] selects the replica of index [((c+1) mod 2^64) mod R] and
    the call of the statement's [Query] that follows makes its one driver
    call on the replica handle of index [((c+2) mod 2^64) mod R], leaving
    the counter at [(c+2) mod 2^64]; the second index is the first plus
    one modulo [R] whenever [c + 2 < 2^64]. *)
Theorem reads_share_one_counter (drv : Oracle) (p : nat) (d : DBImplementation)
    (s : stmt) (args : list Value) (w : World) :
  heap w !! p = Some d -> conn_inv d -> count_inv d -> stmt_inv p d s ->
  1 <= len (readOnlyDBs d) <= max_int ->
  exists h hs r w1 w2,
    ReadOnly p w = Ok h w1 /\
    readOnlyDBs d
      !! Z.to_nat (((readOnlyCount d + 1) mod 2 ^ 64) mod len (readOnlyDBs d))
      = Some h /\
    stmt_Query drv s args w1 = Ok r w2 /\
    rostmts s
      !! Z.to_nat (((readOnlyCount d + 2) mod 2 ^ 64) mod len (readOnlyDBs d))
      = Some hs /\
    log w2 = log w ++ [Build_Event (StmtCall hs (OpStmtQuery args)) r] /\
    heap w2 !! p = Some (set_readOnlyCount ((readOnlyCount d + 2) mod 2 ^ 64) d) /\
    (readOnlyCount d + 2 < 2 ^ 64 ->
       ((readOnlyCount d + 2) mod 2 ^ 64) mod len (readOnlyDBs d)
       = ((((readOnlyCount d + 1) mod 2 ^ 64) mod len (readOnlyDBs d)) + 1)
           mod len (readOnlyDBs d)).
Proof.
  intros Hp Hinv Hc [Hdb Hlen] HR. red in Hc.
  destruct (ReadOnly_Ok p d w Hp Hinv HR) as (h & Hh & Hread).
  assert (len (rostmts s) = len (readOnlyDBs d)) as HlenZ
    by (unfold len; handle_lia).
  destruct (ROStmt_Ok p (set_readOnlyCount (AddUint64 (readOnlyCount d) 1) d) s
              (counted p d w)) as (hs & Hhs & Hro).
  { apply counted_lookup. }
  { done. }
  { by rewrite HlenZ. }
  simpl in Hhs. rewrite HlenZ in Hhs.
  assert (AddUint64 (AddUint64 (readOnlyCount d) 1) 1
          = (readOnlyCount d + 2) mod 2 ^ 64) as Htwo.
  { unfold AddUint64, uint64_modulus. rewrite Zplus_mod_idemp_l. f_equal. lia. }
  rewrite Htwo in Hhs.
  eexists h, hs, _, _, _.
  split; [exact Hread|]. split; [exact Hh|].
  split; [unfold stmt_Query, bind; rewrite Hro; reflexivity|].
  split; [exact Hhs|]. split; [done|]. split.
  - cbn [heap log counted]. rewrite lookup_insert_eq.
    simpl. by rewrite Htwo.
  - intros Hsmall.
    rewrite (Z.mod_small (readOnlyCount d + 2) (2 ^ 64)) by lia.
    rewrite (Z.mod_small (readOnlyCount d + 1) (2 ^ 64)) by lia.
    rewrite Zplus_mod_idemp_l. f_equal. lia.
Qed.

Lemma reads_share_one_counter_witness :
  exists h hs r w1 w2,
    ReadOnly 0 (wrap_world 6) = Ok h w1 /\
    readOnlyDBs (wrap_db 6)
      !! Z.to_nat (((readOnlyCount (wrap_db 6) + 1) mod 2 ^ 64)
                     mod len (readOnlyDBs (wrap_db 6)))
      = Some h /\
    stmt_Query flaky_driver wrap_stmt [VInt 1] w1 = Ok r w2 /\
    rostmts wrap_stmt
      !! Z.to_nat (((readOnlyCount (wrap_db 6) + 2) mod 2 ^ 64)
                     mod len (readOnlyDBs (wrap_db 6)))
      = Some hs /\
    log w2 = log (wrap_world 6)
             ++ [Build_Event (StmtCall hs (OpStmtQuery [VInt 1])) r] /\
    heap w2 !! 0%nat
      = Some (set_readOnlyCount ((readOnlyCount (wrap_db 6) + 2) mod 2 ^ 64)
                (wrap_db 6)) /\
    (readOnlyCount (wrap_db 6) + 2 < 2 ^ 64 ->
       ((readOnlyCount (wrap_db 6) + 2) mod 2 ^ 64) mod len (readOnlyDBs (wrap_db 6))
       = ((((readOnlyCount (wrap_db 6) + 1) mod 2 ^ 64)
             mod len (readOnlyDBs (wrap_db 6))) + 1)
           mod len (readOnlyDBs (wrap_db 6))).
Proof.
  apply (reads_share_one_counter flaky_driver 0 (wrap_db 6) wrap_stmt
           [VInt 1] (wrap_world 6)).
  - reflexivity.
  - reflexivity.
  - by vm_compute.
  - split; reflexivity.
  - by vm_compute.
Defined.

(** C5, as stated, fails where the 64-bit counter wraps between the two
    calls.  With three replicas and the counter at [2^64 - 2], [ReadOnly]
    selects index 0 (handle 11) and the statement's [Query] that follows
    makes its call on the prepared handle of index 0 again (handle 21),
    not on that of index 1 (handle 22): there is no [N] such that the
    first call selects index [N] and the second index [(N+1) mod 3]. *)
Lemma reads_share_one_counter_counterexample :
  stmt_inv 0 (wrap_db (2 ^ 64 - 2)) wrap_stmt /\
  ReadOnly 0 (wrap_world (2 ^ 64 - 2)) = Ok 11%nat (wrap_world (2 ^ 64 - 1)) /\
  stmt_Query steady_driver wrap_stmt [] (wrap_world (2 ^ 64 - 1))
  = Ok (Done 7)
       {| heap := heap (wrap_world 0);
          log := [Build_Event (StmtCall 21%nat (OpStmtQuery [])) (Done 7)] |} /\
  ~ (exists (N : nat) h hs r w1 w2,
        ReadOnly 0 (wrap_world (2 ^ 64 - 2)) = Ok h w1 /\
        readOnlyDBs (wrap_db (2 ^ 64 - 2)) !! N = Some h /\
        stmt_Query steady_driver wrap_stmt [] w1 = Ok r w2 /\
        rostmts wrap_stmt !! ((N + 1) mod 3)%nat = Some hs /\
        log w2 = log w1 ++ [Build_Event (StmtCall hs (OpStmtQuery [])) r]).
Proof.
  assert (ReadOnly 0 (wrap_world (2 ^ 64 - 2)) = Ok 11%nat (wrap_world (2 ^ 64 - 1)))
    as Hread by (vm_compute; reflexivity).
  assert (stmt_Query steady_driver wrap_stmt [] (wrap_world (2 ^ 64 - 1))
          = Ok (Done 7)
               {| heap := heap (wrap_world 0);
                  log := [Build_Event (StmtCall 21%nat (OpStmtQuery [])) (Done 7)] |})
    as Hquery by (vm_compute; reflexivity).
  split; [split; reflexivity|]. split; [exact Hread|]. split; [exact Hquery|].
  intros (N & h & hs & r & w1 & w2 & Hrun & HN & Hq & Hhs & Hlog).
  rewrite Hread in Hrun. inversion Hrun; subst h w1.
  rewrite Hquery in Hq. inversion Hq; subst r w2.
  destruct N as [|[|[|N]]]; simpl in HN; try discriminate.
  simpl in Hhs. inversion Hhs; subst hs. simpl in Hlog. discriminate.
Qed.




(** * Construction *)

(** C7: [WrapDBs] panics exactly when the list of handles is empty.
    Otherwise it returns a fresh connection set whose primary is the first
    handle and whose replicas are the remaining handles in order; from a
    one-element list the replica list is empty. *)
Theorem WrapDBs_needs_a_primary (dbs : list SqlDB) (w : World) :
  ((exists msg, WrapDBs dbs w = Panic msg) <-> dbs = []) /\
  match dbs with
  | [] => WrapDBs dbs w = Panic "at least one RW connection is required"
  | first :: rest =>
      exists p w' d,
        WrapDBs dbs w = Ok p w' /\
        heap w !! p = None /\
        heap w' = <[p := d]> (heap w) /\
        log w' = log w /\
        readWriteDB d = first /\
        readOnlyDBs d = rest /\
        (length dbs = 1%nat -> readOnlyDBs d = []) /\
        conn_inv d /\
        readOnlyCount d = 0
  end.
Proof.
  destruct dbs as [|first rest].
  - split; [|done]. split; [done|]. intros _. by eexists.
  - split.
    + rewrite WrapDBs_cons. split; [by intros [msg Hmsg]|done].
    + eexists _, _, _. split; [apply WrapDBs_cons|].
      split; [apply fresh_unused|]. cbn [heap log readWriteDB readOnlyDBs
                                           totalConnections readOnlyCount].
      repeat split; try done.
      * intros Hone. simpl in Hone. by destruct rest.
      * red. simpl. unfold len. simpl. lia.
Qed.

Lemma WrapDBs_needs_a_primary_witness :
  ((exists msg, WrapDBs [10%nat] empty_world = Panic msg) <-> [10%nat] = []) /\
  exists p w' d,
    WrapDBs [10%nat] empty_world = Ok p w' /\
    heap empty_world !! p = None /\
    heap w' = <[p := d]> (heap empty_world) /\
    log w' = log empty_world /\
    readWriteDB d = 10%nat /\
    readOnlyDBs d = [] /\
    (length [10%nat] = 1%nat -> readOnlyDBs d = []) /\
    conn_inv d /\
    readOnlyCount d = 0.
Proof.
  exact (WrapDBs_needs_a_primary [10%nat] empty_world).
Defined.

(** * Pool configuration *)

(** C9: each of [SetMaxIdleConns], [SetMaxOpenConns], [SetConnMaxLifetime]
    and [SetConnMaxIdleTime] returns without a value, leaves the store
    alone, and makes the corresponding driver call with the same argument
    once on every connection, one after the other: first on the primary,
    then on each replica in list order. *)
Theorem pool_settings_in_order (drv : Oracle) (p : nat) (d : DBImplementation)
    (w : World) :
  heap w !! p = Some d ->
  (forall n, exists w' evs,
      SetMaxIdleConns drv p n w = Ok tt w' /\ heap w' = heap w /\
      log w' = log w ++ evs /\
      ev_call <$> evs = (fun h => DBCall h (OpSetMaxIdleConns n)) <$> connections d) /\
  (forall n, exists w' evs,
      SetMaxOpenConns drv p n w = Ok tt w' /\ heap w' = heap w /\
      log w' = log w ++ evs /\
      ev_call <$> evs = (fun h => DBCall h (OpSetMaxOpenConns n)) <$> connections d) /\
  (forall t, exists w' evs,
      SetConnMaxLifetime drv p t w = Ok tt w' /\ heap w' = heap w /\
      log w' = log w ++ evs /\
      ev_call <$> evs = (fun h => DBCall h (OpSetConnMaxLifetime t)) <$> connections d) /\
  (forall t, exists w' evs,
      SetConnMaxIdleTime drv p t w = Ok tt w' /\ heap w' = heap w /\
      log w' = log w ++ evs /\
      ev_call <$> evs = (fun h => DBCall h (OpSetConnMaxIdleTime t)) <$> connections d).
Proof.
  intros Hp.
  assert (forall op, exists w' evs,
    (d0 <- load p ;;
     call_void drv (DBCall (readWriteDB d0) op) ;;;
     d1 <- load p ;;
     for_each (readOnlyDBs d1) (fun roDB => call_void drv (DBCall roDB op))) w
    = Ok tt w' /\ heap w' = heap w /\ log w' = log w ++ evs /\
    ev_call <$> evs = (fun h => DBCall h op) <$> connections d) as Hrange.
  { intros op. unfold bind at 1. unfold load at 1. rewrite Hp.
    unfold bind at 1. unfold call_void at 1, bind, call, ret. cbn [heap log].
    unfold load at 1. cbn [heap log]. rewrite Hp.
    set (ev := Build_Event (DBCall (readWriteDB d) op)
                 (drv (log w) (DBCall (readWriteDB d) op))).
    destruct (for_each_calls drv (fun h => DBCall h op) (readOnlyDBs d)
                {| heap := heap w; log := log w ++ [ev] |})
      as (w' & Hrun & Hheap & evs & Hlog & Hcalls).
    exists w', (ev :: evs). cbn [heap log] in *.
    split; [done|]. split; [done|].
    split; [by rewrite Hlog, <- app_assoc|].
    unfold connections. by rewrite !fmap_cons, Hcalls. }
  split; [intros n; apply (Hrange (OpSetMaxIdleConns n))|].
  split; [intros n; apply (Hrange (OpSetMaxOpenConns n))|].
  split; [intros t; apply (Hrange (OpSetConnMaxLifetime t))|].
  intros t. unfold SetConnMaxIdleTime.
  unfold bind at 1. unfold load at 1. rewrite Hp.
  unfold bind at 1. unfold call_void at 1. unfold bind at 1. unfold call at 1.
  unfold bind at 1. unfold ret at 1. unfold bind at 1. unfold load at 1.
  cbn [heap log]. rewrite Hp.
  set (ev := Build_Event (DBCall (readWriteDB d) (OpSetConnMaxIdleTime t))
               (drv (log w) (DBCall (readWriteDB d) (OpSetConnMaxIdleTime t)))).
  destruct (for_each_index_calls drv p d
              (fun h => DBCall h (OpSetConnMaxIdleTime t))
              (length (readOnlyDBs d)) 0%nat
              {| heap := heap w; log := log w ++ [ev] |})
    as (w' & Hrun & Hheap & evs & Hlog & Hcalls); [done|simpl; lia|].
  exists w', (ev :: evs). cbn [heap log] in *.
  split; [done|]. split; [done|].
  split; [by rewrite Hlog, <- app_assoc|].
  unfold connections. rewrite !fmap_cons, Hcalls.
  by rewrite drop_0, firstn_all.
Qed.

Lemma pool_settings_in_order_witness :
  (forall n, exists w' evs,
      SetMaxIdleConns flaky_driver 0 n (wrap_world 6) = Ok tt w' /\
      heap w' = heap (wrap_world 6) /\
      log w' = log (wrap_world 6) ++ evs /\
      ev_call <$> evs
      = (fun h => DBCall h (OpSetMaxIdleConns n)) <$> connections (wrap_db 6)) /\
  (forall n, exists w' evs,
      SetMaxOpenConns flaky_driver 0 n (wrap_world 6) = Ok tt w' /\
      heap w' = heap (wrap_world 6) /\
      log w' = log (wrap_world 6) ++ evs /\
      ev_call <$> evs
      = (fun h => DBCall h (OpSetMaxOpenConns n)) <$> connections (wrap_db 6)) /\
  (forall t, exists w' evs,
      SetConnMaxLifetime flaky_driver 0 t (wrap_world 6) = Ok tt w' /\
      heap w' = heap (wrap_world 6) /\
      log w' = log (wrap_world 6) ++ evs /\
      ev_call <$> evs
      = (fun h => DBCall h (OpSetConnMaxLifetime t)) <$> connections (wrap_db 6)) /\
  (forall t, exists w' evs,
      SetConnMaxIdleTime flaky_driver 0 t (wrap_world 6) = Ok tt w' /\
      heap w' = heap (wrap_world 6) /\
      log w' = log (wrap_world 6) ++ evs /\
      ev_call <$> evs
      = (fun h => DBCall h (OpSetConnMaxIdleTime t)) <$> connections (wrap_db 6)).
Proof.
  apply (pool_settings_in_order flaky_driver 0 (wrap_db 6) (wrap_world 6)).
  reflexivity.
Defined.

(** * Prepared statements *)

(** C6: on a connection set that satisfies the invariant, [Prepare] and
    [PrepareContext] always return, having called the driver once on every
    connection.  They return an error exactly when one of those calls
    failed, and then the error is the one of a failed call and no
    statement is returned; otherwise they return a statement that belongs
    to this connection set and holds the handle prepared on the primary
    and, in the order of the replica list and in the same number, the
    handles prepared on the replicas. *)
Theorem Prepare_all_or_nothing (drv : Oracle) (p : nat) (d : DBImplementation)
    (sch : Sched) (w : World) :
  heap w !! p = Some d -> conn_inv d ->
  (forall query, exists res w',
      Prepare drv p sch query w = Ok res w' /\
      prepare_outcome p d (OpPrepare query) w res w') /\
  (forall ctx query, exists res w',
      PrepareContext drv p sch ctx query w = Ok res w' /\
      prepare_outcome p d (OpPrepareContext ctx query) w res w').
Proof.
  intros Hp Hinv. split.
  - intros query. by apply prepare_all_outcome.
  - intros ctx query. by apply prepare_all_outcome.
Qed.

Lemma Prepare_all_or_nothing_witness :
  (forall query, exists res w',
      Prepare flaky_driver 0 sample_sched query (wrap_world 6) = Ok res w' /\
      prepare_outcome 0 (wrap_db 6) (OpPrepare query) (wrap_world 6) res w') /\
  (forall ctx query, exists res w',
      PrepareContext flaky_driver 0 sample_sched ctx query (wrap_world 6) = Ok res w' /\
      prepare_outcome 0 (wrap_db 6) (OpPrepareContext ctx query) (wrap_world 6) res w').
Proof.
  apply (Prepare_all_or_nothing flaky_driver 0 (wrap_db 6) sample_sched (wrap_world 6));
    reflexivity.
Defined.

(** * The size invariant *)

(** C10: both constructors return connection sets with
    [totalConnections = 1 + len(readOnlyDBs)] ([Open] never panics, since
    splitting yields at least one segment, and its own fan-out stays in
    bounds); no sequence of requests changes the size or the handles of a
    connection set, so the invariant is kept; and under the invariant
    [Close], [Ping], [PingContext], [Prepare] and [PrepareContext] return
    without a panic under every schedule, as does [Close] on every
    statement that holds as many replica handles as there are replicas,
    in particular on every statement that [Prepare] returns. *)
Theorem size_invariant_keeps_fan_outs_in_bounds (drv : Oracle) :
  (forall dbs w p w',
      WrapDBs dbs w = Ok p w' ->
      exists d, heap w' !! p = Some d /\ conn_inv d) /\
  (forall sch driverName dataSourceName w,
      (1 <= length (strings_Split dataSourceName ";"))%nat /\
      exists res w',
        Open drv sch driverName dataSourceName w = Ok res w' /\
        forall p, fst res = Some p ->
                  exists d, heap w' !! p = Some d /\ conn_inv d) /\
  (forall p d w l w',
      heap w !! p = Some d -> conn_inv d ->
      run_apis drv l w = Ok tt w' ->
      exists d', heap w' !! p = Some d' /\ conn_inv d' /\
                 readOnlyDBs d' = readOnlyDBs d /\
                 totalConnections d' = totalConnections d) /\
  (forall p d w sch,
      heap w !! p = Some d -> conn_inv d ->
      (exists r w', Close drv p sch w = Ok r w') /\
      (exists r w', Ping drv p sch w = Ok r w') /\
      (forall ctx, exists r w', PingContext drv p sch ctx w = Ok r w') /\
      (forall q, exists r w',
          Prepare drv p sch q w = Ok r w' /\
          forall s, fst r = Some s -> stmt_inv p d s) /\
      (forall ctx q, exists r w',
          PrepareContext drv p sch ctx q w = Ok r w' /\
          forall s, fst r = Some s -> stmt_inv p d s) /\
      (forall s, stmt_inv p d s -> exists r w', stmt_Close drv s sch w = Ok r w')).
Proof.
  split; [|split; [|split]].
  - intros [|first rest] w p w' Hwrap; [done|].
    rewrite WrapDBs_cons in Hwrap. inversion Hwrap; subst. eexists.
    cbn [heap]. rewrite lookup_insert_eq. split; [done|].
    red. simpl. unfold len. simpl. lia.
  - intros sch driverName dataSourceName w.
    split; [apply strings_Split_length|].
    pose proof (Open_spec drv sch driverName dataSourceName w) as Hspec.
    apply wp_ok in Hspec
      as (res & w' & Hrun & d & evs & _ & Hheap & Hinv & _ & _ & _ & _ & Hres).
    exists res, w'. split; [done|]. intros p Hres'.
    destruct Hres as [(e & -> & _)|[-> _]]; [done|].
    inversion Hres'; subst p. exists d. by rewrite Hheap, lookup_insert_eq.
  - intros p d w l w' Hp Hinv Hrun.
    destruct (run_apis_same_conns drv l w w' Hrun p d Hp) as (c & Hp').
    by exists (set_readOnlyCount c d).
  - intros p d w sch Hp Hinv.
    split; [|split; [|split; [|split; [|split]]]].
    + rewrite Close_unfold.
      by apply (no_panic_of_wp _ _ _ (each_connection_spec drv p d sch _ w Hp Hinv)).
    + rewrite Ping_unfold.
      by apply (no_panic_of_wp _ _ _ (each_connection_spec drv p d sch _ w Hp Hinv)).
    + intros ctx. rewrite PingContext_unfold.
      by apply (no_panic_of_wp _ _ _ (each_connection_spec drv p d sch _ w Hp Hinv)).
    + intros q.
      destruct (prepare_all_outcome drv p d sch (OpPrepare q) w Hp Hinv)
        as (res & w' & Hrun & _ & evs & _ & _ & _ & Hbad & Hgood).
      exists res, w'. split; [done|]. intros s Hs.
      destruct (snd res) as [e|] eqn:Hsnd.
      * destruct (Hbad e eq_refl) as [Hnone _]. congruence.
      * destruct (Hgood eq_refl) as (s' & Hs' & Hdb & Hlen & _).
        rewrite Hs in Hs'. inversion Hs'; subst s'. done.
    + intros ctx q.
      destruct (prepare_all_outcome drv p d sch (OpPrepareContext ctx q) w Hp Hinv)
        as (res & w' & Hrun & _ & evs & _ & _ & _ & Hbad & Hgood).
      exists res, w'. split; [done|]. intros s Hs.
      destruct (snd res) as [e|] eqn:Hsnd.
      * destruct (Hbad e eq_refl) as [Hnone _]. congruence.
      * destruct (Hgood eq_refl) as (s' & Hs' & Hdb & Hlen & _).
        rewrite Hs in Hs'. inversion Hs'; subst s'. done.
    + intros s Hs.
      by apply (no_panic_of_wp _ _ _ (stmt_Close_spec drv p d s sch w Hp Hinv Hs)).
Qed.

Lemma size_invariant_keeps_fan_outs_in_bounds_witness :
  (exists r w', Close flaky_driver 0 sample_sched (wrap_world 6) = Ok r w') /\
  (exists r w', stmt_Close flaky_driver wrap_stmt sample_sched (wrap_world 6) = Ok r w').
Proof.
  destruct (size_invariant_keeps_fan_outs_in_bounds flaky_driver)
    as (_ & _ & _ & Hbounds).
  destruct (Hbounds 0%nat (wrap_db 6) (wrap_world 6) sample_sched)
    as (Hclose & _ & _ & _ & _ & Hstmt).
  - reflexivity.
  - reflexivity.
  - split; [exact Hclose|]. apply Hstmt. split; reflexivity.
Defined.

(** Without the invariant the fan-out leaves the slice: with three
    connections announced and one replica present, goroutine 2 of [Close]
    reads [readOnlyDBs[1]] and panics. *)
Example Close_out_of_bounds_without_invariant :
  ~ conn_inv broken_db /\
  Close steady_driver 0 sample_sched broken_world = Panic "index out of range".
Proof. split; [by vm_compute|reflexivity]. Qed.

(** * Further properties of the package *)

(** ** Lifecycle fan-outs *)

(** X1: on a connection set that satisfies the size invariant, [Close]
    returns under every schedule, having called [Close] exactly once on
    the primary and on every replica whatever the other calls answered;
    it leaves the store as it was; and it returns nil exactly when no call
    failed, otherwise the error of one of the failed calls. *)
Theorem Close_calls_every_connection (drv : Oracle) (p : nat)
    (d : DBImplementation) (sch : Sched) (w : World) :
  heap w !! p = Some d -> conn_inv d ->
  exists res w',
    Close drv p sch w = Ok res w' /\
    fanout_outcome ((fun h => DBCall h OpClose) <$> connections d) sch w res w'.
Proof. intros Hp Hinv. rewrite Close_unfold. by apply each_connection_outcome. Qed.

Lemma Close_calls_every_connection_witness :
  exists res w',
    Close flaky_driver 0 sample_sched (wrap_world 6) = Ok res w' /\
    fanout_outcome ((fun h => DBCall h OpClose) <$> connections (wrap_db 6))
      sample_sched (wrap_world 6) res w'.
Proof.
  apply (Close_calls_every_connection flaky_driver 0 (wrap_db 6) sample_sched
           (wrap_world 6)); reflexivity.
Defined.

(** X2: [Ping] and [PingContext] behave in the same way with the driver
    methods [Ping] and [PingContext(ctx)]: one call per connection under
    every schedule, no short-circuit, store untouched, nil exactly when no
    call failed. *)
Theorem Ping_calls_every_connection (drv : Oracle) (p : nat)
    (d : DBImplementation) (sch : Sched) (w : World) :
  heap w !! p = Some d -> conn_inv d ->
  (exists res w',
      Ping drv p sch w = Ok res w' /\
      fanout_outcome ((fun h => DBCall h OpPing) <$> connections d) sch w res w') /\
  (forall ctx, exists res w',
      PingContext drv p sch ctx w = Ok res w' /\
      fanout_outcome ((fun h => DBCall h (OpPingContext ctx)) <$> connections d)
        sch w res w').
Proof.
  intros Hp Hinv. split.
  - rewrite Ping_unfold. by apply each_connection_outcome.
  - intros ctx. rewrite PingContext_unfold. by apply each_connection_outcome.
Qed.

Lemma Ping_calls_every_connection_witness :
  (exists res w',
      Ping flaky_driver 0 sample_sched (wrap_world 6) = Ok res w' /\
      fanout_outcome ((fun h => DBCall h OpPing) <$> connections (wrap_db 6))
        sample_sched (wrap_world 6) res w') /\
  (forall ctx, exists res w',
      PingContext flaky_driver 0 sample_sched ctx (wrap_world 6) = Ok res w' /\
      fanout_outcome
        ((fun h => DBCall h (OpPingContext ctx)) <$> connections (wrap_db 6))
        sample_sched (wrap_world 6) res w').
Proof.
  apply (Ping_calls_every_connection flaky_driver 0 (wrap_db 6) sample_sched
           (wrap_world 6)); reflexivity.
Defined.

(** X3: [Close] on a statement of a connection set that satisfies the
    size invariant returns under every schedule, having called [Close]
    exactly once on the primary's prepared handle and on every replica's
    prepared handle, also when some of these calls fail; the result is nil
    exactly when none failed. *)
Theorem stmt_Close_releases_every_handle (drv : Oracle) (p : nat)
    (d : DBImplementation) (s : stmt) (sch : Sched) (w : World) :
  heap w !! p = Some d -> conn_inv d -> stmt_inv p d s ->
  exists res w',
    stmt_Close drv s sch w = Ok res w' /\
    fanout_outcome ((fun h => StmtCall h OpStmtClose) <$> handles s) sch w res w'.
Proof.
  intros Hp Hinv Hs.
  pose proof (stmt_Close_spec drv p d s sch w Hp Hinv Hs) as Hspec.
  apply wp_ok in Hspec as (res & w' & Hrun & Hpost).
  exists res, w'. split; [done|]. by apply fanout_outcome_intro.
Qed.

Lemma stmt_Close_releases_every_handle_witness :
  exists res w',
    stmt_Close flaky_driver wrap_stmt sample_sched (wrap_world 6) = Ok res w' /\
    fanout_outcome ((fun h => StmtCall h OpStmtClose) <$> handles wrap_stmt)
      sample_sched (wrap_world 6) res w'.
Proof.
  apply (stmt_Close_releases_every_handle flaky_driver 0 (wrap_db 6) wrap_stmt
           sample_sched (wrap_world 6)); [reflexivity|reflexivity|].
  split; reflexivity.
Defined.

(** X4: the connection set keeps no record of having been closed.  A
    second [Close] calls [Close] on every connection again, and after it
    [ReadOnly] still routes exactly as it would have routed before the
    first one. *)
Theorem Close_keeps_no_record (drv : Oracle) (p : nat) (d : DBImplementation)
    (sch1 sch2 : Sched) (w : World) :
  heap w !! p = Some d -> conn_inv d ->
  exists r1 w1 r2 w2 evs1 evs2,
    Close drv p sch1 w = Ok r1 w1 /\
    Close drv p sch2 w1 = Ok r2 w2 /\
    log w2 = log w ++ evs1 ++ evs2 /\
    ev_call <$> evs1 ≡ₚ (fun h => DBCall h OpClose) <$> connections d /\
    ev_call <$> evs2 ≡ₚ (fun h => DBCall h OpClose) <$> connections d /\
    ReadOnly p w2 = match ReadOnly p w with
                    | Ok h w' => Ok h (with_log (log w2) w')
                    | Panic msg => Panic msg
                    end.
Proof.
  intros Hp Hinv.
  destruct (Close_calls_every_connection drv p d sch1 w Hp Hinv)
    as (r1 & w1 & Hrun1 & Hheap1 & evs1 & Hlog1 & Hcalls1 & _).
  assert (heap w1 !! p = Some d) as Hp1 by by rewrite Hheap1.
  destruct (Close_calls_every_connection drv p d sch2 w1 Hp1 Hinv)
    as (r2 & w2 & Hrun2 & Hheap2 & evs2 & Hlog2 & Hcalls2 & _).
  exists r1, w1, r2, w2, evs1, evs2.
  repeat (split; [done|]).
  split; [by rewrite Hlog2, Hlog1, <- app_assoc|]. split; [done|]. split; [done|].
  rewrite <- ReadOnly_with_log. f_equal.
  apply same_heap_with_log. by rewrite Hheap2, Hheap1.
Qed.

Lemma Close_keeps_no_record_witness :
  exists r1 w1 r2 w2 evs1 evs2,
    Close flaky_driver 0 sample_sched (wrap_world 6) = Ok r1 w1 /\
    Close flaky_driver 0 sample_sched w1 = Ok r2 w2 /\
    log w2 = log (wrap_world 6) ++ evs1 ++ evs2 /\
    ev_call <$> evs1 ≡ₚ (fun h => DBCall h OpClose) <$> connections (wrap_db 6) /\
    ev_call <$> evs2 ≡ₚ (fun h => DBCall h OpClose) <$> connections (wrap_db 6) /\
    ReadOnly 0 w2 = match ReadOnly 0 (wrap_world 6) with
                    | Ok h w' => Ok h (with_log (log w2) w')
                    | Panic msg => Panic msg
                    end.
Proof.
  apply (Close_keeps_no_record flaky_driver 0 (wrap_db 6) sample_sched sample_sched
           (wrap_world 6)); reflexivity.
Defined.

(** ** Reads *)

(** X5: [Query], [QueryContext], [QueryRow] and [QueryRowContext] of a
    connection set make exactly one driver call and return its reply
    unchanged.  With replicas the call goes to the replica that the
    counter selects, [replicas[((c+1) mod 2^64) mod R]], and the counter
    has advanced once; without replicas it goes to the primary and the
    counter is untouched. *)
Theorem db_reads_use_the_selected_connection (drv : Oracle) (p : nat)
    (d : DBImplementation) (w : World) :
  heap w !! p = Some d -> conn_inv d -> len (readOnlyDBs d) <= max_int ->
  (readOnlyDBs d <> [] ->
   exists h,
     readOnlyDBs d
       !! Z.to_nat (((readOnlyCount d + 1) mod 2 ^ 64) mod len (readOnlyDBs d))
     = Some h /\
     (forall q args,
        Query drv p q args w
        = call drv (DBCall h (OpQuery q args)) (counted p d w)) /\
     (forall ctx q args,
        QueryContext drv p ctx q args w
        = call drv (DBCall h (OpQueryContext ctx q args)) (counted p d w)) /\
     (forall q args,
        QueryRow drv p q args w
        = call drv (DBCall h (OpQueryRow q args)) (counted p d w)) /\
     (forall ctx q args,
        QueryRowContext drv p ctx q args w
        = call drv (DBCall h (OpQueryRowContext ctx q args)) (counted p d w))) /\
  (readOnlyDBs d = [] ->
     (forall q args,
        Query drv p q args w
        = call drv (DBCall (readWriteDB d) (OpQuery q args)) w) /\
     (forall ctx q args,
        QueryContext drv p ctx q args w
        = call drv (DBCall (readWriteDB d) (OpQueryContext ctx q args)) w) /\
     (forall q args,
        QueryRow drv p q args w
        = call drv (DBCall (readWriteDB d) (OpQueryRow q args)) w) /\
     (forall ctx q args,
        QueryRowContext drv p ctx q args w
        = call drv (DBCall (readWriteDB d) (OpQueryRowContext ctx q args)) w)).
Proof.
  intros Hp Hinv Hmax. split.
  - intros Hne.
    assert (1 <= len (readOnlyDBs d) <= max_int) as HR.
    { split; [|done]. destruct (readOnlyDBs d); [done|]. unfold len. simpl. lia. }
    destruct (ReadOnly_Ok p d w Hp Hinv HR) as (h & Hh & Hread).
    exists h. split; [exact Hh|].
    unfold Query, QueryContext, QueryRow, QueryRowContext, bind.
    rewrite Hread. done.
  - intros Hnil.
    assert (ReadOnly p w = Ok (readWriteDB d) w) as Hread.
    { apply ReadOnly_primary; [done|]. red in Hinv. by rewrite Hinv, Hnil. }
    unfold Query, QueryContext, QueryRow, QueryRowContext, bind.
    rewrite Hread. done.
Qed.

Lemma db_reads_use_the_selected_connection_witness :
  exists h,
    readOnlyDBs (wrap_db 6)
      !! Z.to_nat (((readOnlyCount (wrap_db 6) + 1) mod 2 ^ 64)
                     mod len (readOnlyDBs (wrap_db 6)))
    = Some h /\
    forall q args,
      Query flaky_driver 0 q args (wrap_world 6)
      = call flaky_driver (DBCall h (OpQuery q args))
          (counted 0 (wrap_db 6) (wrap_world 6)).
Proof.
  destruct (db_reads_use_the_selected_connection flaky_driver 0 (wrap_db 6)
              (wrap_world 6)) as [Hreplicas _].
  - reflexivity.
  - reflexivity.
  - by vm_compute.
  - destruct Hreplicas as (h & Hh & Hquery & _); [done|].
    exists h. split; [exact Hh|exact Hquery].
Defined.

(** X6: what [ReadOnly] does on any stored connection set, whether or
    not it satisfies the size invariant.  Only [totalConnections == 1]
    and the replica list decide: with [totalConnections = 1] it returns
    the primary and ignores the replicas; otherwise, with an empty replica
    list it panics on the division by zero in [roundRobin]; otherwise it
    selects [replicas[((c+1) mod 2^64) mod R]] and advances the counter.
    On an address that holds no connection set it panics. *)
Theorem ReadOnly_cases (p : nat) (d : DBImplementation) (w : World) :
  heap w !! p = Some d -> len (readOnlyDBs d) <= max_int ->
  (totalConnections d = 1 -> ReadOnly p w = Ok (readWriteDB d) w) /\
  (totalConnections d <> 1 -> readOnlyDBs d = [] ->
     ReadOnly p w = Panic "integer divide by zero") /\
  (totalConnections d <> 1 -> readOnlyDBs d <> [] ->
     exists h,
       readOnlyDBs d
         !! Z.to_nat (((readOnlyCount d + 1) mod 2 ^ 64) mod len (readOnlyDBs d))
       = Some h /\
       ReadOnly p w = Ok h (counted p d w)) /\
  (forall q, heap w !! q = None ->
     ReadOnly q w = Panic "invalid memory address or nil pointer dereference").
Proof.
  intros Hp Hmax. split; [|split; [|split]].
  - intros Hone. by apply ReadOnly_primary.
  - intros Hne Hnil. unfold ReadOnly, bind, load. rewrite Hp.
    assert ((totalConnections d =? 1) = false) as -> by by apply Z.eqb_neq.
    unfold roundRobin, bind, load, store. rewrite Hp, Hnil. reflexivity.
  - intros Hne Hros.
    assert (1 <= len (readOnlyDBs d) <= max_int) as HR.
    { split; [|done]. destruct (readOnlyDBs d); [done|]. unfold len. simpl. lia. }
    destruct (lookup_mod_Some (readOnlyDBs d) (AddUint64 (readOnlyCount d) 1))
      as [h Hh]; [lia|].
    exists h. split; [exact Hh|].
    unfold ReadOnly, bind. unfold load at 1. rewrite Hp.
    assert ((totalConnections d =? 1) = false) as -> by by apply Z.eqb_neq.
    rewrite (roundRobin_Ok p d w) by done.
    apply index_Ok; [|done].
    pose proof (Z.mod_pos_bound (AddUint64 (readOnlyCount d) 1)
                  (len (readOnlyDBs d))). lia.
  - intros q Hq. unfold ReadOnly, bind, load. by rewrite Hq.
Qed.

Lemma ReadOnly_cases_witness :
  (totalConnections broken_db = 1 ->
     ReadOnly 0 broken_world = Ok (readWriteDB broken_db) broken_world) /\
  (totalConnections broken_db <> 1 -> readOnlyDBs broken_db = [] ->
     ReadOnly 0 broken_world = Panic "integer divide by zero") /\
  (totalConnections broken_db <> 1 -> readOnlyDBs broken_db <> [] ->
     exists h,
       readOnlyDBs broken_db
         !! Z.to_nat (((readOnlyCount broken_db + 1) mod 2 ^ 64)
                        mod len (readOnlyDBs broken_db))
       = Some h /\
       ReadOnly 0 broken_world = Ok h (counted 0 broken_db broken_world)) /\
  (forall q, heap broken_world !! q = None ->
     ReadOnly q broken_world
     = Panic "invalid memory address or nil pointer dereference").
Proof.
  apply (ReadOnly_cases 0 broken_db broken_world); [reflexivity|by vm_compute].
Defined.

(** X7: what [ROStmt] does on any statement.  Without replica handles
    it returns the primary's prepared handle and reads nothing else, not
    even the owning connection set; with replica handles it advances the
    counter of the owning set and selects
    [rostmts[((c+1) mod 2^64) mod len(rostmts)]], the modulus being the
    statement's own number of handles; and it panics when the statement
    has replica handles but points to no connection set. *)
Theorem ROStmt_cases (s : stmt) (w : World) :
  len (rostmts s) <= max_int ->
  (rostmts s = [] -> ROStmt s w = Ok (rwstmt s) w) /\
  (rostmts s <> [] -> heap w !! db s = None ->
     ROStmt s w = Panic "invalid memory address or nil pointer dereference") /\
  (forall d, rostmts s <> [] -> heap w !! db s = Some d ->
     exists h,
       rostmts s
         !! Z.to_nat (((readOnlyCount d + 1) mod 2 ^ 64) mod len (rostmts s))
       = Some h /\
       ROStmt s w = Ok h (counted (db s) d w)).
Proof.
  intros Hmax.
  assert (rostmts s <> [] -> 1 <= len (rostmts s) <= max_int) as HR.
  { intros Hne. split; [|done]. destruct (rostmts s); [done|].
    unfold len. simpl. lia. }
  split; [|split].
  - apply ROStmt_primary.
  - intros Hne Hp. specialize (HR Hne). unfold ROStmt.
    assert ((len (rostmts s) =? 0) = false) as -> by (apply Z.eqb_neq; lia).
    unfold bind, roundRobin, bind, load. by rewrite Hp.
  - intros d Hne Hp.
    destruct (ROStmt_Ok (db s) d s w Hp eq_refl (HR Hne)) as (h & Hh & Hro).
    by exists h.
Qed.

Lemma ROStmt_cases_witness :
  (rostmts wrap_stmt = [] -> ROStmt wrap_stmt (wrap_world 6) = Ok (rwstmt wrap_stmt) (wrap_world 6)) /\
  (rostmts wrap_stmt <> [] -> heap (wrap_world 6) !! db wrap_stmt = None ->
     ROStmt wrap_stmt (wrap_world 6)
     = Panic "invalid memory address or nil pointer dereference") /\
  (forall d, rostmts wrap_stmt <> [] -> heap (wrap_world 6) !! db wrap_stmt = Some d ->
     exists h,
       rostmts wrap_stmt
         !! Z.to_nat (((readOnlyCount d + 1) mod 2 ^ 64) mod len (rostmts wrap_stmt))
       = Some h /\
       ROStmt wrap_stmt (wrap_world 6) = Ok h (counted (db wrap_stmt) d (wrap_world 6))).
Proof.
  apply (ROStmt_cases wrap_stmt (wrap_world 6)). by vm_compute.
Defined.

(** ** The rotation across a program *)

(** X8: only reads take a turn of the rotation.  A program without read
    requests (any mix of [Exec], [Begin], [Prepare], [Ping], [Close], the
    pool settings, [Driver], [ReadWrite] and the statement's [Exec] and
    [Close], on any connection sets and statements) leaves the whole store
    as it was, so that afterwards [ReadOnly] selects what it would have
    selected before. *)
Theorem only_reads_take_a_turn (drv : Oracle) (l : list ApiCall) (w w' : World) :
  Forall (fun a => is_read a = false) l ->
  run_apis drv l w = Ok tt w' ->
  heap w' = heap w /\
  forall p,
    ReadOnly p w' = match ReadOnly p w with
                    | Ok h w0 => Ok h (with_log (log w') w0)
                    | Panic msg => Panic msg
                    end.
Proof.
  intros Hall Hrun.
  pose proof (run_apis_non_read_heap drv l w w' Hall Hrun) as Hheap.
  split; [done|]. intros p.
  rewrite <- ReadOnly_with_log. f_equal. by apply same_heap_with_log.
Qed.

Lemma only_reads_take_a_turn_witness :
  heap (final_state
          (run_apis flaky_driver
             [ApiExec 0 "UPDATE t SET x = 1" []; ApiPing 0 sample_sched;
              ApiPrepare 0 sample_sched "SELECT 1"; ApiSetMaxIdleConns 0 2;
              ApiStmtExec wrap_stmt []; ApiClose 0 sample_sched])
          (wrap_world 6))
  = heap (wrap_world 6).
Proof.
  refine (proj1 (only_reads_take_a_turn flaky_driver
            [ApiExec 0 "UPDATE t SET x = 1" []; ApiPing 0 sample_sched;
             ApiPrepare 0 sample_sched "SELECT 1"; ApiSetMaxIdleConns 0 2;
             ApiStmtExec wrap_stmt []; ApiClose 0 sample_sched]
            (wrap_world 6) _ _ _)).
  - repeat constructor.
  - vm_compute. reflexivity.
Defined.

(** X9: the counter of a connection set with replicas counts the reads
    routed through it.  After any program that returns, the counter holds
    its old value plus the number of requests that took a turn (reads of
    this set, and reads of statements that point to it and have replica
    handles), modulo [2^64]; the handles and the size are as before.
    Requests to other connection sets and to their statements are not
    counted: the rotations of different sets are independent. *)
Theorem counter_counts_the_turns (drv : Oracle) (p : nat) (d : DBImplementation)
    (l : list ApiCall) (w w' : World) :
  heap w !! p = Some d -> count_inv d -> totalConnections d <> 1 ->
  run_apis drv l w = Ok tt w' ->
  heap w' !! p
  = Some (set_readOnlyCount
            ((readOnlyCount d + Z.of_nat (turns p l)) mod 2 ^ 64) d).
Proof. intros Hp Hc Hne Hrun. by eapply run_apis_turns. Qed.

Lemma counter_counts_the_turns_witness :
  heap (final_state (run_apis flaky_driver sample_program) (wrap_world 6)) !! 0%nat
  = Some (set_readOnlyCount
            ((readOnlyCount (wrap_db 6) + Z.of_nat (turns 0 sample_program))
               mod 2 ^ 64) (wrap_db 6)).
Proof.
  apply (counter_counts_the_turns flaky_driver 0 (wrap_db 6) sample_program
           (wrap_world 6)).
  - reflexivity.
  - by vm_compute.
  - by vm_compute.
  - vm_compute. reflexivity.
Defined.

(** ** Opening *)

(** X10: [Open] never panics.  It allocates a fresh connection set and
    calls [sql.Open] exactly once for every segment of the data source
    name, whatever the other calls answer, and makes no other driver call
    (nothing is closed again when a call fails).  It returns an error
    exactly when some call failed, and then the error of a failed call and
    a nil pointer; otherwise it returns the new set, which holds the
    handles in segment order (the first is the primary), satisfies the
    size invariant and has its counter at zero. *)
Theorem Open_all_or_nothing (drv : Oracle) (sch : Sched)
    (driverName dataSourceName : string) (w : World) :
  exists res w' d evs,
    Open drv sch driverName dataSourceName w = Ok res w' /\
    heap w !! fresh (dom (heap w)) = None /\
    heap w' = <[fresh (dom (heap w)) := d]> (heap w) /\
    conn_inv d /\
    totalConnections d = len (strings_Split dataSourceName ";") /\
    readOnlyCount d = 0 /\
    log w' = log w ++ evs /\
    ev_call <$> evs ≡ₚ OpenCall driverName <$> strings_Split dataSourceName ";" /\
    (is_Some (snd res) <-> exists ev, ev ∈ evs /\ reply_failed (ev_reply ev)) /\
    (forall e, snd res = Some e ->
       fst res = None /\ exists ev, ev ∈ evs /\ ev_reply ev = Fail e) /\
    (snd res = None ->
       fst res = Some (fresh (dom (heap w))) /\
       evs ≡ₚ zip_with (fun seg h => Build_Event (OpenCall driverName seg) (Done h))
                       (strings_Split dataSourceName ";") (connections d)).
Proof.
  pose proof (Open_spec drv sch driverName dataSourceName w) as Hspec.
  apply wp_ok in Hspec
    as (res & w' & Hrun & d & evs & Hfresh & Hheap & Hinv & Htot & Hc & Hlog
        & Hcalls & Hres).
  exists res, w', d, evs. repeat (split; [done|]).
  destruct Hres as [(e & -> & ev & Hev & Hfail)|[-> Hevs]]; cbn [fst snd].
  - split; [|split].
    + split; [|by eexists]. intros _. exists ev. split; [done|]. by exists e.
    + intros e' He'. inversion He'; subst e'. split; [done|]. by exists ev.
    + done.
  - split; [|split].
    + split; [by intros [e He]|].
      intros (ev & Hev & e & Hfail). rewrite Hevs in Hev.
      apply elem_of_zip_with in Hev as (seg & h & -> & _ & _). done.
    + done.
    + done.
Qed.

(** X11: [Open] opens one connection per [;]-separated segment: one more
    than there are semicolons in the data source name, so that an empty
    name, an empty segment or a trailing semicolon still opens a
    connection.  The segments contain no semicolon and, joined by
    semicolons, give back the data source name.  A set that was opened has
    as many replicas as the name has semicolons; from a name without
    semicolon its reads go to the primary. *)
Theorem Open_one_connection_per_segment (drv : Oracle) (sch : Sched)
    (driverName dataSourceName : string) (w : World) :
  strings_Join (strings_Split dataSourceName ";") ";" = dataSourceName /\
  Forall (fun seg => count_char ";" seg = 0%nat) (strings_Split dataSourceName ";") /\
  exists res w' evs,
    Open drv sch driverName dataSourceName w = Ok res w' /\
    log w' = log w ++ evs /\
    length evs = Datatypes.S (count_char ";" dataSourceName) /\
    forall p, fst res = Some p ->
      exists d,
        heap w' !! p = Some d /\
        length (readOnlyDBs d) = count_char ";" dataSourceName /\
        (count_char ";" dataSourceName = 0%nat ->
           ReadOnly p w' = Ok (readWriteDB d) w').
Proof.
  split; [apply strings_Join_Split|]. split; [apply strings_Split_no_sep|].
  pose proof (Open_spec drv sch driverName dataSourceName w) as Hspec.
  apply wp_ok in Hspec
    as (res & w' & Hrun & d & evs & _ & Hheap & Hinv & Htot & _ & Hlog
        & Hcalls & Hres).
  exists res, w', evs. split; [done|]. split; [done|].
  assert (length evs = Datatypes.S (count_char ";" dataSourceName)) as Hlen.
  { rewrite <- (length_fmap ev_call), Hcalls, length_fmap.
    apply strings_Split_count. }
  split; [done|]. intros p Hp.
  destruct Hres as [(e & -> & _)|[-> _]]; [done|].
  inversion Hp; subst p. exists d.
  assert (heap w' !! fresh (dom (heap w)) = Some d) as Hd
    by (rewrite Hheap; apply lookup_insert_eq).
  assert (length (readOnlyDBs d) = count_char ";" dataSourceName) as Hros.
  { red in Hinv. rewrite Hinv in Htot. unfold len in Htot.
    rewrite strings_Split_count in Htot. lia. }
  split; [done|]. split; [done|].
  intros Hzero. apply ReadOnly_primary; [done|].
  red in Hinv. rewrite Hinv. unfold len. rewrite Hros, Hzero. done.
Qed.

(** ** Round trips *)


(** X13: every handle that a successful [Open] obtained is closed by
    [Close]: the calls of [Close] are exactly one [Close] on each handle
    that the [sql.Open] calls returned. *)
Theorem opened_handles_are_closed (drv : Oracle) (sch sch' : Sched)
    (driverName dataSourceName : string) (p : nat) (w w1 : World) :
  Open drv sch driverName dataSourceName w = Ok (Some p, None) w1 ->
  exists oevs res w2 cevs,
    log w1 = log w ++ oevs /\
    Close drv p sch' w1 = Ok res w2 /\
    log w2 = log w1 ++ cevs /\
    ev_call <$> cevs ≡ₚ (fun ev => DBCall (ev_handle ev) OpClose) <$> oevs.
Proof.
  intros Hopen.
  destruct (Open_all_or_nothing drv sch driverName dataSourceName w)
    as (res & w' & d & oevs & Hrun & _ & Hheap & Hinv & Htot & _ & Hlog & Hcalls
        & _ & _ & Hgood).
  rewrite Hopen in Hrun. inversion Hrun; subst res w'. cbn [fst snd] in Hgood.
  destruct (Hgood eq_refl) as [Hp Hevs]. inversion Hp; subst p.
  assert (heap w1 !! fresh (dom (heap w)) = Some d) as Hd
    by (rewrite Hheap; apply lookup_insert_eq).
  destruct (Close_calls_every_connection drv _ d sch' w1 Hd Hinv)
    as (r & w2 & Hclose & _ & cevs & Hclog & Hccalls & _).
  exists oevs, r, w2, cevs. repeat (split; [done|]).
  rewrite Hccalls.
  assert (ev_handle <$> oevs ≡ₚ connections d) as Hhandles.
  { rewrite Hevs. rewrite ev_handle_zip; [done|].
    red in Hinv. rewrite Hinv in Htot.
    unfold connections, len in *. simpl. handle_lia. }
  rewrite <- Hhandles, <- list_fmap_compose. done.
Qed.

Lemma opened_handles_are_closed_witness :
  exists oevs res w2 cevs,
    log (final_state (Open flaky_driver sample_sched "pg" "a;b;c") empty_world)
    = log empty_world ++ oevs /\
    Close flaky_driver 0 sample_sched
      (final_state (Open flaky_driver sample_sched "pg" "a;b;c") empty_world)
    = Ok res w2 /\
    log w2
    = log (final_state (Open flaky_driver sample_sched "pg" "a;b;c") empty_world)
      ++ cevs /\
    ev_call <$> cevs ≡ₚ (fun ev => DBCall (ev_handle ev) OpClose) <$> oevs.
Proof.
  apply (opened_handles_are_closed flaky_driver sample_sched sample_sched
           "pg" "a;b;c" 0 empty_world).
  vm_compute. reflexivity.
Defined.

(** X14: every handle that a successful [Prepare] obtained is released
    by the statement's [Close]: its calls are exactly one [Close] on each
    prepared handle that the driver returned, under every schedule. *)
Theorem prepared_handles_are_released (drv : Oracle) (p : nat)
    (d : DBImplementation) (sch sch' : Sched) (query : string) (s : stmt)
    (w w1 : World) :
  heap w !! p = Some d -> conn_inv d ->
  Prepare drv p sch query w = Ok (Some s, None) w1 ->
  exists pevs res w2 cevs,
    log w1 = log w ++ pevs /\
    stmt_Close drv s sch' w1 = Ok res w2 /\
    log w2 = log w1 ++ cevs /\
    ev_call <$> cevs ≡ₚ (fun ev => StmtCall (ev_handle ev) OpStmtClose) <$> pevs.
Proof.
  intros Hp Hinv Hprep.
  destruct (prepare_all_outcome drv p d sch (OpPrepare query) w Hp Hinv)
    as (res & w' & Hrun & Hheap & pevs & Hlog & _ & _ & _ & Hgood).
  unfold Prepare in Hprep. rewrite Hprep in Hrun. inversion Hrun; subst res w'.
  cbn [fst snd] in Hgood.
  destruct (Hgood eq_refl) as (s' & Hs' & Hdb & Hlen & Hevs).
  inversion Hs'; subst s'.
  assert (heap w1 !! p = Some d) as Hp1 by by rewrite Hheap.
  destruct (stmt_Close_releases_every_handle drv p d s sch' w1 Hp1 Hinv)
    as (r & w2 & Hclose & _ & cevs & Hclog & Hccalls & _); [by split|].
  exists pevs, r, w2, cevs. repeat (split; [done|]).
  rewrite Hccalls.
  assert (ev_handle <$> pevs ≡ₚ handles s) as Hhandles.
  { rewrite Hevs. rewrite ev_handle_zip; [done|].
    unfold connections, handles. simpl. handle_lia. }
  rewrite <- Hhandles, <- list_fmap_compose. done.
Qed.

Lemma prepared_handles_are_released_witness :
  exists pevs res w2 cevs,
    log (final_state (Prepare steady_driver 0 sample_sched "SELECT 1") (wrap_world 6))
    = log (wrap_world 6) ++ pevs /\
    stmt_Close steady_driver
      {| db := 0; rwstmt := 7%nat; rostmts := [7; 7; 7]%nat |} sample_sched
      (final_state (Prepare steady_driver 0 sample_sched "SELECT 1") (wrap_world 6))
    = Ok res w2 /\
    log w2
    = log (final_state (Prepare steady_driver 0 sample_sched "SELECT 1")
             (wrap_world 6)) ++ cevs /\
    ev_call <$> cevs ≡ₚ (fun ev => StmtCall (ev_handle ev) OpStmtClose) <$> pevs.
Proof.
  apply (prepared_handles_are_released steady_driver 0 (wrap_db 6) sample_sched
           sample_sched "SELECT 1" _ (wrap_world 6)).
  - reflexivity.
  - reflexivity.
  - vm_compute. reflexivity.
Defined.

(** X15: a statement's reads follow the reads of its connection set.
    For a statement that [Prepare] returned on a set with replicas, at any
    value of the counter [ROStmt] selects the handle that was prepared on
    the very replica that [ReadOnly] selects at that value. *)
Theorem statement_reads_follow_the_connection (drv : Oracle) (p : nat)
    (d : DBImplementation) (sch : Sched) (query : string) (s : stmt)
    (w w1 : World) :
  heap w !! p = Some d -> conn_inv d ->
  1 <= len (readOnlyDBs d) <= max_int ->
  Prepare drv p sch query w = Ok (Some s, None) w1 ->
  exists pevs,
    log w1 = log w ++ pevs /\
    forall c w2,
      heap w2 !! p = Some (set_readOnlyCount c d) ->
      exists h hs w3,
        ReadOnly p w2 = Ok h w3 /\
        ROStmt s w2 = Ok hs w3 /\
        Build_Event (DBCall h (OpPrepare query)) (Done hs) ∈ pevs.
Proof.
  intros Hp Hinv HR Hprep.
  destruct (prepare_all_outcome drv p d sch (OpPrepare query) w Hp Hinv)
    as (res & w' & Hrun & Hheap & pevs & Hlog & _ & _ & _ & Hgood).
  unfold Prepare in Hprep. rewrite Hprep in Hrun. inversion Hrun; subst res w'.
  cbn [fst snd] in Hgood.
  destruct (Hgood eq_refl) as (s' & Hs' & Hdb & Hlen & Hevs).
  inversion Hs'; subst s'.
  exists pevs. split; [done|]. intros c w2 Hp2.
  set (d2 := set_readOnlyCount c d) in *.
  assert (len (rostmts s) = len (readOnlyDBs d)) as HlenZ
    by (unfold len; handle_lia).
  destruct (ReadOnly_Ok p d2 w2 Hp2 Hinv HR) as (h & Hh & Hread).
  destruct (ROStmt_Ok p d2 s w2 Hp2 Hdb) as (hs & Hhs & Hro);
    [by rewrite HlenZ|].
  rewrite HlenZ in Hhs. cbn [readOnlyDBs readOnlyCount d2 set_readOnlyCount] in *.
  exists h, hs, (counted p d2 w2). split; [done|]. split; [done|].
  rewrite Hevs.
  set (i := Z.to_nat (AddUint64 c 1 mod len (readOnlyDBs d))) in *.
  apply elem_of_lookup_zip_with. exists (Datatypes.S i), h, hs. done.
Qed.

Lemma statement_reads_follow_the_connection_witness :
  exists pevs,
    log (final_state (Prepare steady_driver 0 sample_sched "SELECT 1") (wrap_world 6))
    = log (wrap_world 6) ++ pevs /\
    forall c w2,
      heap w2 !! 0%nat = Some (set_readOnlyCount c (wrap_db 6)) ->
      exists h hs w3,
        ReadOnly 0 w2 = Ok h w3 /\
        ROStmt {| db := 0; rwstmt := 7%nat; rostmts := [7; 7; 7]%nat |} w2
        = Ok hs w3 /\
        Build_Event (DBCall h (OpPrepare "SELECT 1")) (Done hs) ∈ pevs.
Proof.
  apply (statement_reads_follow_the_connection steady_driver 0 (wrap_db 6)
           sample_sched "SELECT 1" _ (wrap_world 6)).
  - reflexivity.
  - reflexivity.
  - by vm_compute.
  - vm_compute. reflexivity.
Defined.

(** ** The fan-out executor, further *)

(** X16: [doConcurrent] never invents an error: a non-nil result is the
    value that some evaluation of the operation returned.  And when all
    the evaluations that fail return the same error, in particular when
    only one evaluation fails, that error is the result under every
    schedule. *)
Theorem doConcurrent_returns_a_returned_error {S} (sch : Sched) (n : Z)
    (fn : Z -> M S (option Err)) (s : S) :
  0 <= n ->
  (forall i s0, 0 <= i < n -> exists e s', fn i s0 = Ok e s') ->
  exists r s' calls,
    doConcurrent sch n (observed fn) (s, []) = Ok r (s', calls) /\
    (forall e, r = Some e -> exists i, 0 <= i < n /\ (i, Some e) ∈ calls) /\
    (forall e,
       (exists i, (i, Some e) ∈ calls) ->
       (forall j e', (j, Some e') ∈ calls -> e' = e) ->
       r = Some e).
Proof.
  intros Hn Htot.
  destruct (doConcurrent_observed_run sch n fn s Hn Htot)
    as (r & s' & calls & _ & Hobs & Hidx & Hlast).
  exists r, s', calls. split; [done|]. split.
  - intros e He. rewrite He in Hlast. symmetry in Hlast.
    unfold last_error in Hlast. apply last_Some in Hlast as [l' Hl'].
    assert (e ∈ omap id (pick_order (deliver sch) (snd <$> calls))) as Hin.
    { rewrite Hl'. apply elem_of_app. right. by apply list_elem_of_singleton. }
    apply list_elem_of_omap in Hin as (o & Ho & Hid). simpl in Hid. subst o.
    rewrite pick_order_perm in Ho.
    apply list_elem_of_fmap in Ho as ([i e0] & He0 & Hin). simpl in He0. subst e0.
    exists i. split; [|done].
    assert (i ∈ fst <$> calls) as Hi.
    { apply list_elem_of_fmap. by exists (i, Some e). }
    rewrite Hidx in Hi. apply list_elem_of_fmap in Hi as (k & -> & Hk).
    apply elem_of_seq in Hk. lia.
  - intros e [i Hi] Hall. rewrite Hlast.
    apply last_error_all_equal.
    + rewrite pick_order_perm. apply list_elem_of_fmap. by exists (i, Some e).
    + intros e' He'. rewrite pick_order_perm in He'.
      apply list_elem_of_fmap in He' as ([j e0] & He0 & Hin). simpl in He0.
      subst e0. by apply (Hall j).
Qed.

Lemma doConcurrent_returns_a_returned_error_witness :
  exists r s' calls,
    doConcurrent sample_sched 3 (observed sample_fn) (tt, []) = Ok r (s', calls) /\
    (forall e, r = Some e -> exists i, 0 <= i < 3 /\ (i, Some e) ∈ calls) /\
    (forall e,
       (exists i, (i, Some e) ∈ calls) ->
       (forall j e', (j, Some e') ∈ calls -> e' = e) ->
       r = Some e).
Proof.
  apply (doConcurrent_returns_a_returned_error sample_sched 3 sample_fn tt).
  - lia.
  - intros i s0 _. unfold sample_fn.
    destruct (i =? 1); [|destruct (i =? 2)]; eexists _, _; reflexivity.
Defined.

(** X17: the fan-outs take their count from [totalConnections] alone.
    On a stored connection set whose [totalConnections] is zero (the zero
    value of the struct) [Close], [Ping] and [PingContext] return nil
    without a single driver call, and [Prepare] returns, without an error
    and without having prepared anything, a statement whose primary
    handle is nil; on a negative [totalConnections] they all panic. *)
Theorem fan_outs_follow_totalConnections (drv : Oracle) (p : nat)
    (d : DBImplementation) (sch : Sched) (w : World) :
  heap w !! p = Some d ->
  (totalConnections d = 0 ->
     Close drv p sch w = Ok None w /\
     Ping drv p sch w = Ok None w /\
     (forall ctx, PingContext drv p sch ctx w = Ok None w) /\
     (forall q,
        Prepare drv p sch q w
        = Ok (Some {| db := p; rwstmt := nil_handle;
                      rostmts := replicate (length (readOnlyDBs d)) nil_handle |},
              None) w)) /\
  (totalConnections d < 0 ->
     Close drv p sch w = Panic "makechan: size out of range" /\
     Ping drv p sch w = Panic "makechan: size out of range" /\
     (forall ctx, PingContext drv p sch ctx w = Panic "makechan: size out of range") /\
     (forall q, Prepare drv p sch q w = Panic "makechan: size out of range")).
Proof.
  intros Hp. split.
  - intros Hzero.
    unfold Close, Ping, PingContext, Prepare, prepare_all, bind, load.
    rewrite Hp, Hzero. rewrite !doConcurrent_zero.
    repeat split; try done.
    + intros ctx. by rewrite doConcurrent_zero.
    + intros q. unfold make_slice.
      assert ((len (readOnlyDBs d) <? 0) = false) as ->
        by (pose proof (len_nonneg (readOnlyDBs d)); lia).
      unfold ret, with_local. rewrite doConcurrent_zero. cbn [fst snd].
      unfold len. by rewrite Nat2Z.id.
  - intros Hneg.
    unfold Close, Ping, PingContext, Prepare, prepare_all, bind, load.
    rewrite Hp. rewrite !doConcurrent_negative by done.
    repeat split; try done.
    + intros ctx. by rewrite doConcurrent_negative.
    + intros q. unfold make_slice.
      assert ((len (readOnlyDBs d) <? 0) = false) as ->
        by (pose proof (len_nonneg (readOnlyDBs d)); lia).
      unfold ret, with_local. by rewrite doConcurrent_negative.
Qed.

Lemma fan_outs_follow_totalConnections_witness :
  Close flaky_driver 0 sample_sched zero_world = Ok None zero_world /\
  Ping flaky_driver 0 sample_sched zero_world = Ok None zero_world /\
  (forall ctx, PingContext flaky_driver 0 sample_sched ctx zero_world
               = Ok None zero_world) /\
  (forall q,
     Prepare flaky_driver 0 sample_sched q zero_world
     = Ok (Some {| db := 0; rwstmt := nil_handle;
                   rostmts := replicate (length (readOnlyDBs zero_db)) nil_handle |},
           None) zero_world).
Proof.
  destruct (fan_outs_follow_totalConnections flaky_driver 0 zero_db sample_sched
              zero_world) as [Hzero _].
  - reflexivity.
  - apply Hzero. reflexivity.
Defined.

(** ** The earlier [Open] *)

(** X18: the earlier [Open] does to the store and to the log exactly
    what [Open] does, under every schedule and with every driver, and
    returns the same error; but it returns the connection set in any case,
    also together with an error, where [Open] then returns nil. *)
Theorem Part001_Open_returns_the_set_with_the_error (drv : Oracle) (sch : Sched)
    (driverName dataSourceName : string) (w : World) :
  Part001.Open drv sch driverName dataSourceName w
  = match Open drv sch driverName dataSourceName w with
    | Ok res w' => Ok (with_the_set (fresh (dom (heap w))) res) w'
    | Panic msg => Panic msg
    end.
Proof.
  unfold Part001.Open, Open, openConnections.
  set (conns := strings_Split dataSourceName ";").
  pose proof (strings_Split_length dataSourceName ";") as Hne. fold conns in Hne.
  assert (make_slice (len conns - 1) nil_handle w
          = Ok (replicate (Z.to_nat (len conns - 1)) nil_handle) w) as Hmake.
  { unfold make_slice. by assert ((len conns - 1 <? 0) = false) as ->
      by (unfold len; lia). }
  rewrite !(bind_step _ _ w _ w Hmake).
  set (p := fresh (dom (heap w))).
  set (d0 := {| readWriteDB := nil_handle;
                readOnlyDBs := replicate (Z.to_nat (len conns - 1)) nil_handle;
                totalConnections := len conns;
                readOnlyCount := 0 |}).
  set (w0 := {| heap := <[p := d0]> (heap w); log := log w |}).
  assert (alloc d0 w = Ok p w0) as Halloc by done.
  rewrite !(bind_step _ _ w _ w0 Halloc).
  assert (load p w0 = Ok d0 w0) as Hload.
  { unfold load. cbn [heap w0]. by rewrite lookup_insert_eq. }
  rewrite bind_assoc. rewrite !(bind_step _ _ w0 _ w0 Hload).
  cbv beta.
  match goal with
  | |- bind (doConcurrent ?sc ?n ?f1) ?k1 w0
       = match bind (doConcurrent _ _ ?f2) ?k2 w0 with _ => _ end =>
      transitivity (bind (doConcurrent sc n f2) k1 w0);
        [|apply (bind_post _ k1 k2 (with_the_set p))]
  end.
  - apply bind_cong, doConcurrent_agree.
    apply (run_goroutines_agree _ _ (places_pending p (length conns))).
    + intros i rest s HJ Hi.
      by apply (Part001_closure_agrees drv p driverName conns i rest s).
    + rewrite pick_order_perm. apply NoDup_seq.
    + exists d0. split; [unfold w0; cbn [heap]; apply lookup_insert_eq|].
      cbn [readOnlyDBs totalConnections d0].
      rewrite length_replicate. unfold len.
      split; [lia|]. intros j Hj.
      rewrite pick_order_perm in Hj. apply elem_of_seq in Hj.
      split; [lia|]. apply lookup_replicate. split; [done|]. lia.
  - intros a s'. by destruct a.
Qed.

(** ** Freedom from panics *)



(** * Worked examples *)

Example Split_three_segments :
  strings_Split "primary;replica1;replica2" ";"
  = ["primary"; "replica1"; "replica2"]%string.
Proof. reflexivity. Qed.

Example Split_empty_string : strings_Split "" ";" = [""%string].
Proof. reflexivity. Qed.

Example Split_keeps_empty_segments : strings_Split "a;;b;" ";" = ["a"; ""; "b"; ""]%string.
Proof. reflexivity. Qed.

(** One primary and two replicas: three reads go to the replicas in turn
    and never to the primary. *)
Example two_replicas_alternate :
  exists w',
    (p <- WrapDBs [10; 11; 12]%nat ;; repeat_call 3 (ReadOnly p)) empty_world
    = Ok [12; 11; 12]%nat w'.
Proof. eexists. vm_compute. reflexivity. Qed.

(** One primary and no replica: [ReadOnly], [Query] and [Exec] all end on
    the primary. *)
Example primary_alone_serves_everything :
  exists w',
    (p <- WrapDBs [10%nat] ;;
     h <- ReadOnly p ;;
     Query steady_driver p "SELECT 1" [] ;;;
     Exec steady_driver p "DELETE FROM t" [] ;;;
     ret h) empty_world = Ok 10%nat w' /\
    ev_call <$> log w'
    = [DBCall 10%nat (OpQuery "SELECT 1" []);
       DBCall 10%nat (OpExec "DELETE FROM t" [])].
Proof. eexists. split; vm_compute; reflexivity. Qed.

(** The fan-out returns the error that arrives last, here that of index 2
    although index 1 failed as well. *)
Example doConcurrent_sample :
  doConcurrent sample_sched 3 sample_fn tt = Ok (Some "two failed"%string) tt.
Proof. reflexivity. Qed.

Example doConcurrent_negative_count :
  doConcurrent sample_sched (-1) sample_fn tt = Panic "makechan: size out of range".
Proof. reflexivity. Qed.

(** Opening three segments stores the three handles in segment order,
    whatever the order in which the goroutines ran. *)
Example Open_three_segments :
  exists w',
    Open flaky_driver sample_sched "pg" "a;b;c" empty_world = Ok (Some 0%nat, None) w' /\
    heap w' !! 0%nat
    = Some {| readWriteDB := 101%nat;
              readOnlyDBs := [102; 100]%nat;
              totalConnections := 3;
              readOnlyCount := 0 |} /\
    ev_call <$> log w' = [OpenCall "pg" "c"; OpenCall "pg" "a"; OpenCall "pg" "b"].
Proof. eexists. repeat split; vm_compute; reflexivity. Qed.

(** A failed prepare on one replica discards the statement; the other
    connections were prepared all the same. *)
Example Prepare_with_a_failing_replica :
  exists w',
    Prepare flaky_driver 0 sample_sched "SELECT 1" (wrap_world 0)
    = Ok (None, Some "replica down"%string) w' /\
    ev_call <$> log w'
    = [DBCall 12%nat (OpPrepare "SELECT 1");
       DBCall 10%nat (OpPrepare "SELECT 1");
       DBCall 13%nat (OpPrepare "SELECT 1");
       DBCall 11%nat (OpPrepare "SELECT 1")].
Proof. eexists. split; vm_compute; reflexivity. Qed.

Example Prepare_on_healthy_connections :
  exists w',
    Prepare flaky_driver 0 sample_sched "SELECT 1"
      {| heap := {[ 0%nat := {| readWriteDB := 10%nat;
                                readOnlyDBs := [11; 13]%nat;
                                totalConnections := 3;
                                readOnlyCount := 0 |} ]};
         log := [] |}
    = Ok (Some {| db := 0; rwstmt := 101%nat; rostmts := [102; 100]%nat |}, None) w'.
Proof. eexists. vm_compute. reflexivity. Qed.
